(** * Learning-rate schedulers of [creme/optim/schedulers.py]

    The Python module defines four schedulers ([Constant], [Cyclic],
    [InverseScaling], [Optimal]) whose [get(t)] maps an iteration counter
    (a Python [int]) to a learning rate (a Python [float]).

    The schedulers are embedded over an interface [PyArith] for the
    float operations the code performs.  Its instance [B64] is IEEE-754
    binary64 with round-to-nearest-even, which is what a Python [float]
    is, on the executable reference semantics of the standard library's
    [SpecFloat]: every property below is about the rounded operations.

    Python exceptions are values of [exn]; a computation that may raise
    returns a [result].  Assertions are modelled as executed (the
    interpreter is not run with [-O]). *)

From Stdlib Require Import ZArith Bool Lia Floats.SpecFloat.

Local Open Scope Z_scope.

(** ** Exceptions and results *)

Inductive exn : Type :=
| AssertionError      (* a failed [assert] *)
| ValueError          (* [math.sqrt]: math domain error *)
| ZeroDivisionError   (* [/], [%] and [pow] with a zero divisor *)
| OverflowError       (* an int too large to convert to float *)
| ComplexResult.      (* not an exception: [pow] answered with a [complex],
                         which is outside the floats *)

Inductive result (A : Type) : Type :=
| Ok (a : A)
| Raise (e : exn).

Arguments Ok {A} a.
Arguments Raise {A} e.

Definition bind {A B : Type} (m : result A) (k : A -> result B) : result B :=
  match m with
  | Ok a => k a
  | Raise e => Raise e
  end.

Declare Scope py_scope.
Delimit Scope py_scope with py.
Notation "x <- m ;; k" := (bind m (fun x => k))
  (at level 61, m at next level, right associativity) : py_scope.
Notation "'assert' b ;; k" := (if b then k else Raise AssertionError)
  (at level 61, b at next level, right associativity) : py_scope.

Local Open Scope py_scope.

Definition raises {A : Type} (m : result A) : bool :=
  match m with
  | Ok _ => false
  | Raise _ => true
  end.

(** The two error conditions the specification names.  [InvalidParameter]
    is the failed assertion of a constructor; [DomainError] is a
    real-valued computation that is undefined: a square root outside its
    domain or a division by zero. *)

Definition InvalidParameter (e : exn) : bool :=
  match e with
  | AssertionError => true
  | _ => false
  end.

Definition DomainError (e : exn) : bool :=
  match e with
  | ValueError | ZeroDivisionError => true
  | _ => false
  end.

(** [a % b] on Python ints: the result has the sign of the divisor, which
    is what [Z.modulo] computes. *)

Definition int_mod (a b : Z) : result Z :=
  if b =? 0 then Raise ZeroDivisionError else Ok (a mod b).

(** ** The float operations used by the schedulers *)

Class PyArith : Type := {
  float : Type;
  (** the decimal literal [m e k], e.g. [1e-4] is [dec 1 (-4)] *)
  dec : Z -> Z -> float;
  (** the implicit conversion of an int operand in mixed arithmetic *)
  float_of_int : Z -> result float;
  (** [a / b] on two ints *)
  int_truediv : Z -> Z -> result float;
  f_add : float -> float -> float;
  f_sub : float -> float -> float;
  f_mul : float -> float -> float;
  f_neg : float -> float;
  (** [x / y] on two floats *)
  f_truediv : float -> float -> result float;
  math_sqrt : float -> result float;
  f_lt : float -> float -> bool;
  f_le : float -> float -> bool;
  f_eq : float -> float -> bool
}.

(** [x ** y] on two floats.  Beyond its first special case it is the C
    library's [pow], which [SpecFloat] does not define, so it is an
    interface of its own. *)

Class PyPow (A : PyArith) : Type := {
  f_pow : float -> float -> result float
}.

Declare Scope float_scope.
Delimit Scope float_scope with fl.
Infix "+" := f_add : float_scope.
Infix "-" := f_sub : float_scope.
Infix "*" := f_mul : float_scope.
Notation "- x" := (f_neg x) : float_scope.
Infix "<?" := f_lt : float_scope.
Infix "<=?" := f_le : float_scope.
Infix "==" := f_eq (at level 70, no associativity) : float_scope.
Notation "x >=? y" := (f_le y x) (only parsing) : float_scope.
Notation "x >? y" := (f_lt y x) (only parsing) : float_scope.
Notation "'1.0'" := (dec 1 0) : float_scope.
Notation "'0.0'" := (dec 0 0) : float_scope.

(** A number as a constructor may receive it where the code expects an
    int or a float: an int, or a float of the arithmetic [F]. *)
Inductive pynum (F : Type) : Type :=
| PyInt (z : Z)
| PyFloat (x : F).

Arguments PyInt {F} z.
Arguments PyFloat {F} x.

Section Builtins.
Context {A : PyArith}.

(** [c > 0] *)
Definition gt0 (c : pynum float) : bool :=
  match c with
  | PyInt z => z >? 0
  | PyFloat x => (x >? 0.0)%fl
  end.

(** [isinstance(c, int)] *)
Definition isinstance_int (c : pynum float) : bool :=
  match c with
  | PyInt _ => true
  | PyFloat _ => false
  end.

(** [max(a, b)]: the later argument wins only when it is greater. *)
Definition max (a b : float) : float :=
  if (b >? a)%fl then b else a.

(** [x / d] for a float [x]: an int divisor is converted first. *)
Definition truediv (x : float) (d : pynum float) : result float :=
  match d with
  | PyInt z => y <- float_of_int z ;; f_truediv x y
  | PyFloat y => f_truediv x y
  end.

(** [pow(b, e)] for an int [b]: an int when [e] is an int that is not
    negative, the float power of the converted operands otherwise. *)
Definition pow {P : PyPow A} (b : Z) (e : pynum float) : result (pynum float) :=
  match e with
  | PyInt n =>
      if 0 <=? n then Ok (PyInt (b ^ n))
      else
        x <- float_of_int b ;;
        y <- float_of_int n ;;
        p <- f_pow x y ;;
        Ok (PyFloat p)
  | PyFloat y =>
      x <- float_of_int b ;;
      p <- f_pow x y ;;
      Ok (PyFloat p)
  end.
End Builtins.

(** ** Constant *)

Module Constant.

Record t (F : Type) : Type := { learning_rate : F }.
Arguments Build_t {F} _.
Arguments learning_rate {F} _.

Section Methods.
Context {A : PyArith}.

Definition init (learning_rate : float) : t float :=
  {| learning_rate := learning_rate |}.

Definition get (self : t float) (_ : Z) : float :=
  learning_rate self.
End Methods.
End Constant.

(** ** Cyclic *)

Module Cyclic.

(** After a successful [init], [c] is an int; the record keeps it as
    one. *)
Record t (F : Type) : Type := { lr1 : F; lr2 : F; c : Z }.
Arguments Build_t {F} _ _ _.
Arguments lr1 {F} _.
Arguments lr2 {F} _.
Arguments c {F} _.

Section Methods.
Context {A : PyArith}.

Definition init (lr1 lr2 : float) (c : pynum float) : result (t float) :=
  assert (lr1 >=? lr2)%fl ;;
  assert (gt0 c && isinstance_int c) ;;
  match c with
  | PyInt z => Ok {| lr1 := lr1; lr2 := lr2; c := z |}
  | PyFloat _ => Raise AssertionError (* excluded by [isinstance_int] *)
  end.

Definition get (self : t float) (t : Z) : result float :=
  m <- int_mod (t - 1) (c self) ;;
  ti <- int_truediv (m + 1) (c self) ;;
  Ok ((1.0 - ti) * lr1 self + ti * lr2 self)%fl.
End Methods.
End Cyclic.

(** ** InverseScaling *)

Module InverseScaling.

(** [power] is documented as a float, and nothing stops an int. *)
Record t (F : Type) : Type := { learning_rate : F; power : pynum F }.
Arguments Build_t {F} _ _.
Arguments learning_rate {F} _.
Arguments power {F} _.

Section Methods.
Context {A : PyArith} {P : PyPow A}.

(** The default of [power] is the literal [0.5]. *)
Definition default_power : pynum float := PyFloat (dec 5 (-1)).

Definition init (learning_rate : float) (power : pynum float) : t float :=
  {| learning_rate := learning_rate; power := power |}.

Definition get (self : t float) (t : Z) : result float :=
  d <- pow (t + 1) (power self) ;;
  truediv (learning_rate self) d.
End Methods.
End InverseScaling.

(** ** Optimal *)

Module Optimal.

(** The loss capability: only [gradient(y_pred, y_true)] is used; being
    foreign code, it may raise. *)
Record Loss (F : Type) : Type := { gradient : F -> F -> result F }.
Arguments Build_Loss {F} _.
Arguments gradient {F} _ _ _.

Record t (F : Type) : Type := { loss : Loss F; alpha : F; t0 : F }.
Arguments Build_t {F} _ _ _.
Arguments loss {F} _.
Arguments alpha {F} _.
Arguments t0 {F} _.

Section Methods.
Context {A : PyArith}.

(** The default of [alpha] is the literal [1e-4]. *)
Definition default_alpha : float := dec 1 (-4).

(** Line 102, the only step before the loss is called. *)
Definition typw (alpha : float) : result float :=
  s <- math_sqrt alpha ;;
  q <- f_truediv 1.0%fl s ;;
  math_sqrt q.

Definition init (loss : Loss float) (alpha : float) : result (t float) :=
  typw <- typw alpha ;;
  g <- gradient loss (- typw)%fl 1.0%fl ;;
  initial_eta0 <- f_truediv typw (max 1.0%fl g) ;;
  t0 <- f_truediv 1.0%fl (initial_eta0 * alpha)%fl ;;
  Ok {| loss := loss; alpha := alpha; t0 := t0 |}.

Definition get (self : t float) (t : Z) : result float :=
  ft <- float_of_int t ;;
  f_truediv 1.0%fl (alpha self * (t0 self + ft))%fl.
End Methods.
End Optimal.

(** ** Binary64 *)

Module B64.

Definition prec : Z := 53.
Definition emax : Z := 1024.

(** An int as an exact, not yet rounded, binary number. *)
Definition of_Z (z : Z) : spec_float :=
  match z with
  | Z0 => S754_zero false
  | Zpos p => S754_finite false p 0
  | Zneg p => S754_finite true p 0
  end.

Definition is_inf (x : spec_float) : bool :=
  match x with
  | S754_infinity _ => true
  | _ => false
  end.

Definition is_nan (x : spec_float) : bool :=
  match x with
  | S754_nan => true
  | _ => false
  end.

Definition is_finite (x : spec_float) : bool :=
  match x with
  | S754_zero _ | S754_finite _ _ _ => true
  | _ => false
  end.

(** A value a binary64 variable can hold. *)
Definition valid (x : spec_float) : bool := valid_binary prec emax x.

Definition nan : spec_float := S754_nan.
Definition inf : spec_float := S754_infinity false.
Definition zero : spec_float := S754_zero false.
Definition one : spec_float := S754_finite false 4503599627370496 (-52).

(** An int that does not fit raises; otherwise it is rounded to the
    nearest float. *)
Definition int_to_float (z : Z) : result spec_float :=
  let x := binary_normalize prec emax z 0 false in
  if is_inf x then Raise OverflowError else Ok x.

(** The correctly rounded quotient of two ints of any size. *)
Definition int_div (a b : Z) : result spec_float :=
  if b =? 0 then Raise ZeroDivisionError
  else
    let q := SFdiv prec emax (of_Z a) (of_Z b) in
    if is_inf q then Raise OverflowError else Ok q.

(** A decimal literal is read with correct rounding. *)
Definition literal (m k : Z) : spec_float :=
  if 0 <=? k then binary_normalize prec emax (m * 10 ^ k) 0 false
  else SFdiv prec emax (of_Z m) (of_Z (10 ^ (- k))).

Definition div (x y : spec_float) : result spec_float :=
  if SFeqb y zero then Raise ZeroDivisionError
  else Ok (SFdiv prec emax x y).

(** [math.sqrt]: a NaN argument is passed through, a NaN result for
    another argument is a domain error. *)
Definition sqrt (x : spec_float) : result spec_float :=
  if is_nan x then Ok x
  else
    let r := SFsqrt prec emax x in
    if is_nan r then Raise ValueError else Ok r.

#[export] Instance arith : PyArith := {|
  float := spec_float;
  dec := literal;
  float_of_int := int_to_float;
  int_truediv := int_div;
  f_add := SFadd prec emax;
  f_sub := SFsub prec emax;
  f_mul := SFmul prec emax;
  f_neg := SFopp;
  f_truediv := div;
  math_sqrt := sqrt;
  f_lt := SFltb;
  f_le := SFleb;
  f_eq := SFeqb
|}.

(** [x ** y]: the interpreter answers [1.0] for a zero exponent before
    anything else; [rest] stands for what follows, the remaining special
    cases and the C library's [pow]. *)
Definition power (rest : spec_float -> spec_float -> result spec_float)
    (x y : spec_float) : result spec_float :=
  if SFeqb y zero then Ok one else rest x y.

Definition arith_pow (rest : spec_float -> spec_float -> result spec_float) :
  PyPow arith := {| f_pow := power rest |}.

(** What follows the zero exponent in the interpreter's float power, in
    its order: a NaN base is the answer; with a NaN exponent the answer
    is [1.0] for the base [1.0] and NaN otherwise; with an infinite
    exponent it is [1.0], [inf] or [0.0] by the size of the base; an
    infinite, zero or negative base is left to [other]; the base [1.0]
    gives [1.0]; every other pair goes to the C library's [pow], [libm],
    with the exceptions the interpreter makes of its errors. *)
Definition float_pow_cases
    (other libm : spec_float -> spec_float -> result spec_float)
    (x y : spec_float) : result spec_float :=
  if is_nan x then Ok x
  else if is_nan y then Ok (if SFeqb x one then one else y)
  else if is_inf y then
    if SFeqb (SFabs x) one then Ok one
    else if Bool.eqb (SFltb zero y) (SFltb one (SFabs x)) then Ok inf
    else Ok zero
  else if is_inf x || SFeqb x zero || SFltb x zero then other x y
  else if SFeqb x one then Ok one
  else libm x y.
End B64.


(** ** Orders of magnitude in binary64

    The vocabulary of the bounds proved below on the operations of
    binary64: a float that is not negative compared with a power of two,
    and the integer just above what a rounding step has kept. *)

(** [x >= 2^k] and [x <= 2^k] for a float that is not negative. *)
Definition pos_ge (x : spec_float) (k : Z) : Prop :=
  match x with
  | S754_infinity false => True
  | S754_finite false m e => 2 ^ (k - e) <= Zpos m
  | _ => False
  end.

Definition pos_le (x : spec_float) (k : Z) : Prop :=
  match x with
  | S754_zero false => True
  | S754_finite false m e => e <= k /\ Zpos m <= 2 ^ (k - e)
  | _ => False
  end.

(** The least integer above the value that a shift record stands for. *)
Definition shr_hi (r : shr_record) : Z :=
  shr_m r + (if shr_r r || shr_s r then 1 else 0).

Definition loc_hi (m : Z) (l : location) : Z :=
  m + match l with loc_Exact => 0 | loc_Inexact _ => 1 end.

(** The position of a number on the grid of a rounding step, to a
    quarter of a unit: four times the integer below, plus 0 when the
    number is that integer, 1, 2 or 3 when it is below, at or above the
    middle of the interval to the next integer. *)
Definition loc_code (l : location) : Z :=
  match l with
  | loc_Exact => 0
  | loc_Inexact Lt => 1
  | loc_Inexact Eq => 2
  | loc_Inexact Gt => 3
  end.

Definition shr_key (r : shr_record) : Z :=
  4 * shr_m r + (if shr_r r then 2 else 0) + (if shr_s r then 1 else 0).

(** The same position for the quotient [a / d] of two integers, counted
    in halves: twice the integer quotient, plus one when the division is
    not exact. *)
Definition ratio_key (a d : Z) : Z :=
  2 * (a / d) + (if a mod d =? 0 then 0 else 1).

(** What [binary_round_aux] does after the first rounding. *)
Definition round_tail (m e : Z) : spec_float :=
  let '(mrs, e') := shr_fexp B64.prec B64.emax m e loc_Exact in
  match shr_m mrs with
  | Z0 => S754_zero false
  | Zpos p => if e' <=? B64.emax - B64.prec then S754_finite false p e'
              else S754_infinity false
  | Zneg _ => S754_nan
  end.

(** ** The binary64 operations on a few inputs *)

Section B64Examples.
Local Existing Instance B64.arith.
Local Abbreviation lit := (@dec B64.arith).

(** [0.1] is [0x1.999999999999ap-4]. *)
Example b64_literal_0_1 : lit 1 (-1) = S754_finite false 7205759403792794 (-56).
Proof. vm_compute. reflexivity. Qed.

(** [1e-4] is [0x1.a36e2eb1c432dp-14]. *)
Example b64_literal_1e_4 : lit 1 (-4) = S754_finite false 7378697629483821 (-66).
Proof. vm_compute. reflexivity. Qed.

(** [1 / 3] is [0.3333333333333333], i.e. [0x1.5555555555555p-2]. *)
Example b64_int_truediv_1_3 :
  int_truediv 1 3 = Ok (S754_finite false 6004799503160661 (-54)).
Proof. vm_compute. reflexivity. Qed.

(** [0.1 + 0.2] is [0.30000000000000004], which is not [0.3]. *)
Example b64_add_0_1_0_2 :
  (lit 1 (-1) + lit 2 (-1))%fl = S754_finite false 5404319552844596 (-54) /\
  lit 3 (-1) = S754_finite false 5404319552844595 (-54).
Proof. split; vm_compute; reflexivity. Qed.

(** [math.sqrt(2.0)] is [1.4142135623730951]. *)
Example b64_sqrt_2 :
  math_sqrt (lit 2 0) = Ok (S754_finite false 6369051672525773 (-52)).
Proof. vm_compute. reflexivity. Qed.

(** [float(2**53 + 1)] rounds to [2.0**53]; [float(2**1024)] raises. *)
Example b64_float_of_int :
  float_of_int (2 ^ 53 + 1) = Ok (S754_finite false 4503599627370496 1) /\
  float_of_int (2 ^ 1024) = Raise OverflowError.
Proof. split; vm_compute; reflexivity. Qed.

(** [1.0 / 0.0] and [math.sqrt(-1.0)] raise. *)
Example b64_raises :
  f_truediv (lit 1 0) (lit 0 0) = Raise ZeroDivisionError /\
  math_sqrt (- lit 1 0)%fl = Raise ValueError.
Proof. split; vm_compute; reflexivity. Qed.
End B64Examples.

(** * Facts used below *)

(** ** For every instance of the interface *)

Section CyclicGeneric.
Context {A : PyArith}.

Lemma Cyclic_init_inv (lr1 lr2 : float) (c : pynum float) (s : Cyclic.t float) :
  Cyclic.init lr1 lr2 c = Ok s ->
  (lr1 >=? lr2)%fl = true /\
  exists z, c = PyInt z /\ 0 < z /\
            s = {| Cyclic.lr1 := lr1; Cyclic.lr2 := lr2; Cyclic.c := z |}.
Proof.
  unfold Cyclic.init.
  destruct (lr1 >=? lr2)%fl; [|discriminate].
  destruct c as [z|x]; cbn.
  - destruct (Z.gtb_spec z 0); cbn; [|discriminate].
    intros [= <-]. split; [reflexivity|]. exists z. auto.
  - rewrite andb_false_r. discriminate.
Qed.

Lemma int_mod_unique (a c q r : Z) :
  a = q * c + r -> 0 <= r < c -> int_mod a c = Ok r.
Proof.
  intros Ha Hr. unfold int_mod.
  destruct (Z.eqb_spec c 0); [lia|].
  f_equal. symmetry. apply (Z.mod_unique_pos a c q r); lia.
Qed.
End CyclicGeneric.

(** ** Rounding in binary64 *)

Lemma digits2_pos_size (p : positive) : digits2_pos p = Pos.size p.
Proof. induction p; cbn; congruence. Qed.

Lemma Zdigits2_log2 (m : Z) : 0 < m -> Zdigits2 m = Z.log2 m + 1.
Proof.
  destruct m as [|p|p]; try lia. intros _. cbn.
  destruct p; cbn; rewrite ?digits2_pos_size; lia.
Qed.

Lemma Zdigits2_le_pow2 (m k : Z) : 0 <= m <= 2 ^ k -> 0 <= k -> Zdigits2 m <= k + 1.
Proof.
  intros [H0 Hm] Hk.
  destruct (Z.eq_dec m 0) as [->|]; [cbn; lia|].
  rewrite Zdigits2_log2 by lia.
  apply Z.log2_le_mono in Hm. rewrite Z.log2_pow2 in Hm by lia. lia.
Qed.

Lemma Zdigits2_lt_pow2 (m : Z) : 0 <= m -> m < 2 ^ Zdigits2 m.
Proof.
  intros H. destruct (Z.eq_dec m 0) as [->|]; [cbn; lia|].
  rewrite Zdigits2_log2 by lia.
  apply (Z.log2_spec m). lia.
Qed.

Lemma Zdigits2_nonneg (m : Z) : 0 <= Zdigits2 m.
Proof. destruct m; cbn; lia. Qed.

Lemma shr_1_m (r : shr_record) : 0 <= shr_m r -> shr_m (shr_1 r) = shr_m r / 2.
Proof.
  destruct r as [m r s]; cbn.
  destruct m as [|[p|p|]|p]; intros H; cbn; try lia; try reflexivity.
  - apply Z.div_unique with 1; lia.
  - apply Z.div_unique with 0; lia.
Qed.

Lemma shr_1_nonneg (r : shr_record) : 0 <= shr_m r -> 0 <= shr_m (shr_1 r).
Proof. intros H. rewrite shr_1_m by assumption. apply Z.div_pos; lia. Qed.

Lemma iter_shr_1_m (p : positive) :
  forall r, 0 <= shr_m r ->
            0 <= shr_m (iter_pos shr_1 p r) /\
            shr_m (iter_pos shr_1 p r) = shr_m r / 2 ^ Zpos p.
Proof.
  induction p as [p IH|p IH|]; intros r Hr; cbn [iter_pos].
  - destruct (IH (shr_1 r) (shr_1_nonneg r Hr)) as [H1 E1].
    destruct (IH _ H1) as [H2 E2].
    split; [exact H2|].
    rewrite E2, E1, shr_1_m by assumption.
    rewrite !Z.div_div by lia.
    f_equal.
    replace (Z.pos p~1) with (1 + Z.pos p + Z.pos p) by lia.
    rewrite !Z.pow_add_r by lia. lia.
  - destruct (IH r Hr) as [H1 E1].
    destruct (IH _ H1) as [H2 E2].
    split; [exact H2|].
    rewrite E2, E1.
    rewrite !Z.div_div by lia.
    f_equal.
    replace (Z.pos p~0) with (Z.pos p + Z.pos p) by lia.
    rewrite !Z.pow_add_r by lia. lia.
  - split; [apply shr_1_nonneg; assumption|].
    rewrite shr_1_m by lia. reflexivity.
Qed.

Lemma shr_spec (mrs : shr_record) (e n : Z) :
  0 <= shr_m mrs ->
  shr_m (fst (shr mrs e n)) = shr_m mrs / 2 ^ Z.max n 0 /\
  snd (shr mrs e n) = e + Z.max n 0.
Proof.
  intros H. destruct n as [|p|p]; cbn [shr fst snd].
  - rewrite Z.max_id. cbn. rewrite Z.div_1_r. lia.
  - destruct (iter_shr_1_m p mrs H) as [_ ->]. rewrite Z.max_l by lia. split; reflexivity.
  - rewrite Z.max_r by lia. cbn. rewrite Z.div_1_r. lia.
Qed.

Lemma shr_m_record_of_loc (m : Z) (l : location) : shr_m (shr_record_of_loc m l) = m.
Proof. destruct l as [|[]]; reflexivity. Qed.

Lemma round_nearest_even_bounds (m : Z) (l : location) :
  m <= round_nearest_even m l <= m + 1.
Proof. destruct l as [|[]]; cbn; try destruct (Z.even m); lia. Qed.

Lemma div_pow2_lt (m d k : Z) :
  0 <= m < 2 ^ d -> 0 <= d -> 0 <= k -> m / 2 ^ k < 2 ^ Z.max (d - k) 0.
Proof.
  intros [H0 Hm] Hd Hk.
  destruct (Z_le_gt_dec k d).
  - rewrite Z.max_l by lia.
    apply Z.div_lt_upper_bound; [lia|].
    rewrite <- Z.pow_add_r by lia. replace (k + (d - k)) with d by lia. lia.
  - rewrite Z.max_r by lia.
    rewrite Z.div_small; [lia|]. split; [lia|].
    apply Z.lt_le_trans with (1 := Hm). apply Z.pow_le_mono_r; lia.
Qed.

Lemma fexp_le (x b : Z) : x <= b + 53 -> -1074 <= b -> fexp B64.prec B64.emax x <= b.
Proof. unfold fexp, emin, B64.prec, B64.emax. lia. Qed.

Lemma binary_round_aux_not_inf (s : bool) (m e : Z) (l : location) :
  0 <= m -> Zdigits2 m + e <= 1023 -> e <= 971 ->
  B64.is_inf (binary_round_aux B64.prec B64.emax s m e l) = false.
Proof.
  intros Hm Hd He.
  unfold binary_round_aux, shr_fexp.
  set (n1 := fexp B64.prec B64.emax (Zdigits2 m + e) - e).
  pose proof (shr_spec (shr_record_of_loc m l) e n1) as H1.
  rewrite shr_m_record_of_loc in H1. specialize (H1 Hm).
  destruct (shr (shr_record_of_loc m l) e n1) as [mrs' e']. cbn [fst snd] in H1.
  destruct H1 as [Hm' He'].
  set (m1 := round_nearest_even (shr_m mrs') (loc_of_shr_record mrs')).
  pose proof (round_nearest_even_bounds (shr_m mrs') (loc_of_shr_record mrs')) as Hr.
  fold m1 in Hr.
  assert (Hk : 0 <= Z.max n1 0) by lia.
  assert (Hm'0 : 0 <= shr_m mrs') by (rewrite Hm'; apply Z.div_pos; lia).
  assert (Hlt : shr_m mrs' < 2 ^ Z.max (Zdigits2 m - Z.max n1 0) 0).
  { rewrite Hm'. apply div_pow2_lt; auto using Zdigits2_nonneg.
    split; [lia|]. apply Zdigits2_lt_pow2; lia. }
  assert (Hd1 : Zdigits2 m1 <= Z.max (Zdigits2 m - Z.max n1 0) 0 + 1).
  { apply Zdigits2_le_pow2; lia. }
  assert (Hn1 : n1 + e <= 970).
  { unfold n1. pose proof (fexp_le (Zdigits2 m + e) 970). lia. }
  set (n2 := fexp B64.prec B64.emax (Zdigits2 m1 + e') - e').
  pose proof (shr_spec (shr_record_of_loc m1 loc_Exact) e' n2) as H2.
  rewrite shr_m_record_of_loc in H2.
  destruct (shr (shr_record_of_loc m1 loc_Exact) e' n2) as [mrs'' e'']. cbn [fst snd] in H2.
  destruct H2 as [_ He'']; [lia|].
  assert (Hn2 : n2 + e' <= 971).
  { unfold n2. pose proof (fexp_le (Zdigits2 m1 + e') 971). lia. }
  destruct (shr_m mrs''); try reflexivity.
  replace (e'' <=? B64.emax - B64.prec) with true; [reflexivity|].
  symmetry. apply Z.leb_le. unfold B64.emax, B64.prec. lia.
Qed.

Lemma int_div_le_ok (a b : Z) :
  0 < a <= b -> exists x, B64.int_div a b = Ok x /\ x = SFdiv B64.prec B64.emax (B64.of_Z a) (B64.of_Z b).
Proof.
  intros [Ha Hab]. unfold B64.int_div.
  destruct (Z.eqb_spec b 0); [lia|].
  destruct a as [|pa|pa]; try lia. destruct b as [|pb|pb]; try lia.
  cbn [B64.of_Z].
  match goal with |- context [if ?c then _ else _] => assert (Hc : c = false) end.
  2:{ rewrite Hc. eexists; split; reflexivity. }
  unfold SFdiv, SFdiv_core_binary.
  rewrite !Z.add_0_r, Z.sub_0_r.
  set (e' := Z.min _ 0).
  assert (He' : e' <= 0) by (unfold e'; lia).
  set (m' := match 0 - e' with Z0 => _ | Zpos _ => _ | Zneg _ => _ end).
  assert (Hm' : m' = Zpos pa * 2 ^ (- e')).
  { unfold m'. destruct e' as [|p|p]; try lia; cbn [Z.sub Z.opp Z.add].
    - cbn. lia.
    - rewrite Z.shiftl_mul_pow2 by lia. reflexivity. }
  pose proof (Z_div_mod m' (Zpos pb) eq_refl) as Hdm.
  destruct (Z.div_eucl m' (Zpos pb)) as [q r]. cbn [xorb].
  destruct Hdm as [Hq Hr].
  assert (Hpow : 0 < 2 ^ (- e')) by (apply Z.pow_pos_nonneg; lia).
  assert (Hq0 : 0 <= q) by nia.
  assert (Hq1 : q <= 2 ^ (- e')) by nia.
  apply binary_round_aux_not_inf; try lia.
  pose proof (Zdigits2_le_pow2 q (- e')). lia.
Qed.

Lemma literal_one : B64.literal 1 0 = B64.one.
Proof. reflexivity. Qed.

Lemma new_location_0 (n : Z) : new_location n 0 = loc_Exact.
Proof.
  unfold new_location, new_location_even, new_location_odd.
  destruct (Z.even n); reflexivity.
Qed.

Lemma int_div_same (c : Z) : 0 < c -> B64.int_div c c = Ok B64.one.
Proof.
  intros Hc. unfold B64.int_div.
  destruct (Z.eqb_spec c 0); [lia|].
  destruct c as [|p|p]; try lia. cbn [B64.of_Z].
  unfold SFdiv, SFdiv_core_binary.
  replace (Zdigits2 (Z.pos p) + 0 - (Zdigits2 (Z.pos p) + 0)) with 0 by lia.
  change (Z.min (fexp B64.prec B64.emax 0) (0 - 0)) with (-53).
  change (0 - 0 - -53) with 53.
  cbv iota.
  pose proof (Z_div_mod (Z.shiftl (Zpos p) 53) (Zpos p) eq_refl) as H.
  change IntDef.Z.div_eucl with Z.div_eucl.
  change IntDef.Z.shiftl with Z.shiftl.
  destruct (Z.div_eucl (Z.shiftl (Zpos p) 53) (Zpos p)) as [q r].
  rewrite Z.shiftl_mul_pow2 in H by lia.
  destruct H as [H Hr].
  destruct (Z.div_mod_unique (Zpos p) q (2 ^ 53) r 0) as [-> ->]; [lia|lia|lia|].
  rewrite new_location_0. reflexivity.
Qed.

Lemma shr_1_double (z : Z) :
  shr_1 (Build_shr_record (2 * z) false false) = Build_shr_record z false false.
Proof. destruct z; reflexivity. Qed.

Lemma iter_shr_1_exact (p : positive) :
  forall z, iter_pos shr_1 p (Build_shr_record (z * 2 ^ Zpos p) false false)
            = Build_shr_record z false false.
Proof.
  induction p as [p IH|p IH|]; intros z; cbn [iter_pos].
  - replace (z * 2 ^ Z.pos p~1) with (2 * ((z * 2 ^ Zpos p) * 2 ^ Zpos p)).
    + rewrite shr_1_double, IH, IH. reflexivity.
    + replace (Z.pos p~1) with (1 + Z.pos p + Z.pos p) by lia.
      rewrite !Z.pow_add_r by lia. lia.
  - replace (z * 2 ^ Z.pos p~0) with ((z * 2 ^ Zpos p) * 2 ^ Zpos p).
    + rewrite IH, IH. reflexivity.
    + replace (Z.pos p~0) with (Z.pos p + Z.pos p) by lia.
      rewrite !Z.pow_add_r by lia. lia.
  - replace (z * 2 ^ 1) with (2 * z) by lia. apply shr_1_double.
Qed.

Lemma Zdigits2_mul_pow2 (m : positive) (k : Z) :
  0 <= k -> Zdigits2 (Zpos m * 2 ^ k) = Zdigits2 (Zpos m) + k.
Proof.
  intros Hk.
  assert (0 < 2 ^ k) by (apply Z.pow_pos_nonneg; lia).
  rewrite !Zdigits2_log2 by lia.
  rewrite Z.log2_mul_pow2 by lia. lia.
Qed.

(** Rounding a mantissa that only carries [k] extra zero bits gives the
    number back. *)
Lemma binary_round_aux_exact (s : bool) (m : positive) (e k : Z) :
  bounded B64.prec B64.emax m e = true -> 0 <= k ->
  binary_round_aux B64.prec B64.emax s (Zpos m * 2 ^ k) (e - k) loc_Exact
  = S754_finite s m e.
Proof.
  intros Hb Hk. unfold bounded, canonical_mantissa in Hb.
  apply andb_true_iff in Hb. destruct Hb as [Hc He].
  apply Z.eqb_eq in Hc.
  change (Z.pos (digits2_pos m)) with (Zdigits2 (Zpos m)) in Hc.
  unfold binary_round_aux, shr_fexp.
  rewrite Zdigits2_mul_pow2 by assumption.
  replace (Zdigits2 (Z.pos m) + k + (e - k)) with (Zdigits2 (Z.pos m) + e) by lia.
  rewrite Hc. replace (e - (e - k)) with k by lia.
  cbn [shr_record_of_loc].
  assert (Hshr : shr (Build_shr_record (Zpos m * 2 ^ k) false false) (e - k) k
                 = (Build_shr_record (Zpos m) false false, e)).
  { destruct k as [|p|p]; try lia; cbn [shr].
    - rewrite Z.pow_0_r, Z.mul_1_r. f_equal. lia.
    - rewrite iter_shr_1_exact. f_equal. lia. }
  rewrite Hshr. cbn [shr_m loc_of_shr_record round_nearest_even].
  rewrite Hc, Z.sub_diag. cbn [shr shr_record_of_loc shr_m].
  rewrite He. reflexivity.
Qed.

Lemma SFmul_1_l (x : spec_float) :
  B64.valid x = true -> SFmul B64.prec B64.emax B64.one x = x.
Proof.
  destruct x as [s|s| |s m e]; intros Hv; try reflexivity.
  unfold B64.one, SFmul. cbn [xorb].
  change (Z.pos (4503599627370496 * m)) with (2 ^ 52 * Zpos m).
  rewrite Z.mul_comm. replace (-52 + e) with (e - 52) by lia.
  apply binary_round_aux_exact; [exact Hv|lia].
Qed.

Lemma SFdiv_1_r (x : spec_float) :
  B64.valid x = true -> SFdiv B64.prec B64.emax x B64.one = x.
Proof.
  destruct x as [s|s| |s m e]; intros Hv; try (destruct s; reflexivity); try reflexivity.
  pose proof Hv as Hb. unfold B64.valid, valid_binary, bounded, canonical_mantissa in Hb.
  apply andb_true_iff in Hb. destruct Hb as [Hc He].
  apply Z.eqb_eq in Hc. apply Z.leb_le in He.
  change (Z.pos (digits2_pos m)) with (Zdigits2 (Zpos m)) in Hc.
  unfold B64.one, SFdiv, SFdiv_core_binary.
  change (Zdigits2 (Z.pos 4503599627370496)) with 53.
  set (d := Zdigits2 (Zpos m)) in *.
  set (e' := Z.min _ _).
  assert (Hk : exists k, 0 <= k <= 1 /\ e' = e - k /\ e - -52 - e' = 52 + k).
  { exists (e - e'). unfold e' in *. unfold fexp, emin, B64.prec, B64.emax in *. lia. }
  destruct Hk as [k [Hk [He' Hs]]]. rewrite Hs.
  assert (Hm' : match 52 + k with
                | 0 => Z.pos m
                | Z.pos _ => Z.shiftl (Z.pos m) (52 + k)
                | Z.neg _ => 0
                end = Zpos m * 2 ^ k * 2 ^ 52).
  { destruct (52 + k) eqn:E; try lia.
    rewrite Z.shiftl_mul_pow2 by lia. rewrite <- E.
    rewrite Z.pow_add_r by lia. lia. }
  change IntDef.Z.shiftl with Z.shiftl. rewrite Hm'.
  change IntDef.Z.div_eucl with Z.div_eucl.
  pose proof (Z_div_mod (Zpos m * 2 ^ k * 2 ^ 52) (Zpos 4503599627370496) eq_refl) as H.
  destruct (Z.div_eucl (Zpos m * 2 ^ k * 2 ^ 52) (Zpos 4503599627370496)) as [q r].
  destruct H as [H Hr].
  destruct (Z.div_mod_unique (Zpos 4503599627370496) q (Zpos m * 2 ^ k) r 0) as [-> ->];
    [lia|lia|lia|].
  rewrite new_location_0, xorb_false_r, He'.
  apply binary_round_aux_exact; [exact Hv|lia].
Qed.

Lemma SFcompare_refl (x : spec_float) :
  B64.is_nan x = false -> SFcompare x x = Some Eq.
Proof.
  destruct x as [s|[]| |[] m e]; cbn; intros H; try reflexivity; try discriminate;
    rewrite Z.compare_refl, Pos.compare_cont_refl; reflexivity.
Qed.

Lemma cmp_aux (ex ey : Z) (mx my : positive) :
  match ey ?= ex with Lt => Lt | Gt => Gt | Eq => Pos.compare_cont Eq my mx end
  = CompOpp (match ex ?= ey with Lt => Lt | Gt => Gt | Eq => Pos.compare_cont Eq mx my end).
Proof.
  rewrite (Z.compare_antisym ex ey). destruct (ex ?= ey); cbn; try reflexivity.
  rewrite Pos.compare_cont_antisym. reflexivity.
Qed.
Lemma cmp_aux' (ex ey : Z) (mx my : positive) :
  match ey ?= ex with Lt => Gt | Gt => Lt | Eq => CompOpp (Pos.compare_cont Eq my mx) end
  = CompOpp (match ex ?= ey with Lt => Gt | Gt => Lt | Eq => CompOpp (Pos.compare_cont Eq mx my) end).
Proof.
  rewrite (Z.compare_antisym ex ey). destruct (ex ?= ey); cbn; try reflexivity.
  rewrite !Pos.compare_cont_antisym. reflexivity.
Qed.
Lemma SFcompare_antisym (x y : spec_float) :
  SFcompare y x = option_map CompOpp (SFcompare x y).
Proof.
  destruct x as [sx|[]| |[] mx ex], y as [sy|[]| |[] my ey]; cbn;
    try reflexivity; try (destruct sx; reflexivity); try (destruct sy; reflexivity);
    f_equal; first [apply cmp_aux | apply cmp_aux'].
Qed.

Lemma SFcompare_None (x y : spec_float) :
  SFcompare x y = None <-> B64.is_nan x = true \/ B64.is_nan y = true.
Proof.
  destruct x as [sx|[]| |[] mx ex], y as [sy|[]| |[] my ey]; cbn;
    intuition (try discriminate; try reflexivity).
Qed.

(** [lr1 >= lr2] is false exactly when [lr1 < lr2] or one side is NaN. *)
Lemma SFleb_false_iff (x y : spec_float) :
  SFleb y x = false <->
  SFltb x y = true \/ B64.is_nan x = true \/ B64.is_nan y = true.
Proof.
  rewrite <- SFcompare_None.
  unfold SFleb, SFltb. rewrite (SFcompare_antisym x y).
  destruct (SFcompare x y) as [[]|]; cbn; intuition (try discriminate; try reflexivity).
Qed.

Lemma SFadd_zero_l_eq (s : bool) (x : spec_float) :
  B64.is_nan x = false -> SFeqb (SFadd B64.prec B64.emax (S754_zero s) x) x = true.
Proof.
  intros H. unfold SFeqb.
  destruct x as [sx|sx| |sx m e]; try discriminate.
  - destruct s, sx; reflexivity.
  - cbn [SFadd]. rewrite SFcompare_refl; reflexivity.
  - cbn [SFadd]. rewrite SFcompare_refl; reflexivity.
Qed.

Lemma SFmul_zero_finite (s : bool) (x : spec_float) :
  B64.is_finite x = true ->
  exists s', SFmul B64.prec B64.emax (S754_zero s) x = S754_zero s'.
Proof.
  destruct x as [sx|sx| |sx m e]; try discriminate; intros _; cbn; eauto.
Qed.

(** ** The cycle *)

Section CyclicGeneric2.
Context {A : PyArith}.

Lemma Cyclic_get_unfold (s : Cyclic.t float) (t q r : Z) :
  t - 1 = q * Cyclic.c s + r -> 0 <= r < Cyclic.c s ->
  Cyclic.get s t =
  (ti <- int_truediv (r + 1) (Cyclic.c s) ;;
   Ok ((1.0 - ti) * Cyclic.lr1 s + ti * Cyclic.lr2 s)%fl).
Proof.
  intros Ht Hr. unfold Cyclic.get.
  rewrite (int_mod_unique _ _ q r Ht Hr). reflexivity.
Qed.

Lemma Cyclic_get_periodic (s : Cyclic.t float) (t : Z) :
  Cyclic.get s t = Cyclic.get s (t + Cyclic.c s).
Proof.
  unfold Cyclic.get, int_mod.
  destruct (Cyclic.c s =? 0); [reflexivity|].
  replace (t + Cyclic.c s - 1) with (t - 1 + 1 * Cyclic.c s) by lia.
  rewrite Z_mod_plus_full. reflexivity.
Qed.

Lemma Cyclic_get_0_c (s : Cyclic.t float) :
  Cyclic.get s 0 = Cyclic.get s (Cyclic.c s).
Proof. rewrite (Cyclic_get_periodic s 0). reflexivity. Qed.
End CyclicGeneric2.

Section CyclicB64.
Local Existing Instance B64.arith.

Lemma B64_Cyclic_get_c (lr1 lr2 : spec_float) (c : pynum float) (s : Cyclic.t float) :
  Cyclic.init lr1 lr2 c = Ok s ->
  B64.is_finite lr1 = true -> B64.valid lr2 = true ->
  exists x, Cyclic.get s (Cyclic.c s) = Ok x /\ (x == lr2)%fl = true.
Proof.
  intros Hs Hf Hv.
  destruct (Cyclic_init_inv _ _ _ _ Hs) as [Hge [z [-> [Hz ->]]]].
  rewrite (Cyclic_get_unfold _ z 0 (z - 1)) by (cbn; lia).
  cbn [Cyclic.c Cyclic.lr1 Cyclic.lr2 int_truediv B64.arith].
  replace (z - 1 + 1) with z by lia.
  rewrite int_div_same by assumption. cbn [bind].
  eexists. split; [reflexivity|].
  cbn [f_eq f_add f_mul f_sub dec B64.arith].
  rewrite literal_one.
  change (SFsub B64.prec B64.emax B64.one B64.one) with (S754_zero false).
  rewrite SFmul_1_l by assumption.
  destruct (SFmul_zero_finite false lr1 Hf) as [s' ->].
  apply SFadd_zero_l_eq.
  cbn [f_le B64.arith] in Hge.
  destruct lr2; try reflexivity. destruct lr1; discriminate.
Qed.
End CyclicB64.

(** ** The clamp of Optimal, in binary64 *)

Lemma B64_max_ge_l (x y : spec_float) :
  B64.is_nan x = false ->
  SFleb x (@max B64.arith x y) = true.
Proof.
  intros Hx. unfold max. cbn [f_lt B64.arith].
  destruct (SFltb x y) eqn:Hlt.
  - unfold SFltb in Hlt. unfold SFleb.
    destruct (SFcompare x y) as [[]|]; try discriminate Hlt. reflexivity.
  - unfold SFleb. rewrite (SFcompare_refl x Hx). reflexivity.
Qed.

(** ** Bounds by powers of two, in binary64

    Rounding to nearest is monotone, and the powers of two from [2^-1074]
    on are floats: a lower or an upper bound of an exact result by a
    power of two is also one of the rounded result.  The lemmas follow
    the integer algorithms of the operations. *)

Lemma pow2_le_mono (a b : Z) : a <= b -> 2 ^ a <= 2 ^ b.
Proof.
  intros H. destruct (Z_lt_le_dec a 0).
  - rewrite (Z.pow_neg_r 2 a) by assumption. apply Z.pow_nonneg. lia.
  - apply Z.pow_le_mono_r; lia.
Qed.

Lemma pos_ge_weaken (x : spec_float) (a b : Z) : pos_ge x a -> b <= a -> pos_ge x b.
Proof.
  destruct x as [|[]| |[] m e]; cbn; auto. intros H Hb.
  apply Z.le_trans with (2 := H). apply pow2_le_mono. lia.
Qed.

Lemma pos_le_weaken (x : spec_float) (a b : Z) : pos_le x a -> a <= b -> pos_le x b.
Proof.
  destruct x as [[]|[]| |[] m e]; cbn; auto. intros [He H] Hb. split; [lia|].
  apply Z.le_trans with (1 := H). apply pow2_le_mono. lia.
Qed.

(** One step of [shr_fexp] keeps a lower bound by a power of two that is
    not below the least positive float, and keeps the mantissa positive. *)
Lemma shr_fexp_ge (m e : Z) (l : location) (k : Z) :
  1 <= m -> -1074 <= k -> 2 ^ (k - e) <= m ->
  let '(mrs, e') := shr_fexp B64.prec B64.emax m e l in
  1 <= shr_m mrs /\ 2 ^ (k - e') <= shr_m mrs.
Proof.
  intros Hm Hk Hb. unfold shr_fexp.
  set (n := fexp B64.prec B64.emax (Zdigits2 m + e) - e).
  pose proof (shr_spec (shr_record_of_loc m l) e n) as H.
  rewrite shr_m_record_of_loc in H. specialize (H ltac:(lia)).
  destruct (shr (shr_record_of_loc m l) e n) as [mrs e']. cbn [fst snd] in H.
  destruct H as [Hm' He']. rewrite Hm', He'.
  destruct (Z_le_gt_dec n 0) as [Hn|Hn].
  - rewrite Z.max_r by lia. rewrite Z.pow_0_r, Z.div_1_r, Z.add_0_r. split; assumption.
  - rewrite Z.max_l by lia.
    assert (Hd : 2 ^ (Zdigits2 m - 1) <= m).
    { rewrite Zdigits2_log2 by lia. replace (Z.log2 m + 1 - 1) with (Z.log2 m) by lia.
      apply Z.log2_spec. lia. }
    assert (Hpn : 0 < 2 ^ n) by (apply Z.pow_pos_nonneg; lia).
    assert (Hcase : 2 ^ (k - (e + n)) <= m / 2 ^ n /\ 2 ^ 0 <= m / 2 ^ n).
    { assert (Hfe : n = Zdigits2 m - 53 \/ n = -1074 - e /\ Zdigits2 m - 53 <= n).
      { unfold n, fexp, emin, B64.prec, B64.emax. lia. }
      assert (Hlow : forall j, 0 <= j -> 2 ^ (j + n) <= m -> 2 ^ j <= m / 2 ^ n).
      { intros j Hj Hle. apply Z.div_le_lower_bound; [lia|].
        rewrite <- Z.pow_add_r by lia. rewrite Z.add_comm. exact Hle. }
      assert (H1 : 2 ^ 0 <= m / 2 ^ n).
      { apply Hlow; [lia|]. destruct Hfe as [->|[-> Hfe]].
        - apply Z.le_trans with (2 := Hd). apply pow2_le_mono. lia.
        - apply Z.le_trans with (2 := Hb). apply pow2_le_mono. lia. }
      split; [|exact H1].
      destruct (Z_lt_le_dec (k - (e + n)) 0) as [Hneg|Hpos].
      + rewrite (Z.pow_neg_r 2 _ Hneg). apply Z.div_pos; lia.
      + apply Hlow; [lia|]. replace (k - (e + n) + n) with (k - e) by lia. exact Hb. }
    rewrite Z.pow_0_r in Hcase. lia.
Qed.

(** Rounding keeps a lower bound by a power of two. *)
Lemma bra_ge (m e : Z) (l : location) (k : Z) :
  1 <= m -> -1074 <= k -> 2 ^ (k - e) <= m ->
  pos_ge (binary_round_aux B64.prec B64.emax false m e l) k.
Proof.
  intros Hm Hk Hb. unfold binary_round_aux.
  pose proof (shr_fexp_ge m e l k Hm Hk Hb) as H1.
  destruct (shr_fexp B64.prec B64.emax m e l) as [mrs' e'].
  destruct H1 as [Hm1 Hb1].
  pose proof (round_nearest_even_bounds (shr_m mrs') (loc_of_shr_record mrs')) as Hr.
  set (m1 := round_nearest_even (shr_m mrs') (loc_of_shr_record mrs')) in *.
  pose proof (shr_fexp_ge m1 e' loc_Exact k ltac:(lia) Hk ltac:(lia)) as H2.
  destruct (shr_fexp B64.prec B64.emax m1 e' loc_Exact) as [mrs'' e''].
  destruct H2 as [Hm2 Hb2].
  destruct (shr_m mrs'') as [|p|p]; try lia.
  destruct (e'' <=? B64.emax - B64.prec); cbn; [exact Hb2|exact I].
Qed.

Lemma shr_hi_record_of_loc (m : Z) (l : location) :
  shr_hi (shr_record_of_loc m l) = loc_hi m l.
Proof. destruct l as [|[]]; reflexivity. Qed.

(** Shifting right divides the upper integer by two, rounding up. *)
Lemma shr_1_hi (r : shr_record) (b : Z) :
  0 <= shr_m r -> shr_hi r <= 2 * b -> shr_hi (shr_1 r) <= b.
Proof.
  destruct r as [m [] []]; unfold shr_hi; cbn [shr_m shr_r shr_s orb]; intros Hm H;
    destruct m as [|[p|p|]|p]; cbn [shr_1 shr_m shr_r shr_s orb] in *; lia.
Qed.

Lemma iter_shr_1_hi (p : positive) :
  forall r b, 0 <= shr_m r -> shr_hi r <= 2 ^ Zpos p * b ->
              shr_hi (iter_pos shr_1 p r) <= b.
Proof.
  induction p as [p IH|p IH|]; intros r b Hr H; cbn [iter_pos].
  - apply IH; [apply iter_shr_1_m, shr_1_nonneg, Hr|].
    apply IH; [apply shr_1_nonneg, Hr|].
    apply shr_1_hi; [exact Hr|].
    replace (Z.pos p~1) with (Z.pos p + Z.pos p + 1) in H by lia.
    rewrite !Z.pow_add_r, Z.pow_1_r in H by lia. lia.
  - apply IH; [apply iter_shr_1_m, Hr|].
    apply IH; [exact Hr|].
    replace (Z.pos p~0) with (Z.pos p + Z.pos p) in H by lia.
    rewrite !Z.pow_add_r in H by lia. lia.
  - apply shr_1_hi; [exact Hr|]. exact H.
Qed.

Lemma shr_hi_spec (mrs : shr_record) (e n j : Z) :
  0 <= shr_m mrs -> 0 <= j -> shr_hi mrs <= 2 ^ (j + Z.max n 0) ->
  shr_hi (fst (shr mrs e n)) <= 2 ^ j.
Proof.
  intros Hm Hj H. destruct n as [|p|p]; cbn [shr fst].
  - rewrite Z.max_id, Z.add_0_r in H. exact H.
  - apply iter_shr_1_hi; [exact Hm|].
    rewrite Z.max_l in H by lia. rewrite Z.pow_add_r in H by lia. lia.
  - rewrite Z.max_r, Z.add_0_r in H by lia. exact H.
Qed.

Lemma shr_m_le_hi (r : shr_record) : shr_m r <= shr_hi r.
Proof. unfold shr_hi. destruct (shr_r r || shr_s r); lia. Qed.

Lemma round_nearest_even_le_hi (r : shr_record) :
  round_nearest_even (shr_m r) (loc_of_shr_record r) <= shr_hi r.
Proof.
  destruct r as [m [] []]; unfold shr_hi; cbn; try destruct (Z.even m); lia.
Qed.

Lemma shr_fexp_le (m e : Z) (l : location) (k : Z) :
  0 <= m -> -1074 <= k -> e <= k -> loc_hi m l <= 2 ^ (k - e) ->
  let '(mrs, e') := shr_fexp B64.prec B64.emax m e l in
  0 <= shr_m mrs /\ e' <= k /\ shr_hi mrs <= 2 ^ (k - e').
Proof.
  intros Hm Hk He Hb. unfold shr_fexp.
  set (n := fexp B64.prec B64.emax (Zdigits2 m + e) - e).
  assert (Hmle : m <= 2 ^ (k - e)) by (unfold loc_hi in Hb; destruct l; lia).
  assert (Hd : Zdigits2 m <= k - e + 1) by (apply Zdigits2_le_pow2; lia).
  assert (Hn : e + Z.max n 0 <= k).
  { unfold n, fexp, emin, B64.prec, B64.emax. lia. }
  pose proof (shr_spec (shr_record_of_loc m l) e n) as H.
  rewrite shr_m_record_of_loc in H. specialize (H Hm).
  pose proof (shr_hi_spec (shr_record_of_loc m l) e n (k - (e + Z.max n 0))) as H'.
  rewrite shr_m_record_of_loc, shr_hi_record_of_loc in H'.
  specialize (H' Hm ltac:(lia)).
  replace (k - (e + Z.max n 0) + Z.max n 0) with (k - e) in H' by lia.
  specialize (H' Hb).
  destruct (shr (shr_record_of_loc m l) e n) as [mrs e']. cbn [fst snd] in H, H'.
  destruct H as [Hm' He']. subst e'. split; [|split; [exact Hn|exact H']].
  rewrite Hm'. apply Z.div_pos; [lia|]. apply Z.pow_pos_nonneg; lia.
Qed.

(** Rounding keeps an upper bound by a power of two. *)
Lemma bra_le (m e : Z) (l : location) (k : Z) :
  0 <= m -> -1074 <= k <= 971 -> e <= k -> loc_hi m l <= 2 ^ (k - e) ->
  pos_le (binary_round_aux B64.prec B64.emax false m e l) k.
Proof.
  intros Hm Hk He Hb. unfold binary_round_aux.
  pose proof (shr_fexp_le m e l k Hm ltac:(lia) He Hb) as H1.
  destruct (shr_fexp B64.prec B64.emax m e l) as [mrs' e'].
  destruct H1 as [Hm1 [He1 Hb1]].
  pose proof (round_nearest_even_bounds (shr_m mrs') (loc_of_shr_record mrs')) as Hr.
  pose proof (round_nearest_even_le_hi mrs') as Hr'.
  set (m1 := round_nearest_even (shr_m mrs') (loc_of_shr_record mrs')) in *.
  pose proof (shr_fexp_le m1 e' loc_Exact k ltac:(lia) ltac:(lia) He1) as H2.
  unfold loc_hi in H2 at 1. specialize (H2 ltac:(lia)).
  destruct (shr_fexp B64.prec B64.emax m1 e' loc_Exact) as [mrs'' e''].
  destruct H2 as [Hm2 [He2 Hb2]].
  pose proof (shr_m_le_hi mrs'') as Hle.
  destruct (shr_m mrs'') as [|p|p]; try lia; [exact I|].
  replace (e'' <=? B64.emax - B64.prec) with true.
  2:{ symmetry. apply Z.leb_le. unfold B64.emax, B64.prec. lia. }
  cbn. split; lia.
Qed.

Lemma pow2_pos (a : Z) : 0 <= a -> 0 < 2 ^ a.
Proof. intros H. apply Z.pow_pos_nonneg; lia. Qed.

Lemma pow2_nonneg (a : Z) : 0 <= 2 ^ a.
Proof. apply Z.pow_nonneg. lia. Qed.

(** From [2^(a-e) <= m] with [m] positive: [2^j <= m * 2^i] whenever
    [j <= (a - e) + i], [0 <= i]. *)
Lemma pow2_le_scaled (m a i j : Z) :
  1 <= m -> 2 ^ a <= m -> 0 <= i -> j <= a + i -> 2 ^ j <= m * 2 ^ i.
Proof.
  intros Hm Ha Hi Hj.
  pose proof (pow2_pos i Hi) as Hpi.
  destruct (Z_lt_le_dec a 0) as [Hneg|Hpos].
  - apply Z.le_trans with (2 ^ i); [apply pow2_le_mono; lia|nia].
  - apply Z.le_trans with (2 ^ (a + i)); [apply pow2_le_mono; lia|].
    rewrite Z.pow_add_r by lia. nia.
Qed.

(** *** Products *)

Lemma SFmul_ge (x y : spec_float) (a b : Z) :
  pos_ge x a -> pos_ge y b -> -1074 <= a + b ->
  pos_ge (SFmul B64.prec B64.emax x y) (a + b).
Proof.
  destruct x as [[]|[]| |[] mx ex], y as [[]|[]| |[] my ey]; cbn [pos_ge SFmul xorb];
    try contradiction; try (intros; exact I).
  intros Hx Hy Hab. apply bra_ge; [lia|lia|].
  destruct (Z_lt_le_dec (a + b - (ex + ey)) 0) as [Hneg|Hpos].
  { rewrite Z.pow_neg_r by assumption. lia. }
  destruct (Z_lt_le_dec (a - ex) 0) as [Ha|Ha].
  - apply Z.le_trans with (2 ^ (b - ey)); [apply pow2_le_mono; lia|]. nia.
  - destruct (Z_lt_le_dec (b - ey) 0) as [Hb|Hb].
    + apply Z.le_trans with (2 ^ (a - ex)); [apply pow2_le_mono; lia|]. nia.
    + replace (a + b - (ex + ey)) with ((a - ex) + (b - ey)) by lia.
      rewrite Z.pow_add_r by lia.
      pose proof (pow2_nonneg (a - ex)). pose proof (pow2_nonneg (b - ey)). nia.
Qed.

Lemma SFmul_le (x y : spec_float) (a b : Z) :
  pos_le x a -> pos_le y b -> -1074 <= a + b <= 971 ->
  pos_le (SFmul B64.prec B64.emax x y) (a + b).
Proof.
  destruct x as [[]|[]| |[] mx ex], y as [[]|[]| |[] my ey]; cbn [pos_le SFmul xorb];
    try contradiction; try (intros; exact I).
  intros [Hex Hx] [Hey Hy] Hab. apply bra_le; [lia|lia|lia|].
  unfold loc_hi. rewrite Z.add_0_r.
  replace (a + b - (ex + ey)) with ((a - ex) + (b - ey)) by lia.
  rewrite Z.pow_add_r by lia.
  pose proof (pow2_nonneg (a - ex)). pose proof (pow2_nonneg (b - ey)). nia.
Qed.

(** *** Quotients *)

Lemma shiftl_match (m s : Z) :
  0 <= s ->
  match s with Z0 => m | Zpos _ => Z.shiftl m s | Zneg _ => 0 end = m * 2 ^ s.
Proof.
  intros Hs. destruct s as [|p|p]; try lia.
  apply Z.shiftl_mul_pow2. lia.
Qed.

Lemma SFdiv_core_spec (m1 m2 : positive) (e1 e2 : Z) :
  exists q r e',
    SFdiv_core_binary B64.prec B64.emax (Zpos m1) e1 (Zpos m2) e2
    = (q, e', new_location (Zpos m2) r) /\
    e' = Z.min (fexp B64.prec B64.emax
                  (Zdigits2 (Zpos m1) + e1 - (Zdigits2 (Zpos m2) + e2))) (e1 - e2) /\
    Zpos m1 * 2 ^ (e1 - e2 - e') = q * Zpos m2 + r /\ 0 <= r < Zpos m2.
Proof.
  unfold SFdiv_core_binary.
  change IntDef.Z.shiftl with Z.shiftl. change IntDef.Z.div_eucl with Z.div_eucl.
  set (e' := Z.min _ (e1 - e2)).
  rewrite (shiftl_match (Zpos m1) (e1 - e2 - e')) by (unfold e'; lia).
  pose proof (Z_div_mod (Zpos m1 * 2 ^ (e1 - e2 - e')) (Zpos m2) eq_refl) as H.
  destruct (Z.div_eucl (Zpos m1 * 2 ^ (e1 - e2 - e')) (Zpos m2)) as [q r].
  exists q, r, e'. repeat split; lia.
Qed.

Lemma new_location_hi (q n r : Z) :
  loc_hi q (new_location n r) <= q + (if r =? 0 then 0 else 1).
Proof.
  unfold loc_hi, new_location, new_location_even, new_location_odd.
  change IntDef.Z.eqb with Z.eqb. change IntDef.Z.even with Z.even.
  destruct (Z.even n); destruct (r =? 0); cbn; lia.
Qed.

Lemma Zdigits2_ge_pow2 (m : Z) : 1 <= m -> 2 ^ (Zdigits2 m - 1) <= m.
Proof.
  intros Hm. rewrite Zdigits2_log2 by lia.
  replace (Z.log2 m + 1 - 1) with (Z.log2 m) by lia. apply Z.log2_spec. lia.
Qed.

Lemma pow2_lt_inv (a b : Z) : 0 <= b -> 2 ^ a < 2 ^ b -> a < b.
Proof.
  intros Hb H. destruct (Z_lt_le_dec a b); [assumption|].
  pose proof (pow2_le_mono b a ltac:(lia)). lia.
Qed.

Lemma SFdiv_ge (x y : spec_float) (a b : Z) :
  pos_ge x a -> pos_le y b -> -1074 <= a - b ->
  pos_ge (SFdiv B64.prec B64.emax x y) (a - b).
Proof.
  destruct x as [[]|[]| |[] m1 e1], y as [[]|[]| |[] m2 e2]; cbn [pos_ge pos_le SFdiv xorb];
    try contradiction; try (intros; exact I).
  intros Hx [He2 Hy] Hk.
  destruct (SFdiv_core_spec m1 m2 e1 e2) as [q [r [e' [-> [He' [Hqr Hr]]]]]].
  set (s := e1 - e2 - e') in *.
  assert (Hs : 0 <= s) by (unfold s; lia).
  assert (HM : forall j, j <= a - e1 + s -> 2 ^ j <= Zpos m1 * 2 ^ s).
  { intros j Hj. apply pow2_le_scaled with (a := a - e1); lia. }
  assert (Hlow : forall j, 0 <= j -> j + (b - e2) <= a - e1 + s -> 2 ^ j <= q).
  { intros j Hj Hle.
    assert (2 ^ j * Zpos m2 <= Zpos m1 * 2 ^ s).
    { apply Z.le_trans with (2 ^ (j + (b - e2))); [|apply HM; lia].
      rewrite Z.pow_add_r by lia. pose proof (pow2_nonneg j). nia. }
    pose proof (pow2_pos j Hj). nia. }
  apply bra_ge; [|lia|].
  - destruct (Z_lt_le_dec (a - b) e') as [Hlt|Hge].
    + (* the quotient keeps 53 bits *)
      assert (Hfe : e' <= Zdigits2 (Zpos m1) + e1 - (Zdigits2 (Zpos m2) + e2) - 53).
      { unfold fexp, emin, B64.prec, B64.emax in He'. lia. }
      pose proof (Zdigits2_ge_pow2 (Zpos m1) ltac:(lia)) as Hd1.
      pose proof (Zdigits2_lt_pow2 (Zpos m2) ltac:(lia)) as Hd2.
      pose proof (Zdigits2_nonneg (Zpos m2)) as Hd2'.
      assert (2 ^ Zdigits2 (Zpos m2) <= Zpos m1 * 2 ^ s).
      { apply pow2_le_scaled with (a := Zdigits2 (Zpos m1) - 1); unfold s; lia. }
      nia.
    + rewrite <- (Z.pow_0_r 2). apply Hlow; unfold s; lia.
  - destruct (Z_lt_le_dec (a - b - e') 0) as [Hneg|Hpos].
    + rewrite Z.pow_neg_r by assumption.
      assert (0 <= Zpos m1 * 2 ^ s) by (pose proof (pow2_nonneg s); nia). nia.
    + apply Hlow; unfold s; lia.
Qed.

Lemma SFdiv_le (x y : spec_float) (a b : Z) :
  pos_le x a -> pos_ge y b -> -1074 <= a - b <= 971 ->
  pos_le (SFdiv B64.prec B64.emax x y) (a - b).
Proof.
  destruct x as [[]|[]| |[] m1 e1], y as [[]|[]| |[] m2 e2]; cbn [pos_ge pos_le SFdiv xorb];
    try contradiction; try (intros; exact I).
  intros [He1 Hx] Hy Hk.
  destruct (SFdiv_core_spec m1 m2 e1 e2) as [q [r [e' [-> [He' [Hqr Hr]]]]]].
  set (s := e1 - e2 - e') in *.
  assert (Hs : 0 <= s) by (unfold s; lia).
  pose proof (Zdigits2_le_pow2 (Zpos m1) (a - e1) ltac:(lia) ltac:(lia)) as Hd1.
  pose proof (Zdigits2_lt_pow2 (Zpos m2) ltac:(lia)) as Hd2.
  pose proof (Zdigits2_nonneg (Zpos m2)) as Hd2'.
  assert (Hd2b : b - e2 < Zdigits2 (Zpos m2)).
  { apply pow2_lt_inv; lia. }
  assert (Hek : e' <= a - b).
  { unfold fexp, emin, B64.prec, B64.emax in He'. lia. }
  assert (HM : Zpos m1 * 2 ^ s <= 2 ^ (a - b - e') * Zpos m2).
  { apply Z.le_trans with (2 ^ (a - e1 + s)).
    { rewrite Z.pow_add_r by lia. pose proof (pow2_pos s Hs). nia. }
    destruct (Z_lt_le_dec (b - e2) 0) as [Hneg|Hpos].
    - apply Z.le_trans with (2 ^ (a - b - e')); [apply pow2_le_mono; unfold s; lia|].
      pose proof (pow2_pos (a - b - e') ltac:(lia)). nia.
    - replace (a - e1 + s) with ((a - b - e') + (b - e2)) by (unfold s; lia).
      rewrite Z.pow_add_r by lia. pose proof (pow2_pos (a - b - e') ltac:(lia)). nia. }
  pose proof (pow2_pos (a - b - e') ltac:(lia)) as HP.
  assert (Hq0 : 0 <= q) by (pose proof (pow2_pos s Hs); nia).
  apply bra_le; [exact Hq0|lia|exact Hek|].
  apply Z.le_trans with (1 := new_location_hi q (Zpos m2) r).
  destruct (Z.eqb_spec r 0); nia.
Qed.

(** *** Square roots *)

Lemma SFsqrt_core_spec (m : positive) (e : Z) :
  exists q r e' l,
    SFsqrt_core_binary B64.prec B64.emax (Zpos m) e = (q, e', l) /\
    e' <= e / 2 /\
    Zpos m * 2 ^ (e - 2 * e') = q * q + r /\ 0 <= r <= 2 * q /\
    loc_hi q l <= q + (if r =? 0 then 0 else 1).
Proof.
  unfold SFsqrt_core_binary.
  change IntDef.Z.shiftl with Z.shiftl. change IntDef.Z.sqrtrem with Z.sqrtrem.
  change IntDef.Z.div2 with Z.div2. change IntDef.Z.eqb with Z.eqb.
  change IntDef.Z.leb with Z.leb. change IntDef.Z.min with Z.min.
  change IntDef.Z.sub with Z.sub. change IntDef.Z.mul with Z.mul.
  rewrite (Z.div2_div e).
  set (e' := Z.min _ (e / 2)).
  assert (He' : e' <= e / 2) by (unfold e'; lia).
  assert (Hs : 0 <= e - 2 * e') by (pose proof (Z.mul_div_le e 2 ltac:(lia)); lia).
  rewrite (shiftl_match (Zpos m) (e - 2 * e') Hs).
  assert (HM : 0 <= Zpos m * 2 ^ (e - 2 * e')) by (pose proof (pow2_nonneg (e - 2 * e')); nia).
  pose proof (Z.sqrtrem_spec _ HM) as H.
  destruct (Z.sqrtrem (Zpos m * 2 ^ (e - 2 * e'))) as [q r].
  exists q, r, e', (if r =? 0 then loc_Exact else loc_Inexact (if r <=? q then Lt else Gt)).
  repeat split; try lia.
  unfold loc_hi. destruct (r =? 0); lia.
Qed.

Lemma SFsqrt_ge (x : spec_float) (k : Z) :
  pos_ge x (2 * k) -> -1074 <= k -> pos_ge (SFsqrt B64.prec B64.emax x) k.
Proof.
  destruct x as [[]|[]| |[] m e]; cbn [pos_ge SFsqrt];
    try contradiction; try (intros; exact I).
  intros Hx Hk.
  destruct (SFsqrt_core_spec m e) as [q [r [e' [l [-> [He' [Hqr [Hr Hl]]]]]]]].
  pose proof (Z.mul_div_le e 2 ltac:(lia)) as He2.
  set (s := e - 2 * e') in *.
  assert (Hs : 0 <= s) by (unfold s; lia).
  pose proof (pow2_pos s Hs) as Hps.
  apply bra_ge; [nia|lia|].
  destruct (Z_lt_le_dec (k - e') 0) as [Hneg|Hpos].
  { rewrite Z.pow_neg_r by assumption. lia. }
  assert (HP : 2 ^ (k - e') * 2 ^ (k - e') <= Zpos m * 2 ^ s).
  { rewrite <- Z.pow_add_r by lia.
    apply pow2_le_scaled with (a := 2 * k - e); unfold s; lia. }
  pose proof (pow2_pos (k - e') Hpos). nia.
Qed.

Lemma SFsqrt_le (x : spec_float) (k : Z) :
  pos_le x (2 * k) -> -1074 <= k <= 971 -> pos_le (SFsqrt B64.prec B64.emax x) k.
Proof.
  destruct x as [[]|[]| |[] m e]; cbn [pos_le SFsqrt];
    try contradiction; try (intros; exact I).
  intros [He Hx] Hk.
  destruct (SFsqrt_core_spec m e) as [q [r [e' [l [-> [He' [Hqr [Hr Hl]]]]]]]].
  pose proof (Z.mul_div_le e 2 ltac:(lia)) as He2.
  assert (Hek : e' <= k).
  { apply Z.le_trans with (1 := He'). apply Z.div_le_upper_bound; lia. }
  set (s := e - 2 * e') in *.
  assert (Hs : 0 <= s) by (unfold s; lia).
  pose proof (pow2_pos s Hs) as Hps.
  assert (HP : Zpos m * 2 ^ s <= 2 ^ (k - e') * 2 ^ (k - e')).
  { rewrite <- Z.pow_add_r by lia.
    replace (k - e' + (k - e')) with ((2 * k - e) + s) by (unfold s; lia).
    rewrite Z.pow_add_r by lia. nia. }
  pose proof (pow2_pos (k - e') ltac:(lia)) as Hpk.
  apply bra_le; [lia|lia|exact Hek|].
  apply Z.le_trans with (1 := Hl).
  destruct (Z.eqb_spec r 0); nia.
Qed.

(** *** Sums and converted ints *)

Lemma iter_xO_pow2 (m d : positive) : Zpos (Pos.iter xO m d) = Zpos m * 2 ^ Zpos d.
Proof.
  induction d as [|d IH] using Pos.peano_ind.
  - cbn. lia.
  - rewrite Pos.iter_succ, Pos2Z.inj_xO, IH, Pos2Z.inj_succ, Z.pow_succ_r by lia. lia.
Qed.

Lemma shl_align_spec (m : positive) (e e' : Z) :
  snd (shl_align m e e') <= e /\
  Zpos (fst (shl_align m e e')) = Zpos m * 2 ^ (e - snd (shl_align m e e')).
Proof.
  unfold shl_align. change IntDef.Z.sub with Z.sub.
  destruct (e' - e) as [|d|d] eqn:E; cbn [fst snd].
  - rewrite Z.sub_diag. change (2 ^ 0) with 1. lia.
  - rewrite Z.sub_diag. change (2 ^ 0) with 1. lia.
  - split; [lia|]. rewrite iter_xO_pow2. f_equal. f_equal. lia.
Qed.

Lemma binary_round_ge (m : positive) (e k : Z) :
  -1074 <= k -> 2 ^ (k - e) <= Zpos m ->
  pos_ge (binary_round B64.prec B64.emax false m e) k.
Proof.
  intros Hk Hm. unfold binary_round.
  pose proof (shl_align_spec m e
                (fexp B64.prec B64.emax (Zpos (digits2_pos m) + e))) as H.
  destruct (shl_align m e _) as [mz ez]. cbn [fst snd] in H. destruct H as [He Hmz].
  apply bra_ge; [lia|exact Hk|]. rewrite Hmz.
  apply pow2_le_scaled with (a := k - e); lia.
Qed.

Lemma SFadd_ge (x y : spec_float) (a b : Z) :
  pos_ge x a -> pos_ge y b -> -1074 <= a ->
  pos_ge (SFadd B64.prec B64.emax x y) a.
Proof.
  destruct x as [[]|[]| |[] mx ex], y as [[]|[]| |[] my ey]; cbn [pos_ge SFadd];
    try contradiction; try (intros; exact I).
  intros Hx _ Ha. cbn [cond_Zopp].
  pose proof (shl_align_spec mx ex (Z.min ex ey)) as H1.
  pose proof (shl_align_spec my ey (Z.min ex ey)) as H2.
  assert (E1 : snd (shl_align mx ex (Z.min ex ey)) = Z.min ex ey).
  { unfold shl_align. change IntDef.Z.sub with Z.sub.
    destruct (Z.min ex ey - ex) eqn:E; cbn [snd]; lia. }
  destruct (shl_align mx ex (Z.min ex ey)) as [mx' ex'].
  destruct (shl_align my ey (Z.min ex ey)) as [my' ey'].
  cbn [fst snd] in *. subst ex'. destruct H1 as [_ H1].
  change (Z.pos mx' + Z.pos my') with (Zpos (mx' + my')).
  cbn [binary_normalize]. apply binary_round_ge; [exact Ha|].
  rewrite Pos2Z.inj_add, H1.
  apply Z.le_trans with (Zpos mx * 2 ^ (ex - Z.min ex ey)); [|lia].
  apply pow2_le_scaled with (a := a - ex); lia.
Qed.

Lemma SFadd_zero_r (x : spec_float) (k : Z) :
  pos_ge x k -> SFadd B64.prec B64.emax x (S754_zero false) = x.
Proof. destruct x as [[]|[]| |[] mx ex]; cbn; try contradiction; reflexivity. Qed.

(** An int that is not negative converts to [+0.0] or to a positive
    float. *)
Lemma int_to_float_nonneg (t : Z) (ft : spec_float) :
  0 <= t -> B64.int_to_float t = Ok ft ->
  ft = S754_zero false \/ pos_ge ft (-1074).
Proof.
  intros Ht. unfold B64.int_to_float.
  destruct t as [|p|p]; try lia; cbn [binary_normalize].
  - cbn. intros [= <-]. left. reflexivity.
  - destruct (B64.is_inf _); [discriminate|]. intros [= <-]. right.
    apply binary_round_ge; [lia|]. change (2 ^ (-1074 - 0)) with 0. lia.
Qed.

(** *** The numbers of the schedulers *)

Lemma pos_ge_one : pos_ge B64.one 0.
Proof. cbn. lia. Qed.

Lemma pos_le_one : pos_le B64.one 0.
Proof. cbn. lia. Qed.

Lemma pos_ge_nonzero (x : spec_float) (k : Z) :
  pos_ge x k -> SFeqb x B64.zero = false.
Proof. destruct x as [[]|[]| |[] mx ex]; cbn; try contradiction; reflexivity. Qed.

Lemma pos_le_not_nan (x : spec_float) (k : Z) : pos_le x k -> B64.is_nan x = false.
Proof. destruct x as [[]|[]| |[] mx ex]; cbn; try contradiction; reflexivity. Qed.

(** A valid positive float lies between two consecutive powers of two. *)
Lemma valid_pos_bounds (m : positive) (e : Z) :
  B64.valid (S754_finite false m e) = true ->
  let j := Zdigits2 (Zpos m) + e - 1 in
  -1074 <= j <= 1023 /\
  pos_ge (S754_finite false m e) j /\ pos_le (S754_finite false m e) (j + 1).
Proof.
  intros Hv j. unfold B64.valid, valid_binary, bounded, canonical_mantissa in Hv.
  apply andb_true_iff in Hv. destruct Hv as [Hc He].
  apply Z.eqb_eq in Hc. apply Z.leb_le in He.
  change (Z.pos (digits2_pos m)) with (Zdigits2 (Zpos m)) in Hc.
  pose proof (Zdigits2_ge_pow2 (Zpos m) ltac:(lia)) as Hd1.
  pose proof (Zdigits2_lt_pow2 (Zpos m) ltac:(lia)) as Hd2.
  assert (Hd : 1 <= Zdigits2 (Zpos m)) by (rewrite Zdigits2_log2 by lia; pose proof (Z.log2_nonneg (Zpos m)); lia).
  unfold fexp, emin, B64.prec, B64.emax in *.
  split; [unfold j; lia|]. cbn [pos_ge pos_le]. unfold j.
  replace (Zdigits2 (Z.pos m) + e - 1 - e) with (Zdigits2 (Zpos m) - 1) by lia.
  replace (Zdigits2 (Z.pos m) + e - 1 + 1 - e) with (Zdigits2 (Zpos m)) by lia.
  repeat split; lia.
Qed.

Lemma SFcompare_finite_pos (m1 m2 : positive) (e1 e2 : Z) :
  SFcompare (S754_finite false m1 e1) (S754_finite false m2 e2)
  = Some match e1 ?= e2 with
         | Lt => Lt
         | Gt => Gt
         | Eq => Pos.compare m1 m2
         end.
Proof. reflexivity. Qed.

(** The clamp [max(1.0, g)] is at least one for every float [g]. *)
Lemma max_one_ge (g : spec_float) :
  B64.valid g = true -> pos_ge (@max B64.arith B64.one g) 0.
Proof.
  intros Hv. unfold max. cbn [f_lt B64.arith]. unfold SFltb.
  destruct (SFcompare B64.one g) as [[]|] eqn:E; try apply pos_ge_one.
  destruct g as [[]|[]| |[] m e]; try discriminate E; try exact I.
  cbn [pos_ge]. unfold B64.one in E. rewrite SFcompare_finite_pos in E.
  unfold B64.valid, valid_binary, bounded, canonical_mantissa in Hv.
  apply andb_true_iff in Hv. destruct Hv as [Hc He].
  apply Z.eqb_eq in Hc. apply Z.leb_le in He.
  change (Z.pos (digits2_pos m)) with (Zdigits2 (Zpos m)) in Hc.
  pose proof (Zdigits2_ge_pow2 (Zpos m) ltac:(lia)) as Hd1.
  unfold fexp, emin, B64.prec, B64.emax in *.
  revert E. destruct (Z.compare_spec (-52) e) as [Heq|Hlt|Hgt]; intros E;
    try discriminate E.
  - subst e. injection E as E. apply (proj1 (Pos.compare_lt_iff _ _)) in E.
    change (2 ^ (0 - -52)) with 4503599627370496. lia.
  - destruct (Z_lt_le_dec 0 e) as [Hpos|Hneg].
    + rewrite Z.pow_neg_r by lia. lia.
    + apply Z.le_trans with (2 := Hd1). apply pow2_le_mono. lia.
Qed.

(** *** Steps that returned *)

Lemma bind_Ok_inv {A B : Type} (m : result A) (k : A -> result B) (b : B) :
  bind m k = Ok b -> exists a, m = Ok a /\ k a = Ok b.
Proof. destruct m as [a|e]; cbn; [eauto|discriminate]. Qed.

Lemma B64_div_Ok_inv (x y r : spec_float) :
  B64.div x y = Ok r -> SFeqb y B64.zero = false /\ r = SFdiv B64.prec B64.emax x y.
Proof.
  unfold B64.div. destruct (SFeqb y B64.zero); [discriminate|].
  intros [= <-]. split; reflexivity.
Qed.

Lemma B64_div_Ok (x y : spec_float) :
  SFeqb y B64.zero = false -> B64.div x y = Ok (SFdiv B64.prec B64.emax x y).
Proof. intros H. unfold B64.div. rewrite H. reflexivity. Qed.

Lemma B64_sqrt_Ok_inv (x r : spec_float) :
  B64.sqrt x = Ok r -> B64.is_nan x = false -> r = SFsqrt B64.prec B64.emax x.
Proof.
  unfold B64.sqrt. intros H Hx. rewrite Hx in H.
  destruct (B64.is_nan _); [discriminate|]. injection H as <-. reflexivity.
Qed.

(** The mantissa and the exponent of a finite rounded result. *)
Lemma bra_finite_bound (s s' : bool) (m e : Z) (l : location) (m' : positive) (e' : Z) :
  0 <= m ->
  binary_round_aux B64.prec B64.emax s m e l = S754_finite s' m' e' ->
  e' <= 971 /\ Zpos m' < 2 ^ 53.
Proof.
  intros Hm. unfold binary_round_aux.
  destruct (shr_fexp B64.prec B64.emax m e l) as [mrs1 e1] eqn:E1.
  pose proof (round_nearest_even_bounds (shr_m mrs1) (loc_of_shr_record mrs1)) as Hr.
  set (m1 := round_nearest_even (shr_m mrs1) (loc_of_shr_record mrs1)) in *.
  assert (Hm1 : 0 <= m1).
  { unfold shr_fexp in E1.
    pose proof (shr_spec (shr_record_of_loc m l) e
                  (fexp B64.prec B64.emax (Zdigits2 m + e) - e)) as H.
    rewrite shr_m_record_of_loc in H. specialize (H Hm). rewrite E1 in H.
    cbn [fst snd] in H. destruct H as [H _].
    assert (0 <= shr_m mrs1); [|lia].
    rewrite H. apply Z.div_pos; [lia|]. apply pow2_pos. lia. }
  unfold shr_fexp.
  set (n := fexp B64.prec B64.emax (Zdigits2 m1 + e1) - e1).
  pose proof (shr_spec (shr_record_of_loc m1 loc_Exact) e1 n) as H.
  rewrite shr_m_record_of_loc in H. specialize (H Hm1).
  destruct (shr (shr_record_of_loc m1 loc_Exact) e1 n) as [mrs2 e2].
  cbn [fst snd] in H. destruct H as [H2 He2].
  destruct (shr_m mrs2) as [|p|p] eqn:Ep; try discriminate.
  destruct (Z.leb_spec e2 (B64.emax - B64.prec)) as [Hle|Hgt]; [|discriminate].
  intros [= _ <- <-]. split; [unfold B64.emax, B64.prec in Hle; lia|].
  rewrite H2.
  pose proof (Zdigits2_lt_pow2 m1 Hm1) as Hd.
  pose proof (Zdigits2_nonneg m1) as Hd0.
  pose proof (div_pow2_lt m1 (Zdigits2 m1) (Z.max n 0) ltac:(lia) Hd0 ltac:(lia)) as Hlt.
  apply Z.lt_le_trans with (1 := Hlt). apply pow2_le_mono.
  unfold n, fexp, emin, B64.prec, B64.emax. lia.
Qed.

Lemma SFmul_finite_le (x y : spec_float) (m : positive) (e : Z) :
  SFmul B64.prec B64.emax x y = S754_finite false m e ->
  pos_le (S754_finite false m e) 1024.
Proof.
  destruct x as [sx|sx| |sx mx ex], y as [sy|sy| |sy my ey]; cbn [SFmul]; try discriminate.
  intros H. apply bra_finite_bound in H; [|lia]. destruct H as [He Hm].
  cbn [pos_le]. split; [lia|].
  apply Z.le_trans with (2 ^ 53); [lia|]. apply pow2_le_mono. lia.
Qed.

Lemma pos_ge_gt_zero (x : spec_float) (k : Z) : pos_ge x k -> SFltb B64.zero x = true.
Proof. destruct x as [[]|[]| |[] mx ex]; cbn; try contradiction; reflexivity. Qed.

Lemma pos_le_ge_zero (x : spec_float) (k : Z) :
  pos_le x k -> SFleb B64.zero x = true /\ B64.is_finite x = true.
Proof. destruct x as [[]|[]| |[] mx ex]; cbn; try contradiction; split; reflexivity. Qed.

(** *** Rounded results are valid floats, and rounding is monotone *)

Lemma fexp_mono (x y : Z) :
  x <= y -> fexp B64.prec B64.emax x <= fexp B64.prec B64.emax y.
Proof. unfold fexp, emin, B64.prec, B64.emax. lia. Qed.

Lemma Zdigits2_mono (m n : Z) : 0 <= m <= n -> Zdigits2 m <= Zdigits2 n.
Proof.
  intros [H0 H]. destruct (Z.eq_dec m 0) as [->|Hm].
  - cbn. apply Zdigits2_nonneg.
  - rewrite !Zdigits2_log2 by lia. pose proof (Z.log2_le_mono m n H). lia.
Qed.

Lemma Zdigits2_pos (m : Z) : 0 < m -> 1 <= Zdigits2 m.
Proof.
  intros H. rewrite Zdigits2_log2 by lia. pose proof (Z.log2_nonneg m). lia.
Qed.

Lemma Zdigits2_div_pow2 (m n : Z) :
  0 <= n -> 0 < m / 2 ^ n -> Zdigits2 (m / 2 ^ n) = Zdigits2 m - n.
Proof.
  intros Hn Hq.
  assert (Hm : 0 < m).
  { destruct (Z_lt_le_dec 0 m); [assumption|].
    pose proof (pow2_pos n Hn).
    assert (m / 2 ^ n <= 0) by (apply Z.div_le_upper_bound; lia). lia. }
  rewrite !Zdigits2_log2 by lia.
  rewrite <- Z.shiftr_div_pow2 by lia.
  rewrite Z.log2_shiftr by lia.
  assert (n <= Z.log2 m).
  { apply Z.log2_le_pow2; [lia|].
    pose proof (pow2_pos n Hn).
    destruct (Z_lt_le_dec m (2 ^ n)); [|assumption].
    rewrite Z.div_small in Hq by lia. lia. }
  lia.
Qed.

Lemma Zdigits2_ge (m k : Z) : 0 <= k -> 2 ^ k <= m -> k + 1 <= Zdigits2 m.
Proof.
  intros Hk H. pose proof (pow2_pos k Hk).
  rewrite Zdigits2_log2 by lia.
  pose proof (Z.log2_le_mono _ _ H) as Hl. rewrite Z.log2_pow2 in Hl by lia. lia.
Qed.

(** A rounded result is in canonical form when the exponent of the
    unrounded number is not above the canonical one. *)
Lemma bra_canonical (s s' : bool) (m e : Z) (l : location) (m' : positive) (e' : Z) :
  0 <= m -> e <= fexp B64.prec B64.emax (Zdigits2 m + e) ->
  binary_round_aux B64.prec B64.emax s m e l = S754_finite s' m' e' ->
  B64.valid (S754_finite s' m' e') = true.
Proof.
  intros Hm He. unfold binary_round_aux, shr_fexp.
  set (n1 := fexp B64.prec B64.emax (Zdigits2 m + e) - e).
  assert (Hn1 : 0 <= n1) by (unfold n1; lia).
  pose proof (shr_spec (shr_record_of_loc m l) e n1) as H1.
  rewrite shr_m_record_of_loc in H1. specialize (H1 Hm).
  destruct (shr (shr_record_of_loc m l) e n1) as [mrs1 e1].
  cbn [fst snd] in H1. destruct H1 as [Hm1' He1]. rewrite Z.max_l in * by lia.
  pose proof (round_nearest_even_bounds (shr_m mrs1) (loc_of_shr_record mrs1)) as Hr.
  set (m1 := round_nearest_even (shr_m mrs1) (loc_of_shr_record mrs1)) in *.
  assert (Hm1'0 : 0 <= shr_m mrs1).
  { rewrite Hm1'. apply Z.div_pos; [lia|]. apply pow2_pos. lia. }
  assert (Hcan1 : e1 <= fexp B64.prec B64.emax (Zdigits2 m1 + e1)).
  { destruct (Z.eq_dec e1 (-1074)) as [->|Hne].
    - unfold fexp, emin, B64.prec, B64.emax. lia.
    - assert (Hn1' : n1 = Zdigits2 m - 53).
      { unfold n1, fexp, emin, B64.prec, B64.emax in *. lia. }
      assert (Hmpos : 0 < m).
      { destruct (Z.eq_dec m 0) as [->|]; [cbn in Hn1'; lia|lia]. }
      pose proof (Zdigits2_ge_pow2 m ltac:(lia)) as Hd.
      assert (Hq : 2 ^ 52 <= shr_m mrs1).
      { rewrite Hm1'. apply Z.div_le_lower_bound; [apply pow2_pos; lia|].
        rewrite <- Z.pow_add_r by lia.
        apply Z.le_trans with (2 := Hd). apply pow2_le_mono. lia. }
      pose proof (Zdigits2_ge m1 52 ltac:(lia) ltac:(lia)) as Hd1.
      apply Z.le_trans with (fexp B64.prec B64.emax (Zdigits2 m + e)); [lia|].
      apply fexp_mono. lia. }
  set (n2 := fexp B64.prec B64.emax (Zdigits2 m1 + e1) - e1).
  assert (Hn2 : 0 <= n2) by (unfold n2; lia).
  pose proof (shr_spec (shr_record_of_loc m1 loc_Exact) e1 n2) as H2.
  rewrite shr_m_record_of_loc in H2. specialize (H2 ltac:(lia)).
  destruct (shr (shr_record_of_loc m1 loc_Exact) e1 n2) as [mrs2 e2].
  cbn [fst snd] in H2. destruct H2 as [Hm2 He2]. rewrite Z.max_l in * by lia.
  destruct (shr_m mrs2) as [|p|p] eqn:Ep; try discriminate.
  destruct (Z.leb_spec e2 (B64.emax - B64.prec)) as [Hle|Hgt]; [|discriminate].
  intros [= _ <- <-].
  unfold B64.valid, valid_binary, bounded, canonical_mantissa.
  apply andb_true_iff. split; [|apply Z.leb_le; exact Hle].
  apply Z.eqb_eq.
  change (Z.pos (digits2_pos p)) with (Zdigits2 (Zpos p)).
  rewrite Hm2. rewrite Zdigits2_div_pow2 by lia.
  replace (Zdigits2 m1 - n2 + e2) with (Zdigits2 m1 + e1) by lia.
  unfold n2 in He2. lia.
Qed.

Lemma SFsqrt_core_canonical (m : positive) (e : Z) :
  let '(q, e', _) := SFsqrt_core_binary B64.prec B64.emax (Zpos m) e in
  0 <= q /\ e' <= fexp B64.prec B64.emax (Zdigits2 q + e').
Proof.
  unfold SFsqrt_core_binary.
  change IntDef.Z.shiftl with Z.shiftl. change IntDef.Z.sqrtrem with Z.sqrtrem.
  change IntDef.Z.div2 with Z.div2. change IntDef.Z.eqb with Z.eqb.
  change IntDef.Z.leb with Z.leb. change IntDef.Z.min with Z.min.
  change IntDef.Z.sub with Z.sub. change IntDef.Z.mul with Z.mul.
  change IntDef.Z.add with Z.add.
  rewrite !Z.div2_div.
  set (d := Zdigits2 (Zpos m)).
  set (e' := Z.min _ (e / 2)).
  assert (He' : e' <= e / 2) by (unfold e'; lia).
  assert (He'' : e' <= fexp B64.prec B64.emax ((d + e + 1) / 2)) by (unfold e'; lia).
  assert (Hs : 0 <= e - 2 * e') by (pose proof (Z.mul_div_le e 2 ltac:(lia)); lia).
  rewrite (shiftl_match (Zpos m) (e - 2 * e') Hs).
  set (s := e - 2 * e') in *.
  pose proof (pow2_pos s Hs) as Hps.
  assert (HM : 0 <= Zpos m * 2 ^ s) by nia.
  pose proof (Z.sqrtrem_spec _ HM) as H.
  destruct (Z.sqrtrem (Zpos m * 2 ^ s)) as [q r]. destruct H as [Hqr Hr].
  split; [nia|].
  apply Z.le_trans with (1 := He''). apply fexp_mono.
  pose proof (Zdigits2_ge_pow2 (Zpos m) ltac:(lia)) as Hd. fold d in Hd.
  pose proof (Zdigits2_pos (Zpos m) ltac:(lia)) as Hd1. fold d in Hd1.
  (* K = (d + s + 1) / 2 digits at least *)
  set (K := (d + s + 1) / 2).
  assert (HK : 2 * K <= d + s + 1 /\ 1 <= K).
  { unfold K. pose proof (Z.mul_div_le (d + s + 1) 2 ltac:(lia)).
    assert (1 <= (d + s + 1) / 2) by (apply Z.div_le_lower_bound; lia). lia. }
  assert (HqK : 2 ^ (K - 1) <= q).
  { assert (HP : 2 ^ (K - 1) * 2 ^ (K - 1) <= Zpos m * 2 ^ s).
    { rewrite <- Z.pow_add_r by lia.
      apply pow2_le_scaled with (a := d - 1); lia. }
    pose proof (pow2_pos (K - 1) ltac:(lia)). nia. }
  pose proof (Zdigits2_ge q (K - 1) ltac:(lia) HqK) as Hdq.
  assert (HKe : K + e' = (d + e + 1) / 2).
  { unfold K, s. replace (d + (e - 2 * e') + 1) with (d + e + 1 + (- e') * 2) by lia.
    rewrite Z.div_add by lia. lia. }
  lia.
Qed.

Lemma SFsqrt_valid (x : spec_float) (m : positive) (e : Z) :
  SFsqrt B64.prec B64.emax x = S754_finite false m e ->
  B64.is_finite x = true ->
  B64.valid (S754_finite false m e) = true.
Proof.
  destruct x as [[]|[]| |[] mx ex]; cbn [SFsqrt]; try discriminate.
  intros H _.
  pose proof (SFsqrt_core_canonical mx ex) as Hc.
  destruct (SFsqrt_core_binary B64.prec B64.emax (Zpos mx) ex) as [[q e'] l].
  destruct Hc as [Hq He'].
  apply (bra_canonical false false q e' l m e Hq He' H).
Qed.

Lemma shr_hi_gen (mrs : shr_record) (e n b : Z) :
  0 <= shr_m mrs -> shr_hi mrs <= 2 ^ Z.max n 0 * b ->
  shr_hi (fst (shr mrs e n)) <= b.
Proof.
  intros Hm H. destruct n as [|p|p]; cbn [shr fst].
  - rewrite Z.max_id in H. change (2 ^ 0) with 1 in H. lia.
  - apply iter_shr_1_hi; [exact Hm|]. rewrite Z.max_l in H by lia. exact H.
  - rewrite Z.max_r in H by lia. change (2 ^ 0) with 1 in H. lia.
Qed.

Lemma shr_fexp_le_float (m e : Z) (l : location) (mb : positive) (eb : Z) :
  0 <= m -> eb = fexp B64.prec B64.emax (Zdigits2 (Zpos mb) + eb) ->
  e <= eb -> loc_hi m l <= Zpos mb * 2 ^ (eb - e) ->
  let '(mrs, e') := shr_fexp B64.prec B64.emax m e l in
  0 <= shr_m mrs /\ e' <= eb /\ shr_hi mrs <= Zpos mb * 2 ^ (eb - e').
Proof.
  intros Hm Hc He Hb. unfold shr_fexp.
  set (n := fexp B64.prec B64.emax (Zdigits2 m + e) - e).
  assert (Hmle : m <= Zpos mb * 2 ^ (eb - e)) by (unfold loc_hi in Hb; destruct l; lia).
  assert (Hd : Zdigits2 m <= Zdigits2 (Zpos mb) + (eb - e)).
  { rewrite <- Zdigits2_mul_pow2 by lia. apply Zdigits2_mono. lia. }
  assert (Hn : e + Z.max n 0 <= eb).
  { pose proof (fexp_mono (Zdigits2 m + e) (Zdigits2 (Zpos mb) + eb) ltac:(lia)).
    unfold n. lia. }
  pose proof (shr_spec (shr_record_of_loc m l) e n) as H.
  rewrite shr_m_record_of_loc in H. specialize (H Hm).
  pose proof (shr_hi_gen (shr_record_of_loc m l) e n
                (Zpos mb * 2 ^ (eb - (e + Z.max n 0)))) as H'.
  rewrite shr_m_record_of_loc, shr_hi_record_of_loc in H'.
  specialize (H' Hm).
  assert (Hpow : 2 ^ Z.max n 0 * (Zpos mb * 2 ^ (eb - (e + Z.max n 0)))
                 = Zpos mb * 2 ^ (eb - e)).
  { replace (eb - e) with (Z.max n 0 + (eb - (e + Z.max n 0))) by lia.
    rewrite Z.pow_add_r by lia. lia. }
  rewrite Hpow in H'. specialize (H' Hb).
  destruct (shr (shr_record_of_loc m l) e n) as [mrs e']. cbn [fst snd] in H, H'.
  destruct H as [Hm' He']. subst e'. split; [|split; [exact Hn|exact H']].
  rewrite Hm'. apply Z.div_pos; [lia|]. apply Z.pow_pos_nonneg; lia.
Qed.

(** Rounding is monotone below a float: what is at most a valid float
    rounds to at most that float. *)
Lemma bra_le_float (m e : Z) (l : location) (mb : positive) (eb : Z) :
  0 <= m -> B64.valid (S754_finite false mb eb) = true ->
  e <= eb -> loc_hi m l <= Zpos mb * 2 ^ (eb - e) ->
  SFleb (binary_round_aux B64.prec B64.emax false m e l) (S754_finite false mb eb) = true.
Proof.
  intros Hm Hv He Hb.
  unfold B64.valid, valid_binary, bounded, canonical_mantissa in Hv.
  apply andb_true_iff in Hv. destruct Hv as [Hc Heb].
  apply Z.eqb_eq in Hc. apply Z.leb_le in Heb.
  change (Z.pos (digits2_pos mb)) with (Zdigits2 (Zpos mb)) in Hc. symmetry in Hc.
  unfold binary_round_aux.
  pose proof (shr_fexp_le_float m e l mb eb Hm Hc He Hb) as H1.
  destruct (shr_fexp B64.prec B64.emax m e l) as [mrs' e'].
  destruct H1 as [Hm1 [He1 Hb1]].
  pose proof (round_nearest_even_bounds (shr_m mrs') (loc_of_shr_record mrs')) as Hr.
  pose proof (round_nearest_even_le_hi mrs') as Hr'.
  set (m1 := round_nearest_even (shr_m mrs') (loc_of_shr_record mrs')) in *.
  pose proof (shr_fexp_le_float m1 e' loc_Exact mb eb ltac:(lia) Hc He1) as H2.
  unfold loc_hi in H2 at 1. specialize (H2 ltac:(lia)).
  destruct (shr_fexp B64.prec B64.emax m1 e' loc_Exact) as [mrs'' e''].
  destruct H2 as [Hm2 [He2 Hb2]].
  pose proof (shr_m_le_hi mrs'') as Hle.
  destruct (shr_m mrs'') as [|p|p]; try lia; [reflexivity|].
  replace (e'' <=? B64.emax - B64.prec) with true.
  2:{ symmetry. apply Z.leb_le. lia. }
  unfold SFleb. rewrite SFcompare_finite_pos.
  destruct (Z.compare_spec e'' eb) as [Heq|Hlt|Hgt]; try reflexivity; [|lia].
  subst e''. rewrite Z.sub_diag in Hb2. change (2 ^ 0) with 1 in Hb2.
  destruct (Pos.compare_spec p mb); try reflexivity. lia.
Qed.

(** Dividing a positive float by a float that is at least one does not
    increase it. *)
Lemma SFdiv_le_self (m : positive) (e : Z) (y : spec_float) :
  B64.valid (S754_finite false m e) = true -> pos_ge y 0 ->
  SFleb (SFdiv B64.prec B64.emax (S754_finite false m e) y) (S754_finite false m e) = true.
Proof.
  intros Hv Hy. destruct y as [[]|[]| |[] my ey]; cbn [pos_ge] in Hy; try contradiction.
  { reflexivity. }
  cbn [SFdiv xorb].
  destruct (SFdiv_core_spec m my e ey) as [q [r [e' [-> [He' [Hqr Hr]]]]]].
  pose proof Hv as Hv'.
  unfold B64.valid, valid_binary, bounded, canonical_mantissa in Hv'.
  apply andb_true_iff in Hv'. destruct Hv' as [Hc _]. apply Z.eqb_eq in Hc.
  change (Z.pos (digits2_pos m)) with (Zdigits2 (Zpos m)) in Hc.
  pose proof (Zdigits2_lt_pow2 (Zpos my) ltac:(lia)) as Hdy.
  pose proof (Zdigits2_pos (Zpos my) ltac:(lia)) as Hdy1.
  assert (Hdy2 : 0 - ey < Zdigits2 (Zpos my)) by (apply pow2_lt_inv; lia).
  assert (Hee : e' <= e).
  { pose proof (fexp_mono (Zdigits2 (Zpos m) + e - (Zdigits2 (Zpos my) + ey))
                  (Zdigits2 (Zpos m) + e) ltac:(lia)). lia. }
  set (s := e - ey - e') in *.
  assert (Hs : 0 <= s) by (unfold s; lia).
  pose proof (pow2_pos s Hs) as Hps.
  pose proof (pow2_pos (e - e') ltac:(lia)) as Hpe.
  assert (HM : Zpos m * 2 ^ s <= Zpos my * (Zpos m * 2 ^ (e - e'))).
  { destruct (Z_lt_le_dec 0 ey) as [Hpos|Hneg].
    - assert (2 ^ s <= 2 ^ (e - e')) by (apply pow2_le_mono; unfold s; lia).
      apply Z.le_trans with (Zpos m * 2 ^ (e - e')); [apply Z.mul_le_mono_nonneg_l; lia|].
      assert (0 <= Zpos m * 2 ^ (e - e')) by lia. nia.
    - replace s with ((0 - ey) + (e - e')) by (unfold s; lia).
      rewrite Z.pow_add_r by lia.
      assert (0 <= Zpos m * 2 ^ (e - e')) by lia.
      replace (Zpos m * (2 ^ (0 - ey) * 2 ^ (e - e')))
        with (2 ^ (0 - ey) * (Zpos m * 2 ^ (e - e'))) by ring.
      apply Z.mul_le_mono_nonneg_r; lia. }
  assert (Hq0 : 0 <= q) by nia.
  apply bra_le_float; [exact Hq0|exact Hv|exact Hee|].
  apply Z.le_trans with (1 := new_location_hi q (Zpos my) r).
  destruct (Z.eqb_spec r 0); nia.
Qed.

(** *** The construction and the rate of Optimal *)

Lemma SFmul_zero_l (x : spec_float) (k : Z) :
  pos_le x k -> SFmul B64.prec B64.emax (S754_zero false) x = S754_zero false.
Proof. destruct x as [[]|[]| |[] mx ex]; cbn; try contradiction; reflexivity. Qed.

Section OptimalB64.
Local Existing Instance B64.arith.

(** What a successful construction with a finite [alpha > 0] has
    computed, with the orders of magnitude of [alpha] and [t0]. *)
Lemma B64_Optimal_init_inv (loss : Optimal.Loss float) (alpha : float)
    (s : Optimal.t float) :
  (forall a b g, Optimal.gradient loss a b = Ok g -> B64.valid g = true) ->
  B64.valid alpha = true -> B64.is_finite alpha = true -> (alpha >? 0.0)%fl = true ->
  Optimal.init loss alpha = Ok s ->
  Optimal.alpha s = alpha /\
  exists typw g initial_eta0 : float,
    Optimal.typw alpha = Ok typw /\
    Optimal.gradient loss (- typw)%fl 1.0%fl = Ok g /\
    f_truediv typw (max 1.0%fl g) = Ok initial_eta0 /\
    f_truediv 1.0%fl (initial_eta0 * alpha)%fl = Ok (Optimal.t0 s) /\
    (0.0 <? initial_eta0)%fl = true /\ (initial_eta0 <=? typw)%fl = true /\
    exists j u : Z,
      -1074 <= j <= 1023 /\ -256 <= u <= 269 /\ -1074 <= u + j + 1 <= 971 /\
      pos_ge alpha j /\ pos_ge (Optimal.t0 s) (- (u + j + 1)).
Proof.
  intros Hg Hv Hf Hpos Hinit.
  destruct alpha as [sa|sa| |[] ma ea]; try discriminate.
  destruct (valid_pos_bounds ma ea Hv) as [Hj [Hge Hle]].
  set (j := Zdigits2 (Zpos ma) + ea - 1) in *.
  set (alpha := S754_finite false ma ea) in *.
  unfold Optimal.init in Hinit.
  apply bind_Ok_inv in Hinit. destruct Hinit as [typw [Htypw Hinit]].
  apply bind_Ok_inv in Hinit. destruct Hinit as [g [Hgr Hinit]].
  apply bind_Ok_inv in Hinit. destruct Hinit as [eta0 [Heta Hinit]].
  apply bind_Ok_inv in Hinit. destruct Hinit as [t0 [Ht0 Hinit]].
  injection Hinit as <-. cbn [Optimal.alpha Optimal.t0].
  split; [reflexivity|].
  exists typw, g, eta0.
  split; [exact Htypw|]. split; [exact Hgr|]. split; [exact Heta|]. split; [exact Ht0|].
  unfold Optimal.typw in Htypw.
  apply bind_Ok_inv in Htypw. destruct Htypw as [s1 [Hs1 Htypw]].
  apply bind_Ok_inv in Htypw. destruct Htypw as [q [Hq Htypw]].
  cbn [math_sqrt f_truediv f_mul f_lt f_le dec B64.arith] in *.
  rewrite literal_one in *. change (B64.literal 0 0) with B64.zero.
  (* s1 = sqrt(alpha) *)
  apply B64_sqrt_Ok_inv in Hs1; [|reflexivity].
  set (l1 := j / 2).
  assert (Hl1 : 2 * l1 <= j < 2 * l1 + 2).
  { unfold l1. pose proof (Z.mul_div_le j 2 ltac:(lia)).
    pose proof (Z.mul_succ_div_gt j 2 ltac:(lia)). lia. }
  assert (Hs1ge : pos_ge s1 l1).
  { subst s1. apply SFsqrt_ge; [|lia]. apply pos_ge_weaken with (1 := Hge). lia. }
  assert (Hs1le : pos_le s1 (l1 + 1)).
  { subst s1. apply SFsqrt_le; [|lia]. apply pos_le_weaken with (1 := Hle). lia. }
  (* q = 1 / s1 *)
  apply B64_div_Ok_inv in Hq. destruct Hq as [_ Hq].
  assert (Hqle : pos_le q (0 - l1)).
  { subst q. apply SFdiv_le; [apply pos_le_one|exact Hs1ge|lia]. }
  assert (Hqge : pos_ge q (0 - (l1 + 1))).
  { subst q. apply SFdiv_ge; [apply pos_ge_one|exact Hs1le|lia]. }
  (* typw = sqrt(q) *)
  apply B64_sqrt_Ok_inv in Htypw; [|apply pos_le_not_nan with (1 := Hqle)].
  set (u := (1 - l1) / 2).
  assert (Hu : - l1 <= 2 * u <= 1 - l1).
  { unfold u. pose proof (Z.mul_div_le (1 - l1) 2 ltac:(lia)).
    pose proof (Z.mul_succ_div_gt (1 - l1) 2 ltac:(lia)). lia. }
  assert (Htle : pos_le typw u).
  { subst typw. apply SFsqrt_le; [|lia]. apply pos_le_weaken with (1 := Hqle). lia. }
  assert (Htge : pos_ge typw (u - 1)).
  { subst typw. apply SFsqrt_ge; [|lia]. apply pos_ge_weaken with (1 := Hqge). lia. }
  assert (Htv : exists mt et, typw = S754_finite false mt et /\ B64.valid typw = true).
  { destruct typw as [[]|[]| |[] mt et] eqn:Et; cbn in Htle, Htge; try contradiction.
    exists mt, et. split; [reflexivity|].
    apply SFsqrt_valid with (x := q); [symmetry; exact Htypw|].
    apply (pos_le_ge_zero _ _ Hqle). }
  destruct Htv as [mt [et [Et Htv]]].
  (* initial_eta0 = typw / max(1.0, g) *)
  pose proof (max_one_ge g (Hg _ _ _ Hgr)) as Hmax.
  apply B64_div_Ok_inv in Heta. destruct Heta as [_ Heta].
  assert (Hele : pos_le eta0 (u - 0)).
  { subst eta0. apply SFdiv_le; [exact Htle|exact Hmax|lia]. }
  (* t0 = 1 / (initial_eta0 * alpha) *)
  apply B64_div_Ok_inv in Ht0. destruct Ht0 as [Hnz Ht0].
  assert (Hdle : pos_le (SFmul B64.prec B64.emax eta0 alpha) (u - 0 + (j + 1))).
  { apply SFmul_le; [exact Hele|exact Hle|lia]. }
  split.
  { destruct eta0 as [[]|[]| |[] me ee]; cbn in Hele; try contradiction; [|reflexivity].
    rewrite (SFmul_zero_l _ _ Hle) in Hnz. discriminate Hnz. }
  split.
  { rewrite Heta, Et. rewrite Et in Htv. apply SFdiv_le_self; assumption. }
  exists j, u. split; [exact Hj|]. split; [lia|]. split; [lia|]. split; [exact Hge|].
  subst t0. replace (- (u + j + 1)) with (0 - (u - 0 + (j + 1))) by lia.
  apply SFdiv_ge; [apply pos_ge_one|exact Hdle|lia].
Qed.

(** With such a [t0], [get(t)] for [t >= 0] divides by a strictly
    positive number and returns a finite rate that is not negative; the
    rate is strictly positive unless the denominator is infinite. *)
Lemma B64_Optimal_get_bounds (s : Optimal.t float) (t j u : Z) (ft : float) :
  -1074 <= j <= 1023 -> -256 <= u <= 269 -> -1074 <= u + j + 1 <= 971 ->
  pos_ge (Optimal.alpha s) j -> pos_ge (Optimal.t0 s) (- (u + j + 1)) ->
  0 <= t -> float_of_int t = Ok ft ->
  (0.0 <? Optimal.alpha s * (Optimal.t0 s + ft))%fl = true /\
  exists rate,
    Optimal.get s t = Ok rate /\
    (0.0 <=? rate)%fl = true /\ B64.is_finite rate = true /\
    (B64.is_finite (Optimal.alpha s * (Optimal.t0 s + ft))%fl = true ->
     (0.0 <? rate)%fl = true).
Proof.
  intros Hj Hu Huj Hge Ht0 Ht Hft.
  unfold Optimal.get. rewrite Hft. cbn [bind].
  cbn [f_truediv f_mul f_add f_lt f_le dec float_of_int B64.arith] in *.
  rewrite literal_one. change (B64.literal 0 0) with B64.zero.
  set (sum := SFadd B64.prec B64.emax (Optimal.t0 s) ft).
  assert (Hsum : pos_ge sum (- (u + j + 1))).
  { unfold sum. destruct (int_to_float_nonneg t ft Ht Hft) as [->|Hft'].
    - rewrite (SFadd_zero_r _ _ Ht0). exact Ht0.
    - apply SFadd_ge with (b := -1074); [exact Ht0|exact Hft'|lia]. }
  set (den := SFmul B64.prec B64.emax (Optimal.alpha s) sum).
  assert (Hden : pos_ge den (j + - (u + j + 1))).
  { unfold den. apply SFmul_ge; [exact Hge|exact Hsum|lia]. }
  split; [apply pos_ge_gt_zero with (1 := Hden)|].
  exists (SFdiv B64.prec B64.emax B64.one den).
  split; [apply B64_div_Ok, pos_ge_nonzero with (1 := Hden)|].
  assert (Hrate : pos_le (SFdiv B64.prec B64.emax B64.one den) (0 - (j + - (u + j + 1)))).
  { apply SFdiv_le; [apply pos_le_one|exact Hden|lia]. }
  destruct (pos_le_ge_zero _ _ Hrate) as [H0 Hfin].
  split; [exact H0|]. split; [exact Hfin|].
  intros Hdf.
  destruct den as [sd|sd| |sd md ed] eqn:Ed; try discriminate Hdf; try contradiction.
  destruct sd; [contradiction|].
  apply pos_ge_gt_zero with (k := 0 - 1024).
  apply SFdiv_ge; [apply pos_ge_one| |lia].
  apply SFmul_finite_le with (x := Optimal.alpha s) (y := sum). exact Ed.
Qed.
End OptimalB64.

(** ** InverseScaling with a zero exponent, in binary64 *)

Section InverseScalingB64.
Local Existing Instance B64.arith.
Local Abbreviation lit := (@dec B64.arith).
Context (rest : spec_float -> spec_float -> result spec_float).
Local Abbreviation get := (@InverseScaling.get B64.arith (B64.arith_pow rest)).

Lemma B64_truediv_one (x : float) :
  B64.valid x = true -> f_truediv x B64.one = Ok x.
Proof.
  intros Hv. cbn [f_truediv B64.arith]. unfold B64.div.
  change (SFeqb B64.one B64.zero) with false. cbv iota.
  rewrite SFdiv_1_r by assumption. reflexivity.
Qed.

Lemma B64_InverseScaling_int_0 (lr : float) (t : Z) :
  B64.valid lr = true ->
  get (InverseScaling.init lr (PyInt 0)) t = Ok lr.
Proof.
  intros Hv. unfold InverseScaling.get, InverseScaling.init, pow.
  cbn [InverseScaling.power InverseScaling.learning_rate Z.leb Z.compare].
  rewrite Z.pow_0_r. cbn [bind truediv].
  change (float_of_int 1) with (Ok B64.one). cbn [bind].
  apply B64_truediv_one. assumption.
Qed.

Lemma B64_InverseScaling_float_0 (lr : float) (t : Z) :
  B64.valid lr = true ->
  raises (float_of_int (t + 1)) = false ->
  get (InverseScaling.init lr (PyFloat 0.0%fl)) t = Ok lr.
Proof.
  intros Hv Hc. unfold InverseScaling.get, InverseScaling.init, pow.
  cbn [InverseScaling.power InverseScaling.learning_rate].
  destruct (float_of_int (t + 1)) as [x|e]; [|discriminate]. cbn [bind].
  cbn [f_pow B64.arith_pow]. unfold B64.power.
  change (SFeqb (lit 0 0) B64.zero) with true. cbv iota. cbn [bind truediv].
  apply B64_truediv_one. assumption.
Qed.

Lemma B64_InverseScaling_example :
  rest B64.one (lit 5 (-1)) = Ok B64.one ->
  rest (lit 4 0) (lit 5 (-1)) = Ok (lit 2 0) ->
  get (InverseScaling.init 1.0%fl (PyFloat (dec 5 (-1)))) 0 = Ok 1.0%fl /\
  get (InverseScaling.init 1.0%fl (PyFloat (dec 5 (-1)))) 3 = Ok (dec 5 (-1)).
Proof.
  intros H1 H4. unfold InverseScaling.get, InverseScaling.init, pow.
  cbn [InverseScaling.power InverseScaling.learning_rate].
  change (float_of_int (0 + 1)) with (Ok B64.one).
  change (float_of_int (3 + 1)) with (Ok (lit 4 0)).
  cbn [bind f_pow B64.arith_pow]. unfold B64.power.
  change (SFeqb (lit 5 (-1)) B64.zero) with false. cbv iota.
  rewrite H1, H4. split; vm_compute; reflexivity.
Qed.
End InverseScalingB64.

(** * Monotone rounding, in binary64

    Rounding to nearest even never reverses the order of two numbers.
    The numbers that [binary_round_aux] receives are followed as
    integers: a mantissa with its location is a key on a grid four times
    finer, and a shift to the right divides the key.  From there: the
    conversion of ints, sums, products and quotients of positive floats
    are monotone, and their results are valid floats. *)

(** ** Keys *)

Lemma shr_key_record_of_loc (m : Z) (l : location) :
  shr_key (shr_record_of_loc m l) = 4 * m + loc_code l.
Proof.
  destruct l as [|[]]; unfold shr_key;
    cbn [shr_record_of_loc shr_m shr_r shr_s loc_code]; lia.
Qed.

Lemma shr_key_nonneg (r : shr_record) : 0 <= shr_m r <-> 0 <= shr_key r.
Proof. unfold shr_key. destruct (shr_r r), (shr_s r); lia. Qed.

Lemma shr_key_shr_1 (r : shr_record) :
  0 <= shr_m r -> shr_key (shr_1 r) = ratio_key (shr_key r) 4.
Proof.
  intros Hm. unfold ratio_key.
  assert (H : shr_key (shr_1 r)
              = 2 * shr_m r + (if shr_r r || shr_s r then 1 else 0)).
  { destruct r as [m [] []]; unfold shr_key; cbn [shr_m shr_r shr_s orb] in *;
      destruct m as [|[p|p|]|p]; cbn [shr_1 shr_m shr_r shr_s orb]; lia. }
  rewrite H. unfold shr_key.
  destruct (shr_r r), (shr_s r); cbn [orb];
    match goal with
    | |- context [?k / 4] =>
        let q := fresh "q" in let m := fresh "m" in
        pose proof (Z.div_mod k 4 ltac:(lia)) as Hdm;
        pose proof (Z.mod_pos_bound k 4 ltac:(lia)) as Hb;
        destruct (Z.eqb_spec (k mod 4) 0); lia
    end.
Qed.

Lemma ratio_key_halve (a d : Z) :
  0 <= a -> 0 < d -> ratio_key (ratio_key a d) 4 = ratio_key a (2 * d).
Proof.
  intros Ha Hd. unfold ratio_key.
  pose proof (Z.div_mod a d ltac:(lia)) as H1.
  pose proof (Z.mod_pos_bound a d Hd) as B1.
  pose proof (Z.div_mod a (2 * d) ltac:(lia)) as H2.
  pose proof (Z.mod_pos_bound a (2 * d) ltac:(lia)) as B2.
  set (q := a / d) in *. set (r := a mod d) in *.
  set (q2 := a / (2 * d)) in *. set (r2 := a mod (2 * d)) in *.
  assert (Hq : q = 2 * q2 + (if r2 <? d then 0 else 1) /\
               r = r2 - (if r2 <? d then 0 else d)).
  { destruct (Z.ltb_spec r2 d).
    - apply (Z.div_mod_unique d); lia.
    - apply (Z.div_mod_unique d); lia. }
  destruct Hq as [Hq Hr].
  set (k := 2 * q + (if r =? 0 then 0 else 1)).
  pose proof (Z.div_mod k 4 ltac:(lia)) as H3.
  pose proof (Z.mod_pos_bound k 4 ltac:(lia)) as B3.
  assert (Hk : k / 4 = q2 /\ k mod 4 = 2 * (if r2 <? d then 0 else 1) + (if r =? 0 then 0 else 1)).
  { apply (Z.div_mod_unique 4); [lia| |].
    - destruct (r2 <? d), (r =? 0); lia.
    - rewrite <- H3. unfold k. rewrite Hq.
      destruct (r2 <? d), (r =? 0); lia. }
  destruct Hk as [-> ->].
  destruct (Z.ltb_spec r2 d), (Z.eqb_spec r 0), (Z.eqb_spec r2 0); cbn; lia.
Qed.

Lemma iter_shr_1_key (p : positive) :
  forall r a d, 0 <= a -> 0 < d -> shr_key r = ratio_key a d ->
                shr_key (iter_pos shr_1 p r) = ratio_key a (2 ^ Zpos p * d).
Proof.
  assert (Hnn : forall a d, 0 <= a -> 0 < d -> 0 <= ratio_key a d).
  { intros a d Ha Hd. unfold ratio_key.
    pose proof (Z.div_pos a d Ha Hd). destruct (a mod d =? 0); lia. }
  assert (Hone : forall r a d, 0 <= a -> 0 < d -> shr_key r = ratio_key a d ->
                   shr_key (shr_1 r) = ratio_key a (2 * d)).
  { intros r a d Ha Hd H. rewrite shr_key_shr_1, H.
    - apply ratio_key_halve; assumption.
    - apply shr_key_nonneg. rewrite H. apply Hnn; assumption. }
  induction p as [p IH|p IH|]; intros r a d Ha Hd H; cbn [iter_pos].
  - replace (2 ^ Z.pos p~1 * d) with (2 ^ Zpos p * (2 ^ Zpos p * (2 * d))).
    + assert (0 < 2 ^ Zpos p) by (apply Z.pow_pos_nonneg; lia).
      apply IH; [lia|lia|]. apply IH; [lia|lia|]. apply Hone; assumption.
    + replace (Z.pos p~1) with (Z.pos p + Z.pos p + 1) by lia.
      rewrite !Z.pow_add_r by lia. lia.
  - replace (2 ^ Z.pos p~0 * d) with (2 ^ Zpos p * (2 ^ Zpos p * d)).
    + assert (0 < 2 ^ Zpos p) by (apply Z.pow_pos_nonneg; lia).
      apply IH; [lia|lia|]. apply IH; [lia|lia|]. exact H.
    + replace (Z.pos p~0) with (Z.pos p + Z.pos p) by lia.
      rewrite !Z.pow_add_r by lia. lia.
  - apply Hone; assumption.
Qed.

Lemma shr_key_spec (mrs : shr_record) (e n a d : Z) :
  0 <= a -> 0 < d -> shr_key mrs = ratio_key a d ->
  shr_key (fst (shr mrs e n)) = ratio_key a (2 ^ Z.max n 0 * d).
Proof.
  intros Ha Hd H. destruct n as [|p|p]; cbn [shr fst].
  - rewrite Z.max_id. change (2 ^ 0) with 1. rewrite Z.mul_1_l. exact H.
  - rewrite Z.max_l by lia. apply iter_shr_1_key; assumption.
  - rewrite Z.max_r by lia. change (2 ^ 0) with 1. rewrite Z.mul_1_l. exact H.
Qed.

(** The key is monotone in the quotient. *)
Lemma ratio_key_mono (a1 d1 a2 d2 : Z) :
  0 <= a1 -> 0 < d1 -> 0 < d2 -> a1 * d2 <= a2 * d1 ->
  ratio_key a1 d1 <= ratio_key a2 d2.
Proof.
  intros Ha Hd1 Hd2 H. unfold ratio_key.
  pose proof (Z.div_mod a1 d1 ltac:(lia)) as H1.
  pose proof (Z.mod_pos_bound a1 d1 Hd1) as B1.
  pose proof (Z.div_mod a2 d2 ltac:(lia)) as H2.
  pose proof (Z.mod_pos_bound a2 d2 Hd2) as B2.
  set (q1 := a1 / d1) in *. set (r1 := a1 mod d1) in *.
  set (q2 := a2 / d2) in *. set (r2 := a2 mod d2) in *.
  assert (Hq : q1 <= q2).
  { destruct (Z_le_gt_dec q1 q2); [assumption|]. exfalso.
    assert (q2 + 1 <= q1) by lia.
    assert (a2 * d1 < (q2 + 1) * d2 * d1) by nia.
    assert ((q2 + 1) * d2 * d1 <= q1 * d1 * d2) by nia.
    nia. }
  destruct (Z.eq_dec q1 q2) as [E|E].
  - destruct (Z.eqb_spec r2 0), (Z.eqb_spec r1 0); try lia; exfalso; nia.
  - destruct (r1 =? 0), (r2 =? 0); lia.
Qed.

(** Rounding to nearest even is monotone in the key. *)
Lemma round_nearest_even_mono (r1 r2 : shr_record) :
  shr_key r1 <= shr_key r2 ->
  round_nearest_even (shr_m r1) (loc_of_shr_record r1)
  <= round_nearest_even (shr_m r2) (loc_of_shr_record r2).
Proof.
  destruct r1 as [m1 b1 s1], r2 as [m2 b2 s2]. unfold shr_key. cbn [shr_m shr_r shr_s].
  intros H.
  destruct (Z.eq_dec m1 m2) as [->|Hne].
  - destruct b1, s1, b2, s2; cbn; destruct (Z.even m2); lia.
  - assert (m1 + 1 <= m2) by (destruct b1, s1, b2, s2; lia).
    pose proof (round_nearest_even_bounds m1
                  (loc_of_shr_record (Build_shr_record m1 b1 s1))).
    pose proof (round_nearest_even_bounds m2
                  (loc_of_shr_record (Build_shr_record m2 b2 s2))).
    lia.
Qed.

(** ** The second half of a rounding *)

Lemma binary_round_aux_tail (m e : Z) (l : location) :
  binary_round_aux B64.prec B64.emax false m e l
  = round_tail (round_nearest_even
                  (shr_m (fst (shr_fexp B64.prec B64.emax m e l)))
                  (loc_of_shr_record (fst (shr_fexp B64.prec B64.emax m e l))))
      (snd (shr_fexp B64.prec B64.emax m e l)).
Proof.
  unfold binary_round_aux, round_tail.
  destruct (shr_fexp B64.prec B64.emax m e l) as [mrs' e']. reflexivity.
Qed.

Lemma round_tail_spec (m e : Z) :
  0 <= m ->
  let n := Z.max (fexp B64.prec B64.emax (Zdigits2 m + e) - e) 0 in
  round_tail m e
  = match m / 2 ^ n with
    | Z0 => S754_zero false
    | Zpos p => if e + n <=? 971 then S754_finite false p (e + n)
                else S754_infinity false
    | Zneg _ => S754_nan
    end.
Proof.
  intros Hm n. unfold round_tail, shr_fexp.
  pose proof (shr_spec (shr_record_of_loc m loc_Exact) e
                (fexp B64.prec B64.emax (Zdigits2 m + e) - e)) as H.
  rewrite shr_m_record_of_loc in H. specialize (H Hm).
  destruct (shr (shr_record_of_loc m loc_Exact) e _) as [mrs e'].
  cbn [fst snd] in H. destruct H as [-> ->]. reflexivity.
Qed.

(** The second half of a rounding is monotone. *)
Lemma round_tail_mono (m1 m2 e : Z) :
  0 <= m1 <= m2 -> SFleb (round_tail m1 e) (round_tail m2 e) = true.
Proof.
  intros [H1 H12].
  rewrite !round_tail_spec by lia. cbv zeta.
  pose proof (Zdigits2_mono m1 m2 ltac:(lia)) as Hd.
  set (n1 := Z.max (fexp B64.prec B64.emax (Zdigits2 m1 + e) - e) 0).
  set (n2 := Z.max (fexp B64.prec B64.emax (Zdigits2 m2 + e) - e) 0).
  assert (Hn : 0 <= n1 <= n2).
  { pose proof (fexp_mono (Zdigits2 m1 + e) (Zdigits2 m2 + e) ltac:(lia)).
    unfold n1, n2. lia. }
  pose proof (pow2_pos n1 ltac:(lia)) as Hp1.
  pose proof (pow2_pos n2 ltac:(lia)) as Hp2.
  assert (Hq1 : 0 <= m1 / 2 ^ n1) by (apply Z.div_pos; lia).
  assert (Hq2 : 0 <= m2 / 2 ^ n2) by (apply Z.div_pos; lia).
  destruct (m1 / 2 ^ n1) as [|p1|p1] eqn:E1; try lia.
  { destruct (m2 / 2 ^ n2) as [|p2|p2]; try lia; [reflexivity|].
    destruct (e + n2 <=? 971); reflexivity. }
  assert (Hm1 : 1 <= m1).
  { destruct (Z.eq_dec m1 0) as [->|]; [|lia]. rewrite Z.div_0_l in E1 by lia. discriminate. }
  destruct (Z.eq_dec n1 n2) as [En|En].
  - rewrite <- En in *.
    assert (Hle : m1 / 2 ^ n1 <= m2 / 2 ^ n1) by (apply Z.div_le_mono; lia).
    rewrite E1 in Hle.
    destruct (m2 / 2 ^ n1) as [|p2|p2]; try lia.
    destruct (e + n1 <=? 971); [|reflexivity].
    unfold SFleb. rewrite SFcompare_finite_pos, Z.compare_refl.
    destruct (Pos.compare_spec p1 p2); try reflexivity. lia.
  - assert (Hn2 : n2 = Zdigits2 m2 - 53).
    { unfold n1, n2, fexp, emin, B64.prec, B64.emax in *. lia. }
    pose proof (Zdigits2_ge_pow2 m2 ltac:(lia)) as Hd2.
    assert (Hq : 2 ^ 52 <= m2 / 2 ^ n2).
    { apply Z.div_le_lower_bound; [lia|]. rewrite <- Z.pow_add_r by lia.
      apply Z.le_trans with (2 := Hd2). apply pow2_le_mono. lia. }
    destruct (m2 / 2 ^ n2) as [|p2|p2]; try (cbn in Hq; lia).
    destruct (Z.leb_spec (e + n1) 971), (Z.leb_spec (e + n2) 971); try reflexivity; [|lia].
    unfold SFleb. rewrite SFcompare_finite_pos.
    destruct (Z.compare_spec (e + n1) (e + n2)); try reflexivity; lia.
Qed.

Lemma round_tail_not_nan (m e : Z) : 0 <= m -> B64.is_nan (round_tail m e) = false.
Proof.
  intros Hm. rewrite round_tail_spec by assumption. cbv zeta.
  set (n := Z.max _ 0).
  assert (0 <= m / 2 ^ n) by (apply Z.div_pos; [lia|apply pow2_pos; unfold n; lia]).
  destruct (m / 2 ^ n); try lia; [reflexivity|].
  destruct (_ <=? _); reflexivity.
Qed.

Lemma shr_fexp_nonneg (m e : Z) (l : location) :
  0 <= m -> 0 <= shr_m (fst (shr_fexp B64.prec B64.emax m e l)).
Proof.
  intros Hm. unfold shr_fexp.
  pose proof (shr_spec (shr_record_of_loc m l) e
                (fexp B64.prec B64.emax (Zdigits2 m + e) - e)) as H.
  rewrite shr_m_record_of_loc in H. specialize (H Hm).
  destruct H as [-> _]. apply Z.div_pos; [lia|]. apply pow2_pos. lia.
Qed.

Lemma bra_not_nan (m e : Z) (l : location) :
  0 <= m -> B64.is_nan (binary_round_aux B64.prec B64.emax false m e l) = false.
Proof.
  intros Hm. rewrite binary_round_aux_tail. apply round_tail_not_nan.
  pose proof (shr_fexp_nonneg m e l Hm).
  pose proof (round_nearest_even_bounds
                (shr_m (fst (shr_fexp B64.prec B64.emax m e l)))
                (loc_of_shr_record (fst (shr_fexp B64.prec B64.emax m e l)))).
  lia.
Qed.

(** A rounded result is a valid float. *)
Lemma bra_valid (m e : Z) (l : location) :
  0 <= m -> e <= fexp B64.prec B64.emax (Zdigits2 m + e) ->
  B64.valid (binary_round_aux B64.prec B64.emax false m e l) = true.
Proof.
  intros Hm He.
  pose proof (bra_not_nan m e l Hm) as Hn.
  destruct (binary_round_aux B64.prec B64.emax false m e l) as [s|s| |s m' e'] eqn:E;
    try reflexivity.
  exact (bra_canonical false s m e l m' e' Hm He E).
Qed.

Lemma bra_sign (m e : Z) (l : location) :
  0 <= m ->
  match binary_round_aux B64.prec B64.emax false m e l with
  | S754_zero s | S754_infinity s | S754_finite s _ _ => s = false
  | S754_nan => False
  end.
Proof.
  intros Hm. rewrite binary_round_aux_tail.
  set (m1 := round_nearest_even _ _). set (e1 := snd _).
  assert (Hm1 : 0 <= m1).
  { pose proof (shr_fexp_nonneg m e l Hm).
    pose proof (round_nearest_even_bounds
                  (shr_m (fst (shr_fexp B64.prec B64.emax m e l)))
                  (loc_of_shr_record (fst (shr_fexp B64.prec B64.emax m e l)))).
    unfold m1. lia. }
  rewrite round_tail_spec by assumption. cbv zeta.
  set (n := Z.max _ 0).
  assert (0 <= m1 / 2 ^ n) by (apply Z.div_pos; [lia|apply pow2_pos; unfold n; lia]).
  destruct (m1 / 2 ^ n); try lia; try reflexivity.
  destruct (_ <=? _); reflexivity.
Qed.

(** Two valid floats on either side of a power of two are in order. *)
Lemma pos_le_ge_leb (x y : spec_float) (k : Z) :
  B64.valid x = true -> B64.valid y = true ->
  pos_le x k -> pos_ge y k -> SFleb x y = true.
Proof.
  intros Hx Hy Hle Hge.
  destruct x as [[]|[]| |[] mx ex]; cbn [pos_le] in Hle; try contradiction;
    destruct y as [[]|[]| |[] my ey]; cbn [pos_ge] in Hge; try contradiction;
    try reflexivity.
  destruct Hle as [Hex Hmx].
  unfold B64.valid, valid_binary, bounded, canonical_mantissa in Hx, Hy.
  apply andb_true_iff in Hx. destruct Hx as [Hcx _]. apply Z.eqb_eq in Hcx.
  apply andb_true_iff in Hy. destruct Hy as [Hcy _]. apply Z.eqb_eq in Hcy.
  change (Z.pos (digits2_pos mx)) with (Zdigits2 (Zpos mx)) in Hcx.
  change (Z.pos (digits2_pos my)) with (Zdigits2 (Zpos my)) in Hcy.
  pose proof (Zdigits2_ge_pow2 (Zpos mx) ltac:(lia)) as Hdx.
  pose proof (Zdigits2_lt_pow2 (Zpos my) ltac:(lia)) as Hdy.
  pose proof (Zdigits2_pos (Zpos my) ltac:(lia)) as Hdy1.
  unfold SFleb. rewrite SFcompare_finite_pos.
  destruct (Z.compare_spec ex ey) as [Heq|Hlt|Hgt]; try reflexivity.
  - subst ey. destruct (Pos.compare_spec mx my); try reflexivity. lia.
  - exfalso.
    assert (Hdx53 : Zdigits2 (Zpos mx) = 53).
    { unfold fexp, emin, B64.prec, B64.emax in *. lia. }
    assert (Hdy53 : Zdigits2 (Zpos my) <= 53).
    { unfold fexp, emin, B64.prec, B64.emax in *. lia. }
    rewrite Hdx53 in Hdx.
    assert (H52 : 52 <= k - ex).
    { destruct (Z_lt_le_dec (k - ex) 52); [|assumption]. exfalso.
      pose proof (pow2_le_mono (k - ex) 51 ltac:(lia)).
      change (2 ^ 51) with 2251799813685248 in *.
      change (2 ^ (53 - 1)) with 4503599627370496 in *. lia. }
    pose proof (pow2_le_mono 53 (k - ey) ltac:(lia)) as H53.
    pose proof (pow2_le_mono (Zdigits2 (Zpos my)) 53 ltac:(lia)). lia.
Qed.

(** ** Rounding is monotone *)

Lemma bra_le_or_inf (m e : Z) (l : location) (k : Z) :
  0 <= m -> -1074 <= k -> e <= k -> loc_hi m l <= 2 ^ (k - e) ->
  pos_le (binary_round_aux B64.prec B64.emax false m e l) k \/
  binary_round_aux B64.prec B64.emax false m e l = S754_infinity false.
Proof.
  intros Hm Hk He Hb. unfold binary_round_aux.
  pose proof (shr_fexp_le m e l k Hm ltac:(lia) He Hb) as H1.
  destruct (shr_fexp B64.prec B64.emax m e l) as [mrs' e'].
  destruct H1 as [Hm1 [He1 Hb1]].
  pose proof (round_nearest_even_bounds (shr_m mrs') (loc_of_shr_record mrs')) as Hr.
  pose proof (round_nearest_even_le_hi mrs') as Hr'.
  set (m1 := round_nearest_even (shr_m mrs') (loc_of_shr_record mrs')) in *.
  pose proof (shr_fexp_le m1 e' loc_Exact k ltac:(lia) ltac:(lia) He1) as H2.
  unfold loc_hi in H2 at 1. specialize (H2 ltac:(lia)).
  destruct (shr_fexp B64.prec B64.emax m1 e' loc_Exact) as [mrs'' e''].
  destruct H2 as [Hm2 [He2 Hb2]].
  pose proof (shr_m_le_hi mrs'') as Hle.
  destruct (shr_m mrs'') as [|p|p]; try lia; [left; exact I|].
  destruct (e'' <=? B64.emax - B64.prec); [left|right; reflexivity].
  cbn. split; lia.
Qed.

(** Rounding keeps an upper bound by a power of two, up to the largest
    float. *)
Lemma bra_le_wide (m e : Z) (l : location) (k : Z) :
  0 <= m -> e <= fexp B64.prec B64.emax (Zdigits2 m + e) -> Zdigits2 m + e <= 1023 ->
  -1074 <= k -> e <= k -> loc_hi m l <= 2 ^ (k - e) ->
  pos_le (binary_round_aux B64.prec B64.emax false m e l) k.
Proof.
  intros Hm Hc Hd Hk He Hb.
  destruct (bra_le_or_inf m e l k Hm Hk He Hb) as [H|H]; [exact H|].
  assert (He971 : e <= 971) by (unfold fexp, emin, B64.prec, B64.emax in Hc; lia).
  pose proof (binary_round_aux_not_inf false m e l Hm Hd He971) as Hn.
  rewrite H in Hn. discriminate Hn.
Qed.

Lemma pos_ge_1024_inf (y : spec_float) (k : Z) :
  B64.valid y = true -> pos_ge y k -> 1024 <= k -> y = S754_infinity false.
Proof.
  intros Hv Hge Hk.
  destruct y as [[]|[]| |[] my ey]; cbn [pos_ge] in Hge; try contradiction; [reflexivity|].
  exfalso.
  unfold B64.valid, valid_binary, bounded, canonical_mantissa in Hv.
  apply andb_true_iff in Hv. destruct Hv as [Hc He].
  apply Z.eqb_eq in Hc. apply Z.leb_le in He.
  change (Z.pos (digits2_pos my)) with (Zdigits2 (Zpos my)) in Hc.
  pose proof (Zdigits2_lt_pow2 (Zpos my) ltac:(lia)) as Hd.
  pose proof (Zdigits2_pos (Zpos my) ltac:(lia)) as Hd1.
  assert (Hd53 : Zdigits2 (Zpos my) <= 53)
    by (unfold fexp, emin, B64.prec, B64.emax in *; lia).
  pose proof (pow2_le_mono (Zdigits2 (Zpos my)) 53 Hd53).
  pose proof (pow2_le_mono 53 (k - ey) ltac:(unfold B64.emax, B64.prec in He; lia)).
  lia.
Qed.

Lemma ratio_key_bounds (a d m c : Z) :
  0 <= a -> 0 < d -> 0 <= c <= 3 -> 4 * m + c = ratio_key a d ->
  0 <= m /\ 2 * m * d <= a < 2 * (m + 1) * d /\ (c = 0 -> a = 2 * m * d).
Proof.
  intros Ha Hd Hc H. unfold ratio_key in H.
  pose proof (Z.div_mod a d ltac:(lia)) as H1.
  pose proof (Z.mod_pos_bound a d Hd) as B1.
  pose proof (Z.div_pos a d Ha Hd) as Hq.
  set (q := a / d) in *. set (r := a mod d) in *.
  destruct (Z.eqb_spec r 0); (split; [lia|]); (split; [nia|]); intros; nia.
Qed.

Lemma loc_code_bounds (l : location) : 0 <= loc_code l <= 3.
Proof. destruct l as [|[]]; cbn; lia. Qed.

Lemma loc_hi_code (m : Z) (l : location) :
  loc_hi m l = m + (if loc_code l =? 0 then 0 else 1).
Proof. destruct l as [|[]]; reflexivity. Qed.

(** Rounding is monotone: of two numbers given as quotients on the grids
    of their exponents, the lesser rounds to the lesser float. *)
Lemma bra_mono (m1 e1 m2 e2 : Z) (l1 l2 : location) (a1 d1 a2 d2 e0 : Z) :
  0 <= a1 -> 0 < d1 -> 0 <= a2 -> 0 < d2 ->
  4 * m1 + loc_code l1 = ratio_key a1 d1 ->
  4 * m2 + loc_code l2 = ratio_key a2 d2 ->
  e1 <= fexp B64.prec B64.emax (Zdigits2 m1 + e1) ->
  e2 <= fexp B64.prec B64.emax (Zdigits2 m2 + e2) ->
  e0 <= e1 -> e0 <= e2 ->
  a1 * d2 * 2 ^ (e1 - e0) <= a2 * d1 * 2 ^ (e2 - e0) ->
  SFleb (binary_round_aux B64.prec B64.emax false m1 e1 l1)
        (binary_round_aux B64.prec B64.emax false m2 e2 l2) = true.
Proof.
  intros Ha1 Hd1 Ha2 Hd2 K1 K2 C1 C2 E01 E02 Hv.
  destruct (ratio_key_bounds a1 d1 m1 _ Ha1 Hd1 (loc_code_bounds l1) K1) as [Hm1 [B1 X1]].
  destruct (ratio_key_bounds a2 d2 m2 _ Ha2 Hd2 (loc_code_bounds l2) K2) as [Hm2 [B2 X2]].
  pose proof (pow2_pos (e1 - e0) ltac:(lia)) as P1.
  pose proof (pow2_pos (e2 - e0) ltac:(lia)) as P2.
  set (F1 := fexp B64.prec B64.emax (Zdigits2 m1 + e1)) in *.
  set (F2 := fexp B64.prec B64.emax (Zdigits2 m2 + e2)) in *.
  pose proof (Zdigits2_nonneg m1) as Dn1. pose proof (Zdigits2_nonneg m2) as Dn2.
  pose proof (Zdigits2_lt_pow2 m1 Hm1) as Dl1.
  pose proof (Zdigits2_lt_pow2 m2 Hm2) as Dl2.
  (* the magnitudes are in order *)
  assert (HF : F1 <= F2).
  { destruct (Z_le_gt_dec F1 F2) as [|Hgt]; [assumption|]. exfalso.
    assert (Hmag : Zdigits2 m2 + e2 < Zdigits2 m1 + e1).
    { destruct (Z_lt_le_dec (Zdigits2 m2 + e2) (Zdigits2 m1 + e1)); [assumption|].
      pose proof (fexp_mono (Zdigits2 m1 + e1) (Zdigits2 m2 + e2) ltac:(lia)).
      unfold F1, F2 in *. lia. }
    assert (Hd53 : 53 <= Zdigits2 m1).
    { unfold F1, F2, fexp, emin, B64.prec, B64.emax in *. lia. }
    assert (Hm1' : 1 <= m1).
    { destruct (Z.eq_dec m1 0) as [E|]; [rewrite E in Hd53; cbn in Hd53; lia|lia]. }
    pose proof (Zdigits2_ge_pow2 m1 Hm1') as Dg1.
    (* 2^(X1 - 1 - e0) <= m1 * 2^(e1 - e0),  (m2 + 1) * 2^(e2 - e0) <= 2^(X2 - e0) *)
    assert (L : 2 ^ (Zdigits2 m1 - 1 + (e1 - e0)) <= m1 * 2 ^ (e1 - e0)).
    { rewrite Z.pow_add_r by lia. nia. }
    assert (U : (m2 + 1) * 2 ^ (e2 - e0) <= 2 ^ (Zdigits2 m2 + (e2 - e0))).
    { rewrite Z.pow_add_r by lia. nia. }
    assert (M : 2 ^ (Zdigits2 m2 + (e2 - e0)) <= 2 ^ (Zdigits2 m1 - 1 + (e1 - e0)))
      by (apply pow2_le_mono; lia).
    assert (V : m1 * 2 ^ (e1 - e0) < (m2 + 1) * 2 ^ (e2 - e0)).
    { assert (2 * m1 * d1 * d2 * 2 ^ (e1 - e0) <= a1 * d2 * 2 ^ (e1 - e0)) by nia.
      assert (a2 * d1 * 2 ^ (e2 - e0) < 2 * (m2 + 1) * d2 * d1 * 2 ^ (e2 - e0)) by nia.
      assert (m1 * 2 ^ (e1 - e0) * (2 * d1 * d2) < (m2 + 1) * 2 ^ (e2 - e0) * (2 * d1 * d2))
        by nia.
      assert (0 < 2 * d1 * d2) by nia.
      apply Z.mul_lt_mono_pos_r with (2 * d1 * d2); assumption. }
    lia. }
  rewrite !binary_round_aux_tail.
  destruct (Z.eq_dec F1 F2) as [EF|NF].
  - (* the same exponent after the first shift *)
    unfold shr_fexp. fold F1 F2.
    set (n1 := F1 - e1). set (n2 := F2 - e2).
    assert (Hn1 : 0 <= n1) by (unfold n1; lia).
    assert (Hn2 : 0 <= n2) by (unfold n2; lia).
    pose proof (shr_spec (shr_record_of_loc m1 l1) e1 n1) as S1.
    pose proof (shr_spec (shr_record_of_loc m2 l2) e2 n2) as S2.
    rewrite shr_m_record_of_loc in S1, S2.
    specialize (S1 Hm1). specialize (S2 Hm2).
    pose proof (shr_key_spec (shr_record_of_loc m1 l1) e1 n1 a1 d1 Ha1 Hd1) as Q1.
    pose proof (shr_key_spec (shr_record_of_loc m2 l2) e2 n2 a2 d2 Ha2 Hd2) as Q2.
    rewrite shr_key_record_of_loc in Q1, Q2.
    specialize (Q1 K1). specialize (Q2 K2).
    rewrite Z.max_l in * by lia.
    destruct (shr (shr_record_of_loc m1 l1) e1 n1) as [r1 x1].
    destruct (shr (shr_record_of_loc m2 l2) e2 n2) as [r2 x2].
    cbn [fst snd] in *. destruct S1 as [S1 ->]. destruct S2 as [S2 ->].
    replace (e2 + n2) with (e1 + n1) by (unfold n1, n2; lia).
    apply round_tail_mono.
    pose proof (pow2_pos n1 Hn1) as Pn1. pose proof (pow2_pos n2 Hn2) as Pn2.
    split.
    + pose proof (round_nearest_even_bounds (shr_m r1) (loc_of_shr_record r1)).
      assert (0 <= shr_m r1) by (rewrite S1; apply Z.div_pos; lia). lia.
    + apply round_nearest_even_mono. rewrite Q1, Q2.
      apply ratio_key_mono; [assumption|lia|lia|].
      (* a1 d2 2^n2 <= a2 d1 2^n1 *)
      set (T := F1 - e0).
      assert (HT1 : e1 - e0 = T - n1) by (unfold T, n1; lia).
      assert (HT2 : e2 - e0 = T - n2) by (unfold T, n2; lia).
      assert (HTn : n1 <= T /\ n2 <= T) by (unfold T, n1, n2; lia).
      pose proof (pow2_pos (T - n1) ltac:(lia)) as PT1.
      pose proof (pow2_pos (T - n2) ltac:(lia)) as PT2.
      pose proof (pow2_pos T ltac:(lia)) as PT.
      assert (G1 : 2 ^ T = 2 ^ (T - n1) * 2 ^ n1)
        by (rewrite <- Z.pow_add_r by lia; f_equal; lia).
      assert (G2 : 2 ^ T = 2 ^ (T - n2) * 2 ^ n2)
        by (rewrite <- Z.pow_add_r by lia; f_equal; lia).
      rewrite HT1, HT2 in Hv.
      apply Z.mul_le_mono_pos_r with (2 ^ (T - n1) * 2 ^ (T - n2)); [nia|].
      replace (a1 * (2 ^ n2 * d2) * (2 ^ (T - n1) * 2 ^ (T - n2)))
        with (a1 * d2 * 2 ^ (T - n1) * (2 ^ (T - n2) * 2 ^ n2)) by ring.
      replace (a2 * (2 ^ n1 * d1) * (2 ^ (T - n1) * 2 ^ (T - n2)))
        with (a2 * d1 * 2 ^ (T - n2) * (2 ^ (T - n1) * 2 ^ n1)) by ring.
      rewrite <- G1, <- G2. apply Z.mul_le_mono_nonneg_r; lia.
  - (* a power of two lies between the two numbers *)
    rewrite <- !binary_round_aux_tail.
    assert (HF' : F1 < F2) by lia.
    assert (Hmag : Zdigits2 m1 + e1 < Zdigits2 m2 + e2).
    { destruct (Z_lt_le_dec (Zdigits2 m1 + e1) (Zdigits2 m2 + e2)); [assumption|].
      pose proof (fexp_mono (Zdigits2 m2 + e2) (Zdigits2 m1 + e1) ltac:(lia)).
      unfold F1, F2 in *. lia. }
    assert (Hd53 : 53 <= Zdigits2 m2 /\ F2 = Zdigits2 m2 + e2 - 53).
    { unfold F1, F2, fexp, emin, B64.prec, B64.emax in *. lia. }
    assert (Hm2' : 1 <= m2).
    { destruct (Z.eq_dec m2 0) as [E|]; [rewrite E in Hd53; cbn in Hd53; lia|lia]. }
    set (k := Zdigits2 m2 + e2 - 1).
    assert (Hk : -1074 <= k).
    { unfold k, F1, F2, fexp, emin, B64.prec, B64.emax in *. lia. }
    pose proof (bra_valid m1 e1 l1 Hm1 C1) as V1.
    pose proof (bra_valid m2 e2 l2 Hm2 C2) as V2.
    assert (G2 : pos_ge (binary_round_aux B64.prec B64.emax false m2 e2 l2) k).
    { apply bra_ge; [exact Hm2'|exact Hk|].
      replace (k - e2) with (Zdigits2 m2 - 1) by (unfold k; lia).
      apply Zdigits2_ge_pow2. exact Hm2'. }
    destruct (Z_lt_le_dec k 1024) as [Hk'|Hk'].
    + apply pos_le_ge_leb with (k := k); [exact V1|exact V2| |exact G2].
      apply bra_le_wide; [exact Hm1|exact C1|unfold k in *; lia|exact Hk| |].
      * unfold F1, fexp, emin, B64.prec, B64.emax in C1. unfold k. lia.
      * rewrite loc_hi_code.
        apply Z.le_trans with (2 ^ Zdigits2 m1);
          [destruct (loc_code l1 =? 0); lia|].
        apply pow2_le_mono. unfold k. lia.
    + rewrite (pos_ge_1024_inf _ k V2 G2 Hk').
      pose proof (bra_sign m1 e1 l1 Hm1) as Hs.
      destruct (binary_round_aux B64.prec B64.emax false m1 e1 l1) as [s|s| |s p x];
        try contradiction; subst s; reflexivity.
Qed.

(** ** Valid floats and their order *)

Lemma valid_finite_inv (s : bool) (m : positive) (e : Z) :
  B64.valid (S754_finite s m e) = true ->
  e = fexp B64.prec B64.emax (Zdigits2 (Zpos m) + e) /\ e <= 971 /\
  1 <= Zdigits2 (Zpos m) <= 53 /\ -1074 <= e /\
  (-1074 < e -> Zdigits2 (Zpos m) = 53).
Proof.
  intros Hv. unfold B64.valid, valid_binary, bounded, canonical_mantissa in Hv.
  apply andb_true_iff in Hv. destruct Hv as [Hc He].
  apply Z.eqb_eq in Hc. apply Z.leb_le in He.
  change (Z.pos (digits2_pos m)) with (Zdigits2 (Zpos m)) in Hc.
  pose proof (Zdigits2_pos (Zpos m) ltac:(lia)).
  split; [symmetry; exact Hc|].
  unfold fexp, emin, B64.prec, B64.emax in *. lia.
Qed.

(** On valid positive floats, [<=] is the order of the values. *)
Lemma valid_leb_value (m1 m2 : positive) (e1 e2 e0 : Z) :
  B64.valid (S754_finite false m1 e1) = true ->
  B64.valid (S754_finite false m2 e2) = true ->
  SFleb (S754_finite false m1 e1) (S754_finite false m2 e2) = true ->
  e0 <= e1 -> e0 <= e2 ->
  Zpos m1 * 2 ^ (e1 - e0) <= Zpos m2 * 2 ^ (e2 - e0).
Proof.
  intros V1 V2 H E1 E2.
  destruct (valid_finite_inv _ _ _ V1) as [_ [_ [D1 [L1 N1]]]].
  destruct (valid_finite_inv _ _ _ V2) as [_ [_ [D2 [L2 N2]]]].
  unfold SFleb in H. rewrite SFcompare_finite_pos in H.
  pose proof (pow2_pos (e1 - e0) ltac:(lia)) as P1.
  pose proof (pow2_pos (e2 - e0) ltac:(lia)) as P2.
  destruct (Z.compare_spec e1 e2) as [Heq|Hlt|Hgt]; try discriminate H.
  - subst e2. destruct (Pos.compare_spec m1 m2); try discriminate H; nia.
  - pose proof (Zdigits2_lt_pow2 (Zpos m1) ltac:(lia)) as U1.
    pose proof (Zdigits2_ge_pow2 (Zpos m2) ltac:(lia)) as G2.
    rewrite (N2 ltac:(lia)) in G2.
    pose proof (pow2_le_mono (Zdigits2 (Zpos m1)) 53 ltac:(lia)) as U1'.
    change (53 - 1) with 52 in G2.
    apply Z.le_trans with (2 ^ 53 * 2 ^ (e1 - e0));
      [apply Z.mul_le_mono_nonneg_r; lia|].
    apply Z.le_trans with (2 ^ 52 * 2 ^ (e2 - e0));
      [|apply Z.mul_le_mono_nonneg_r; lia].
    rewrite <- !Z.pow_add_r by lia. apply pow2_le_mono. lia.
Qed.

Lemma ratio_key_exact (m : Z) : 4 * m + loc_code loc_Exact = ratio_key (2 * m) 1.
Proof.
  unfold ratio_key. rewrite Z.div_1_r, Z.mod_1_r.
  change (loc_code loc_Exact) with 0.
  change (if 0 =? 0 then 0 else 1) with 0. lia.
Qed.

Lemma bra_mono_exact (m1 e1 m2 e2 e0 : Z) :
  0 <= m1 ->
  e1 <= fexp B64.prec B64.emax (Zdigits2 m1 + e1) ->
  e2 <= fexp B64.prec B64.emax (Zdigits2 m2 + e2) ->
  e0 <= e1 -> e0 <= e2 ->
  m1 * 2 ^ (e1 - e0) <= m2 * 2 ^ (e2 - e0) ->
  SFleb (binary_round_aux B64.prec B64.emax false m1 e1 loc_Exact)
        (binary_round_aux B64.prec B64.emax false m2 e2 loc_Exact) = true.
Proof.
  intros Hm1 C1 C2 E1 E2 H.
  pose proof (pow2_pos (e1 - e0) ltac:(lia)) as P1.
  pose proof (pow2_pos (e2 - e0) ltac:(lia)) as P2.
  assert (Hm2 : 0 <= m2) by nia.
  apply (bra_mono m1 e1 m2 e2 loc_Exact loc_Exact (2 * m1) 1 (2 * m2) 1 e0);
    try lia; try apply ratio_key_exact; try assumption; nia.
Qed.

(** *** Rounding a mantissa and an exponent *)

Lemma shl_align_fexp_spec (p : positive) (e : Z) :
  let '(mz, ez) := shl_align p e (fexp B64.prec B64.emax (Zpos (digits2_pos p) + e)) in
  ez <= e /\ Zpos mz = Zpos p * 2 ^ (e - ez) /\
  ez <= fexp B64.prec B64.emax (Zdigits2 (Zpos mz) + ez).
Proof.
  pose proof (shl_align_spec p e (fexp B64.prec B64.emax (Zpos (digits2_pos p) + e))) as H.
  assert (Hez : snd (shl_align p e (fexp B64.prec B64.emax (Zpos (digits2_pos p) + e)))
                <= fexp B64.prec B64.emax (Zpos (digits2_pos p) + e)).
  { unfold shl_align. change IntDef.Z.sub with Z.sub.
    destruct (fexp B64.prec B64.emax (Zpos (digits2_pos p) + e) - e) eqn:E; cbn [snd]; lia. }
  destruct (shl_align p e _) as [mz ez]. cbn [fst snd] in *.
  destruct H as [He Hm]. split; [exact He|]. split; [exact Hm|].
  rewrite Hm, Zdigits2_mul_pow2 by lia.
  change (Z.pos (digits2_pos p)) with (Zdigits2 (Zpos p)) in Hez.
  replace (Zdigits2 (Z.pos p) + (e - ez) + ez) with (Zdigits2 (Zpos p) + e) by lia.
  exact Hez.
Qed.

Lemma binary_round_mono (p1 p2 : positive) (e1 e2 e0 : Z) :
  e0 <= e1 -> e0 <= e2 ->
  Zpos p1 * 2 ^ (e1 - e0) <= Zpos p2 * 2 ^ (e2 - e0) ->
  SFleb (binary_round B64.prec B64.emax false p1 e1)
        (binary_round B64.prec B64.emax false p2 e2) = true.
Proof.
  intros E1 E2 H. unfold binary_round.
  pose proof (shl_align_fexp_spec p1 e1) as S1.
  pose proof (shl_align_fexp_spec p2 e2) as S2.
  destruct (shl_align p1 e1 _) as [mz1 ez1].
  destruct (shl_align p2 e2 _) as [mz2 ez2].
  destruct S1 as [L1 [M1 C1]]. destruct S2 as [L2 [M2 C2]].
  set (x := Z.min e0 (Z.min ez1 ez2)).
  apply (bra_mono_exact (Zpos mz1) ez1 (Zpos mz2) ez2 x); try assumption; try lia.
  rewrite M1, M2.
  rewrite <- !Z.mul_assoc, <- !Z.pow_add_r by lia.
  replace (e1 - ez1 + (ez1 - x)) with ((e1 - e0) + (e0 - x)) by lia.
  replace (e2 - ez2 + (ez2 - x)) with ((e2 - e0) + (e0 - x)) by lia.
  rewrite !Z.pow_add_r by lia.
  pose proof (pow2_pos (e0 - x) ltac:(lia)). nia.
Qed.

Lemma binary_round_valid (p : positive) (e : Z) :
  B64.valid (binary_round B64.prec B64.emax false p e) = true.
Proof.
  unfold binary_round.
  pose proof (shl_align_fexp_spec p e) as S.
  destruct (shl_align p e _) as [mz ez]. destruct S as [_ [_ C]].
  apply bra_valid; [lia|exact C].
Qed.

Lemma binary_round_sign (p : positive) (e : Z) :
  match binary_round B64.prec B64.emax false p e with
  | S754_zero s | S754_infinity s | S754_finite s _ _ => s = false
  | S754_nan => False
  end.
Proof.
  unfold binary_round. destruct (shl_align p e _) as [mz ez]. apply bra_sign. lia.
Qed.

(** A valid float, written with a longer mantissa, rounds to itself. *)
Lemma binary_round_id (m : positive) (e k : Z) (p : positive) :
  B64.valid (S754_finite false m e) = true -> 0 <= k ->
  Zpos p = Zpos m * 2 ^ k ->
  binary_round B64.prec B64.emax false p (e - k) = S754_finite false m e.
Proof.
  intros Hv Hk Hp. unfold binary_round.
  destruct (valid_finite_inv _ _ _ Hv) as [Hc _].
  change (Z.pos (digits2_pos p)) with (Zdigits2 (Zpos p)).
  rewrite Hp, Zdigits2_mul_pow2 by assumption.
  replace (Zdigits2 (Z.pos m) + k + (e - k)) with (Zdigits2 (Zpos m) + e) by lia.
  rewrite <- Hc. unfold shl_align. change IntDef.Z.sub with Z.sub.
  replace (e - (e - k)) with k by lia.
  destruct k as [|q|q]; try lia; rewrite Hp; apply binary_round_aux_exact;
    try assumption; lia.
Qed.

(** *** Conversion of ints *)

Lemma binary_normalize_mono (z1 z2 : Z) :
  0 <= z1 <= z2 ->
  SFleb (binary_normalize B64.prec B64.emax z1 0 false)
        (binary_normalize B64.prec B64.emax z2 0 false) = true.
Proof.
  intros [H1 H2].
  destruct z1 as [|p1|p1]; try lia; destruct z2 as [|p2|p2]; try lia;
    cbn [binary_normalize].
  - reflexivity.
  - pose proof (binary_round_sign p2 0) as Hs.
    destruct (binary_round B64.prec B64.emax false p2 0) as [s|s| |s m e];
      try contradiction; subst s; reflexivity.
  - apply (binary_round_mono p1 p2 0 0 0); lia.
Qed.

Lemma binary_normalize_valid (z : Z) :
  0 <= z -> B64.valid (binary_normalize B64.prec B64.emax z 0 false) = true.
Proof.
  intros Hz. destruct z as [|p|p]; try lia; cbn [binary_normalize];
    [reflexivity|apply binary_round_valid].
Qed.

(** ** The operations *)

(** *** Products *)

Lemma Zdigits2_mul_ge (a b : Z) :
  1 <= a -> 1 <= b -> Zdigits2 a + Zdigits2 b - 1 <= Zdigits2 (a * b).
Proof.
  intros Ha Hb.
  pose proof (Zdigits2_ge_pow2 a Ha) as Ga. pose proof (Zdigits2_ge_pow2 b Hb) as Gb.
  pose proof (Zdigits2_pos a ltac:(lia)) as Pa. pose proof (Zdigits2_pos b ltac:(lia)) as Pb.
  pose proof (pow2_pos (Zdigits2 a - 1) ltac:(lia)).
  pose proof (pow2_pos (Zdigits2 b - 1) ltac:(lia)).
  pose proof (Zdigits2_ge (a * b) (Zdigits2 a - 1 + (Zdigits2 b - 1)) ltac:(lia)) as Hg.
  rewrite Z.pow_add_r in Hg by lia. specialize (Hg ltac:(nia)). lia.
Qed.

Lemma SFmul_canonical (sx sy : bool) (mx my : positive) (ex ey : Z) :
  B64.valid (S754_finite sx mx ex) = true ->
  B64.valid (S754_finite sy my ey) = true ->
  ex + ey <= fexp B64.prec B64.emax (Zdigits2 (Zpos mx * Zpos my) + (ex + ey)).
Proof.
  intros Vx Vy.
  destruct (valid_finite_inv _ _ _ Vx) as [_ [_ [Dx [Lx Nx]]]].
  destruct (valid_finite_inv _ _ _ Vy) as [_ [_ [Dy [Ly Ny]]]].
  pose proof (Zdigits2_mul_ge (Zpos mx) (Zpos my) ltac:(lia) ltac:(lia)) as D.
  unfold fexp, emin, B64.prec, B64.emax. lia.
Qed.

Lemma SFmul_finite_valid (mx my : positive) (ex ey : Z) :
  B64.valid (S754_finite false mx ex) = true ->
  B64.valid (S754_finite false my ey) = true ->
  B64.valid (SFmul B64.prec B64.emax (S754_finite false mx ex) (S754_finite false my ey))
  = true.
Proof.
  intros Vx Vy. cbn [SFmul xorb].
  apply bra_valid; [lia|]. exact (SFmul_canonical _ _ _ _ _ _ Vx Vy).
Qed.

(** Multiplying by a positive float is monotone. *)
Lemma SFmul_mono (mx : positive) (ex : Z) (y1 y2 : spec_float) :
  B64.valid (S754_finite false mx ex) = true ->
  B64.valid y1 = true -> B64.valid y2 = true ->
  SFltb B64.zero y1 = true -> SFleb y1 y2 = true ->
  SFleb (SFmul B64.prec B64.emax (S754_finite false mx ex) y1)
        (SFmul B64.prec B64.emax (S754_finite false mx ex) y2) = true.
Proof.
  intros Vx V1 V2 P1 H.
  destruct y1 as [[]|[]| |[] m1 e1]; try discriminate P1;
    destruct y2 as [[]|[]| |[] m2 e2]; try discriminate H; cbn [SFmul xorb].
  - reflexivity.
  - pose proof (bra_sign (Zpos mx * Zpos m1) (ex + e1) loc_Exact ltac:(lia)) as Hs.
    change (Z.pos (mx * m1)) with (Zpos mx * Zpos m1).
    destruct (binary_round_aux _ _ _ _ _ _) as [s|s| |s p x];
      try contradiction; subst s; reflexivity.
  - change (Z.pos (mx * m1)) with (Zpos mx * Zpos m1).
    change (Z.pos (mx * m2)) with (Zpos mx * Zpos m2).
    set (e0 := Z.min e1 e2).
    apply (bra_mono_exact _ _ _ _ (ex + e0)); try lia.
    + exact (SFmul_canonical _ _ _ _ _ _ Vx V1).
    + exact (SFmul_canonical _ _ _ _ _ _ Vx V2).
    + pose proof (valid_leb_value m1 m2 e1 e2 e0 V1 V2 H ltac:(lia) ltac:(lia)) as Hv.
      replace (ex + e1 - (ex + e0)) with (e1 - e0) by lia.
      replace (ex + e2 - (ex + e0)) with (e2 - e0) by lia.
      rewrite <- !Z.mul_assoc. apply Z.mul_le_mono_nonneg_l; lia.
Qed.

(** *** Quotients *)

Lemma new_location_key (q d r : Z) :
  0 < d -> 0 <= r < d ->
  4 * q + loc_code (new_location d r) = ratio_key (2 * (q * d + r)) d.
Proof.
  intros Hd Hr. unfold ratio_key.
  assert (Hdm : (2 * (q * d + r)) / d = 2 * q + (if 2 * r <? d then 0 else 1) /\
                (2 * (q * d + r)) mod d = 2 * r - (if 2 * r <? d then 0 else d)).
  { pose proof (Z.div_mod (2 * (q * d + r)) d ltac:(lia)) as E.
    pose proof (Z.mod_pos_bound (2 * (q * d + r)) d Hd) as B.
    apply (Z.div_mod_unique d); [lia| |].
    - destruct (Z.ltb_spec (2 * r) d); lia.
    - rewrite <- E. destruct (Z.ltb_spec (2 * r) d); lia. }
  destruct Hdm as [-> ->].
  unfold new_location, new_location_even, new_location_odd.
  change IntDef.Z.eqb with Z.eqb. change IntDef.Z.even with Z.even.
  change IntDef.Z.compare with Z.compare. change IntDef.Z.mul with Z.mul.
  change IntDef.Z.add with Z.add.
  destruct (Z.even d) eqn:Ev.
  - destruct (Z.eqb_spec r 0) as [->|Hr0].
    + cbn [loc_code]. change (2 * 0) with 0.
      destruct (Z.ltb_spec 0 d); [|lia].
      change (0 - 0 =? 0) with true. cbv iota. lia.
    + destruct (Z.compare_spec (2 * r) d) as [E|L|G]; cbn [loc_code];
        destruct (Z.ltb_spec (2 * r) d); try lia;
        match goal with |- context [?a =? 0] => destruct (Z.eqb_spec a 0) end; lia.
  - assert (Hodd : 2 * r <> d).
    { intros E. rewrite <- E in Ev. rewrite Z.even_mul in Ev. discriminate Ev. }
    destruct (Z.eqb_spec r 0) as [->|Hr0].
    + cbn [loc_code]. change (2 * 0) with 0.
      destruct (Z.ltb_spec 0 d); [|lia].
      change (0 - 0 =? 0) with true. cbv iota. lia.
    + destruct (Z.compare_spec (2 * r + 1) d) as [E|L|G]; cbn [loc_code];
        destruct (Z.ltb_spec (2 * r) d); try lia;
        match goal with |- context [?a =? 0] => destruct (Z.eqb_spec a 0) end; lia.
Qed.

Lemma SFdiv_core_canonical (m1 m2 : positive) (e1 e2 : Z) (q e' : Z) (l : location) :
  SFdiv_core_binary B64.prec B64.emax (Zpos m1) e1 (Zpos m2) e2 = (q, e', l) ->
  0 <= q /\ e' <= fexp B64.prec B64.emax (Zdigits2 q + e').
Proof.
  intros H.
  destruct (SFdiv_core_spec m1 m2 e1 e2) as [q0 [r [e0 [E [He' [Hqr Hr]]]]]].
  rewrite H in E. injection E as -> -> _.
  set (s := e1 - e2 - e0) in *.
  assert (Hs : 0 <= s) by (unfold s; lia).
  pose proof (pow2_pos s Hs) as Ps.
  assert (Hq : 0 <= q0) by nia.
  split; [exact Hq|].
  destruct (Z_le_gt_dec e0 (-1074)) as [Hsmall|Hbig].
  { unfold fexp, emin, B64.prec, B64.emax. lia. }
  set (D := Zdigits2 (Zpos m1) + e1 - (Zdigits2 (Zpos m2) + e2)) in *.
  assert (HD : e0 <= D - 53) by (unfold fexp, emin, B64.prec, B64.emax in He'; lia).
  pose proof (Zdigits2_ge_pow2 (Zpos m1) ltac:(lia)) as G1.
  pose proof (Zdigits2_lt_pow2 (Zpos m2) ltac:(lia)) as U2.
  pose proof (Zdigits2_pos (Zpos m1) ltac:(lia)) as P1.
  pose proof (Zdigits2_pos (Zpos m2) ltac:(lia)) as P2.
  set (j := Zdigits2 (Zpos m1) - 1 + s - Zdigits2 (Zpos m2)).
  assert (Hj : 52 <= j) by (unfold j, s, D in *; lia).
  assert (Hqj : 2 ^ j <= q0).
  { assert (2 ^ j * 2 ^ Zdigits2 (Zpos m2) <= Zpos m1 * 2 ^ s).
    { rewrite <- Z.pow_add_r by lia.
      replace (j + Zdigits2 (Zpos m2)) with ((Zdigits2 (Zpos m1) - 1) + s) by (unfold j; lia).
      rewrite Z.pow_add_r by lia. apply Z.mul_le_mono_nonneg_r; lia. }
    pose proof (pow2_pos j ltac:(lia)). nia. }
  pose proof (Zdigits2_ge q0 j ltac:(lia) Hqj) as Dq.
  apply Z.le_trans with (D - 53); [exact HD|].
  unfold fexp, emin, B64.prec, B64.emax. unfold j, s, D in *. lia.
Qed.

Lemma SFdiv_finite_valid (m1 m2 : positive) (e1 e2 : Z) :
  B64.valid (SFdiv B64.prec B64.emax (S754_finite false m1 e1) (S754_finite false m2 e2))
  = true.
Proof.
  cbn [SFdiv xorb].
  destruct (SFdiv_core_binary B64.prec B64.emax (Zpos m1) e1 (Zpos m2) e2)
    as [[q e'] l] eqn:E.
  destruct (SFdiv_core_canonical _ _ _ _ _ _ _ E) as [Hq Hc].
  apply bra_valid; assumption.
Qed.

(** Dividing a positive float by a positive float is antitone in the
    divisor. *)
Lemma SFdiv_antitone (mx : positive) (ex : Z) (d1 d2 : spec_float) :
  B64.valid d1 = true -> B64.valid d2 = true ->
  SFltb B64.zero d1 = true -> SFleb d1 d2 = true ->
  SFleb (SFdiv B64.prec B64.emax (S754_finite false mx ex) d2)
        (SFdiv B64.prec B64.emax (S754_finite false mx ex) d1) = true.
Proof.
  intros V1 V2 P1 H.
  destruct d1 as [[]|[]| |[] m1 e1]; try discriminate P1;
    destruct d2 as [[]|[]| |[] m2 e2]; try discriminate H; cbn [SFdiv xorb].
  - reflexivity.
  - destruct (SFdiv_core_binary B64.prec B64.emax (Zpos mx) ex (Zpos m1) e1)
      as [[q e'] l] eqn:E.
    destruct (SFdiv_core_canonical _ _ _ _ _ _ _ E) as [Hq _].
    pose proof (bra_sign q e' l Hq) as Hs.
    destruct (binary_round_aux _ _ _ _ _ _) as [s|s| |s p x];
      try contradiction; subst s; reflexivity.
  - destruct (SFdiv_core_spec mx m1 ex e1) as [q1 [r1 [x1 [E1 [X1 [Q1 R1]]]]]].
    destruct (SFdiv_core_spec mx m2 ex e2) as [q2 [r2 [x2 [E2 [X2 [Q2 R2]]]]]].
    destruct (SFdiv_core_canonical _ _ _ _ _ _ _ E1) as [Hq1 C1].
    destruct (SFdiv_core_canonical _ _ _ _ _ _ _ E2) as [Hq2 C2].
    rewrite E1, E2.
    set (s1 := ex - e1 - x1) in *. set (s2 := ex - e2 - x2) in *.
    assert (Hs1 : 0 <= s1) by (unfold s1; lia).
    assert (Hs2 : 0 <= s2) by (unfold s2; lia).
    set (c := Z.min e1 e2).
    set (e0 := Z.min (Z.min x1 x2) (ex - e1 - e2 + c)).
    pose proof (valid_leb_value m1 m2 e1 e2 c V1 V2 H ltac:(unfold c; lia)
                  ltac:(unfold c; lia)) as Hv.
    apply (bra_mono q2 x2 q1 x1 _ _ (2 * (q2 * Zpos m2 + r2)) (Zpos m2)
             (2 * (q1 * Zpos m1 + r1)) (Zpos m1) e0); try lia; try assumption.
    + apply new_location_key; lia.
    + apply new_location_key; lia.
    + replace (q2 * Zpos m2 + r2) with (Zpos mx * 2 ^ s2) by lia.
      replace (q1 * Zpos m1 + r1) with (Zpos mx * 2 ^ s1) by lia.
      (* mx 2^s2 m1 2^(x2 - e0) <= mx 2^s1 m2 2^(x1 - e0) *)
      set (A := ex - e1 - e2 + c - e0).
      assert (HA : 0 <= A) by (unfold A, e0; lia).
      assert (G2 : 2 ^ s2 * 2 ^ (x2 - e0) = 2 ^ (e1 - c) * 2 ^ A).
      { rewrite <- !Z.pow_add_r by (unfold e0, c in *; lia). f_equal. unfold s2, A. lia. }
      assert (G1 : 2 ^ s1 * 2 ^ (x1 - e0) = 2 ^ (e2 - c) * 2 ^ A).
      { rewrite <- !Z.pow_add_r by (unfold e0, c in *; lia). f_equal. unfold s1, A. lia. }
      replace (2 * (Zpos mx * 2 ^ s2) * Zpos m1 * 2 ^ (x2 - e0))
        with (2 * Zpos mx * (Zpos m1 * (2 ^ s2 * 2 ^ (x2 - e0)))) by ring.
      replace (2 * (Zpos mx * 2 ^ s1) * Zpos m2 * 2 ^ (x1 - e0))
        with (2 * Zpos mx * (Zpos m2 * (2 ^ s1 * 2 ^ (x1 - e0)))) by ring.
      rewrite G1, G2.
      apply Z.mul_le_mono_nonneg_l; [lia|].
      rewrite !Z.mul_assoc. apply Z.mul_le_mono_nonneg_r; [apply pow2_nonneg|exact Hv].
Qed.

(** *** Sums *)

Lemma SFadd_finite_pos (mx my : positive) (ex ey : Z) :
  exists p,
    SFadd B64.prec B64.emax (S754_finite false mx ex) (S754_finite false my ey)
    = binary_round B64.prec B64.emax false p (Z.min ex ey) /\
    Zpos p = Zpos mx * 2 ^ (ex - Z.min ex ey) + Zpos my * 2 ^ (ey - Z.min ex ey).
Proof.
  cbn [SFadd cond_Zopp].
  pose proof (shl_align_spec mx ex (Z.min ex ey)) as H1.
  pose proof (shl_align_spec my ey (Z.min ex ey)) as H2.
  assert (E1 : snd (shl_align mx ex (Z.min ex ey)) = Z.min ex ey).
  { unfold shl_align. change IntDef.Z.sub with Z.sub.
    destruct (Z.min ex ey - ex) eqn:E; cbn [snd]; lia. }
  assert (E2 : snd (shl_align my ey (Z.min ex ey)) = Z.min ex ey).
  { unfold shl_align. change IntDef.Z.sub with Z.sub.
    destruct (Z.min ex ey - ey) eqn:E; cbn [snd]; lia. }
  destruct (shl_align mx ex (Z.min ex ey)) as [mx' ex'].
  destruct (shl_align my ey (Z.min ex ey)) as [my' ey'].
  cbn [fst snd] in *. subst ex' ey'. destruct H1 as [_ H1]. destruct H2 as [_ H2].
  exists (mx' + my')%positive. split; [reflexivity|].
  rewrite Pos2Z.inj_add, H1, H2. reflexivity.
Qed.

Lemma SFleb_refl (x : spec_float) : B64.is_nan x = false -> SFleb x x = true.
Proof. intros H. unfold SFleb. rewrite SFcompare_refl by assumption. reflexivity. Qed.

Lemma SFleb_inf_r (x : spec_float) :
  match x with
  | S754_zero s | S754_infinity s | S754_finite s _ _ => s = false
  | S754_nan => False
  end ->
  SFleb x (S754_infinity false) = true.
Proof. destruct x as [s|s| |s m e]; try contradiction; intros ->; reflexivity. Qed.

(** Adding to a positive float is monotone. *)
Lemma SFadd_mono (x f1 f2 : spec_float) :
  B64.valid x = true -> SFltb B64.zero x = true ->
  B64.valid f1 = true -> B64.valid f2 = true ->
  SFleb B64.zero f1 = true -> SFleb f1 f2 = true ->
  SFleb (SFadd B64.prec B64.emax x f1) (SFadd B64.prec B64.emax x f2) = true.
Proof.
  intros Vx Px V1 V2 N1 H.
  destruct x as [[]|[]| |[] mx ex]; try discriminate Px.
  { destruct f1 as [s1|[]| |[] m1 e1]; try discriminate N1;
      destruct f2 as [s2|[]| |[] m2 e2]; try discriminate H; reflexivity. }
  destruct f1 as [s1|[]| |[] m1 e1]; try discriminate N1;
    destruct f2 as [s2|[]| |[] m2 e2]; try discriminate H.
  - cbn [SFadd]. apply SFleb_refl. reflexivity.
  - cbn [SFadd]. reflexivity.
  - destruct (SFadd_finite_pos mx m2 ex e2) as [p [-> Hp]].
    change (SFadd B64.prec B64.emax (S754_finite false mx ex) (S754_zero s1))
      with (S754_finite false mx ex).
    set (ez := Z.min ex e2) in *.
    assert (Hp0 : exists p0, Zpos p0 = Zpos mx * 2 ^ (ex - ez)).
    { pose proof (pow2_pos (ex - ez) ltac:(unfold ez; lia)).
      destruct (Zpos mx * 2 ^ (ex - ez)) as [|p0|p0] eqn:E; try lia. exists p0. reflexivity. }
    destruct Hp0 as [p0 Hp0].
    rewrite <- (binary_round_id mx ex (ex - ez) p0 Vx ltac:(unfold ez; lia) Hp0).
    replace (ex - (ex - ez)) with ez by lia.
    pose proof (pow2_pos (e2 - ez) ltac:(unfold ez; lia)).
    apply (binary_round_mono p0 p ez ez ez); lia.
  - reflexivity.
  - destruct (SFadd_finite_pos mx m1 ex e1) as [p1 [-> Hp1]].
    cbn [SFadd]. apply SFleb_inf_r. apply binary_round_sign.
  - destruct (SFadd_finite_pos mx m1 ex e1) as [p1 [-> Hp1]].
    destruct (SFadd_finite_pos mx m2 ex e2) as [p2 [-> Hp2]].
    set (z1 := Z.min ex e1) in *. set (z2 := Z.min ex e2) in *.
    set (e0 := Z.min z1 z2).
    apply (binary_round_mono p1 p2 z1 z2 e0); try (unfold e0; lia).
    rewrite Hp1, Hp2, !Z.mul_add_distr_r.
    rewrite <- !Z.mul_assoc, <- !Z.pow_add_r by (unfold e0, z1, z2; lia).
    replace (ex - z1 + (z1 - e0)) with (ex - e0) by lia.
    replace (ex - z2 + (z2 - e0)) with (ex - e0) by lia.
    replace (e1 - z1 + (z1 - e0)) with (e1 - e0) by lia.
    replace (e2 - z2 + (z2 - e0)) with (e2 - e0) by lia.
    pose proof (valid_leb_value m1 m2 e1 e2 e0 V1 V2 H ltac:(unfold e0, z1, z2; lia)
                  ltac:(unfold e0, z1, z2; lia)).
    lia.
Qed.

Lemma SFadd_pos_valid (x f : spec_float) :
  B64.valid x = true -> SFltb B64.zero x = true ->
  B64.valid f = true -> SFleb B64.zero f = true ->
  B64.valid (SFadd B64.prec B64.emax x f) = true.
Proof.
  intros Vx Px Vf Nf.
  destruct x as [[]|[]| |[] mx ex]; try discriminate Px;
    destruct f as [s|[]| |[] m e]; try discriminate Nf; try reflexivity;
    try exact Vx.
  destruct (SFadd_finite_pos mx m ex e) as [p [-> _]]. apply binary_round_valid.
Qed.

Lemma SFmul_pos_valid (mx : positive) (ex : Z) (y : spec_float) :
  B64.valid (S754_finite false mx ex) = true ->
  B64.valid y = true -> SFltb B64.zero y = true ->
  B64.valid (SFmul B64.prec B64.emax (S754_finite false mx ex) y) = true.
Proof.
  intros Vx Vy Py.
  destruct y as [[]|[]| |[] m e]; try discriminate Py; [reflexivity|].
  apply SFmul_finite_valid; assumption.
Qed.

(** *** Converted ints *)

Lemma int_to_float_inv (z : Z) (f : spec_float) :
  B64.int_to_float z = Ok f -> f = binary_normalize B64.prec B64.emax z 0 false.
Proof.
  unfold B64.int_to_float. destruct (B64.is_inf _); [discriminate|].
  intros [= <-]. reflexivity.
Qed.

Lemma int_to_float_mono (z1 z2 : Z) (f1 f2 : spec_float) :
  0 <= z1 <= z2 -> B64.int_to_float z1 = Ok f1 -> B64.int_to_float z2 = Ok f2 ->
  SFleb f1 f2 = true /\ B64.valid f1 = true /\ B64.valid f2 = true /\
  SFleb B64.zero f1 = true.
Proof.
  intros Hz H1 H2.
  apply int_to_float_inv in H1, H2. subst f1 f2.
  split; [apply binary_normalize_mono; exact Hz|].
  split; [apply binary_normalize_valid; lia|].
  split; [apply binary_normalize_valid; lia|].
  apply (binary_normalize_mono 0 z1). lia.
Qed.

Lemma binary_normalize_sign (z : Z) :
  0 <= z ->
  match binary_normalize B64.prec B64.emax z 0 false with
  | S754_zero s | S754_infinity s | S754_finite s _ _ => s = false
  | S754_nan => False
  end.
Proof.
  intros Hz. destruct z as [|p|p]; try lia; cbn [binary_normalize];
    [reflexivity|apply binary_round_sign].
Qed.

(** The ints that do not convert are those from [2^1024 - 2^970] on:
    the least one that rounds to [2^1024]. *)
Lemma int_to_float_overflow (z : Z) :
  0 <= z ->
  (z < 2 ^ 1024 - 2 ^ 970 -> exists f, B64.int_to_float z = Ok f) /\
  (2 ^ 1024 - 2 ^ 970 <= z -> B64.int_to_float z = Raise OverflowError).
Proof.
  intros Hz. unfold B64.int_to_float. split.
  - intros Hlt.
    pose proof (binary_normalize_mono z (2 ^ 1024 - 2 ^ 970 - 1) ltac:(lia)) as H.
    replace (binary_normalize B64.prec B64.emax (2 ^ 1024 - 2 ^ 970 - 1) 0 false)
      with (S754_finite false 9007199254740991 971) in H by (vm_compute; reflexivity).
    pose proof (binary_normalize_sign z Hz) as Hs.
    destruct (binary_normalize B64.prec B64.emax z 0 false) as [s|s| |s m e];
      try contradiction; subst s; try discriminate H; eexists; reflexivity.
  - intros Hge.
    pose proof (binary_normalize_mono (2 ^ 1024 - 2 ^ 970) z ltac:(lia)) as H.
    replace (binary_normalize B64.prec B64.emax (2 ^ 1024 - 2 ^ 970) 0 false)
      with (S754_infinity false) in H by (vm_compute; reflexivity).
    pose proof (binary_normalize_sign z Hz) as Hs.
    destruct (binary_normalize B64.prec B64.emax z 0 false) as [s|s| |s m e];
      try contradiction; subst s; try discriminate H. reflexivity.
Qed.

(** *** Quotients of ints *)

Lemma SFdiv_int_le (sa sb : bool) (pa pb : positive) :
  (pa <= pb)%positive ->
  exists q e' l,
    SFdiv B64.prec B64.emax (S754_finite sa pa 0) (S754_finite sb pb 0)
    = binary_round_aux B64.prec B64.emax (xorb sa sb) q e' l /\
    0 <= q /\ e' <= 0 /\ loc_hi q l <= 2 ^ (0 - e').
Proof.
  intros Hab. cbn [SFdiv].
  destruct (SFdiv_core_spec pa pb 0 0) as [q [r [e' [-> [He' [Hqr Hr]]]]]].
  exists q, e', (new_location (Zpos pb) r). split; [reflexivity|].
  rewrite !Z.sub_0_l in *.
  assert (Hs : 0 <= - e') by lia.
  pose proof (pow2_pos (- e') Hs) as P.
  assert (Hq : 0 <= q) by nia.
  split; [exact Hq|]. split; [lia|].
  apply Z.le_trans with (1 := new_location_hi q (Zpos pb) r).
  destruct (Z.eqb_spec r 0); nia.
Qed.

Lemma binary_round_aux_opp (m e : Z) (l : location) :
  binary_round_aux B64.prec B64.emax true m e l
  = SFopp (binary_round_aux B64.prec B64.emax false m e l).
Proof.
  unfold binary_round_aux.
  destruct (shr_fexp B64.prec B64.emax m e l) as [mrs' e'].
  destruct (shr_fexp B64.prec B64.emax _ e' loc_Exact) as [mrs'' e''].
  destruct (shr_m mrs''); try reflexivity.
  destruct (_ <=? _)%Z; reflexivity.
Qed.

Lemma SFdiv_int_not_inf (sa sb : bool) (pa pb : positive) :
  (pa <= pb)%positive ->
  B64.is_inf (SFdiv B64.prec B64.emax (S754_finite sa pa 0) (S754_finite sb pb 0)) = false.
Proof.
  intros Hab.
  destruct (SFdiv_int_le sa sb pa pb Hab) as [q [e' [l [-> [Hq [He' Hl]]]]]].
  assert (Hqle : q <= 2 ^ (0 - e')).
  { rewrite loc_hi_code in Hl. destruct (loc_code l =? 0); lia. }
  pose proof (Zdigits2_le_pow2 q (0 - e') ltac:(lia) ltac:(lia)).
  apply binary_round_aux_not_inf; lia.
Qed.

(** The quotient of two ints, the first not above the second in absolute
    value, never overflows. *)
Lemma int_div_abs_le_ok (a b : Z) :
  b <> 0 -> Z.abs a <= Z.abs b -> exists x, B64.int_div a b = Ok x.
Proof.
  intros Hb Hab. unfold B64.int_div.
  destruct (Z.eqb_spec b 0); [contradiction|].
  match goal with |- context [if ?c then _ else _] => assert (Hc : c = false) end.
  2:{ rewrite Hc. eexists; reflexivity. }
  destruct a as [|pa|pa], b as [|pb|pb]; try lia; cbn [B64.of_Z]; try reflexivity;
    apply SFdiv_int_not_inf; lia.
Qed.

(** The quotient of two positive ints, the first not above the second, is
    at most one. *)
Lemma int_div_le_one (a b : Z) (x : spec_float) :
  0 < a <= b -> B64.int_div a b = Ok x -> pos_le x 0.
Proof.
  intros [Ha Hab]. unfold B64.int_div.
  destruct (Z.eqb_spec b 0); [lia|].
  destruct (B64.is_inf _); [discriminate|]. intros [= <-].
  destruct a as [|pa|pa], b as [|pb|pb]; try lia; cbn [B64.of_Z].
  destruct (SFdiv_int_le false false pa pb ltac:(lia)) as [q [e' [l [-> [Hq [He' Hl]]]]]].
  cbn [xorb]. apply bra_le; try lia.
Qed.

(** *** Differences and sums of finite floats *)

Lemma binary_round_le (p : positive) (e k : Z) :
  -1074 <= k <= 971 -> e <= k -> Zpos p <= 2 ^ (k - e) ->
  pos_le (binary_round B64.prec B64.emax false p e) k.
Proof.
  intros Hk He Hp. unfold binary_round.
  pose proof (shl_align_spec p e
                (fexp B64.prec B64.emax (Zpos (digits2_pos p) + e))) as H.
  destruct (shl_align p e _) as [mz ez]. cbn [fst snd] in H. destruct H as [Hez Hmz].
  apply bra_le; [lia|exact Hk|lia|].
  unfold loc_hi. rewrite Z.add_0_r, Hmz.
  replace (k - ez) with ((k - e) + (e - ez)) by lia.
  rewrite Z.pow_add_r by lia.
  apply Z.mul_le_mono_nonneg_r; [apply pow2_nonneg|exact Hp].
Qed.

(** [1.0 - x] for [0 <= x <= 1] is again between zero and one. *)
Lemma SFsub_one_le (x : spec_float) :
  pos_le x 0 -> pos_le (SFsub B64.prec B64.emax B64.one x) 0.
Proof.
  destruct x as [[]|[]| |[] m e]; cbn [pos_le]; try contradiction.
  { intros _. cbn. lia. }
  intros [He Hm]. unfold B64.one. cbn [SFsub cond_Zopp].
  pose proof (shl_align_spec 4503599627370496 (-52) (Z.min (-52) e)) as H1.
  pose proof (shl_align_spec m e (Z.min (-52) e)) as H2.
  assert (E1 : snd (shl_align 4503599627370496 (-52) (Z.min (-52) e)) = Z.min (-52) e).
  { unfold shl_align. change IntDef.Z.sub with Z.sub.
    destruct (Z.min (-52) e - -52) eqn:E; cbn [snd]; lia. }
  assert (E2 : snd (shl_align m e (Z.min (-52) e)) = Z.min (-52) e).
  { unfold shl_align. change IntDef.Z.sub with Z.sub.
    destruct (Z.min (-52) e - e) eqn:E; cbn [snd]; lia. }
  destruct (shl_align 4503599627370496 (-52) (Z.min (-52) e)) as [m1 x1].
  destruct (shl_align m e (Z.min (-52) e)) as [m2 x2].
  cbn [fst snd] in *. subst x1 x2. destruct H1 as [_ H1]. destruct H2 as [_ H2].
  set (ez := Z.min (-52) e) in *.
  change IntDef.Z.sub with Z.sub.
  assert (Hone : Zpos m1 = 2 ^ (0 - ez)).
  { rewrite H1. change (Z.pos 4503599627370496) with (2 ^ 52).
    rewrite <- Z.pow_add_r by (unfold ez; lia). f_equal. lia. }
  assert (Hx : Zpos m2 <= 2 ^ (0 - ez)).
  { rewrite H2. replace (0 - ez) with ((0 - e) + (e - ez)) by lia.
    rewrite Z.pow_add_r by (unfold ez; lia).
    apply Z.mul_le_mono_nonneg_r; [apply pow2_nonneg|exact Hm]. }
  destruct (Zpos m1 - Zpos m2) as [|p|p] eqn:E; try lia; cbn [binary_normalize].
  - exact I.
  - apply binary_round_le; [lia|unfold ez; lia|lia].
Qed.


(** A product by a float between zero and one does not overflow. *)
Lemma SFmul_le_one_finite (x y : spec_float) :
  pos_le x 0 -> B64.valid y = true -> B64.is_finite y = true ->
  B64.is_finite (SFmul B64.prec B64.emax x y) = true.
Proof.
  intros Hx Vy Fy.
  destruct x as [[]|[]| |[] mx ex]; cbn [pos_le] in Hx; try contradiction;
    destruct y as [sy|sy| |sy my ey]; try discriminate Fy; try reflexivity.
  destruct Hx as [Hex Hmx]. cbn [SFmul xorb].
  change (Z.pos (mx * my)) with (Zpos mx * Zpos my).
  assert (Vy' : B64.valid (S754_finite false my ey) = true) by exact Vy.
  assert (H : SFleb (binary_round_aux B64.prec B64.emax false (Zpos mx * Zpos my)
                       (ex + ey) loc_Exact) (S754_finite false my ey) = true).
  { apply bra_le_float; [lia|exact Vy'|lia|].
    unfold loc_hi. rewrite Z.add_0_r.
    replace (ey - (ex + ey)) with (0 - ex) by lia.
    rewrite Z.mul_comm. apply Z.mul_le_mono_nonneg_l; lia. }
  pose proof (bra_sign (Zpos mx * Zpos my) (ex + ey) loc_Exact ltac:(lia)) as Hs.
  destruct sy; [rewrite binary_round_aux_opp|];
    destruct (binary_round_aux B64.prec B64.emax false _ _ _) as [s|s| |s p x];
    try contradiction; subst s; try discriminate H; reflexivity.
Qed.

Lemma binary_normalize_not_nan (z e : Z) (s : bool) :
  B64.is_nan (binary_normalize B64.prec B64.emax z e s) = false.
Proof.
  destruct z as [|p|p]; cbn [binary_normalize]; [reflexivity| |];
    unfold binary_round; destruct (shl_align p e _) as [mz ez].
  - apply bra_not_nan. lia.
  - rewrite binary_round_aux_opp.
    pose proof (bra_not_nan (Zpos mz) ez loc_Exact ltac:(lia)) as H.
    destruct (binary_round_aux B64.prec B64.emax false _ _ _); try discriminate H; reflexivity.
Qed.

(** The sum of two finite floats is a number. *)
Lemma SFadd_finite_not_nan (x y : spec_float) :
  B64.is_finite x = true -> B64.is_finite y = true ->
  B64.is_nan (SFadd B64.prec B64.emax x y) = false.
Proof.
  destruct x as [sx|sx| |sx mx ex]; try discriminate;
    destruct y as [sy|sy| |sy my ey]; try discriminate; intros _ _; cbn [SFadd];
    try reflexivity.
  - destruct sx, sy; reflexivity.
  - apply binary_normalize_not_nan.
Qed.

(** *** Floats that are not negative *)

Lemma SFmul_le_one_nonneg (x y : spec_float) :
  pos_le x 0 -> B64.is_finite y = true -> SFleb B64.zero y = true ->
  SFleb B64.zero (SFmul B64.prec B64.emax x y) = true.
Proof.
  intros Hx Fy Ny.
  destruct x as [[]|[]| |[] mx ex]; cbn [pos_le] in Hx; try contradiction;
    destruct y as [sy|sy| |[] my ey]; try discriminate Fy; try discriminate Ny;
    cbn [SFmul xorb]; try (destruct sy; reflexivity); try reflexivity.
  pose proof (bra_sign (Zpos (mx * my)) (ex + ey) loc_Exact ltac:(lia)) as Hs.
  destruct (binary_round_aux B64.prec B64.emax false _ _ _) as [s|s| |s p x];
    try contradiction; subst s; reflexivity.
Qed.

Lemma SFadd_nonneg (x y : spec_float) :
  B64.is_finite x = true -> B64.is_finite y = true ->
  SFleb B64.zero x = true -> SFleb B64.zero y = true ->
  SFleb B64.zero (SFadd B64.prec B64.emax x y) = true.
Proof.
  intros Fx Fy Nx Ny.
  destruct x as [sx|sx| |[] mx ex]; try discriminate Fx; try discriminate Nx;
    destruct y as [sy|sy| |[] my ey]; try discriminate Fy; try discriminate Ny.
  - destruct sx, sy; reflexivity.
  - reflexivity.
  - reflexivity.
  - destruct (SFadd_finite_pos mx my ex ey) as [p [-> _]].
    pose proof (binary_round_sign p (Z.min ex ey)) as Hs.
    destruct (binary_round B64.prec B64.emax false p (Z.min ex ey)) as [s|s| |s q x];
      try contradiction; subst s; reflexivity.
Qed.

Lemma SFleb_nonneg_trans (x y : spec_float) :
  B64.is_finite x = true -> B64.is_finite y = true ->
  SFleb B64.zero x = true -> SFleb x y = true -> SFleb B64.zero y = true.
Proof.
  intros Fx Fy Nx Hxy.
  destruct x as [sx|sx| |[] mx ex]; try discriminate Fx; try discriminate Nx;
    destruct y as [sy|sy| |[] my ey]; try discriminate Fy; try discriminate Hxy;
    reflexivity.
Qed.

(** *** Upper bounds and square roots *)

(** Every square root that is returned is a float in canonical form. *)
Lemma B64_sqrt_valid (x r : spec_float) : B64.sqrt x = Ok r -> B64.valid r = true.
Proof.
  unfold B64.sqrt.
  destruct x as [s|[]| |[] m e]; cbn [B64.is_nan SFsqrt];
    try (intros [= <-]; reflexivity); try discriminate.
  pose proof (SFsqrt_valid (S754_finite false m e)) as Hv. cbn [SFsqrt] in Hv.
  destruct (SFsqrt_core_binary B64.prec B64.emax (Zpos m) e) as [[q e'] l] eqn:Ec.
  pose proof (SFsqrt_core_canonical m e) as Hc. rewrite Ec in Hc. destruct Hc as [Hq _].
  pose proof (bra_sign q e' l Hq) as Hs.
  destruct (binary_round_aux B64.prec B64.emax false q e' l) as [s|s| |s m' e'0] eqn:Er;
    cbn [B64.is_nan]; try discriminate; intros [= <-]; try reflexivity.
  subst s. apply (Hv m' e'0); reflexivity.
Qed.

Lemma B64_sqrt_Ok (x : spec_float) (k : Z) :
  pos_ge x (2 * k) -> -1074 <= k -> B64.sqrt x = Ok (SFsqrt B64.prec B64.emax x).
Proof.
  intros Hx Hk. pose proof (SFsqrt_ge x k Hx Hk) as H. unfold B64.sqrt.
  destruct x as [[]|[]| |[] m e]; cbn in Hx; try contradiction; cbn [B64.is_nan].
  - reflexivity.
  - destruct (SFsqrt B64.prec B64.emax (S754_finite false m e)) as [[]|[]| |[] m' e'];
      cbn in H; try contradiction; reflexivity.
Qed.

Lemma SFadd_le (x y : spec_float) (k : Z) :
  pos_le x k -> pos_le y k -> -1074 <= k < 971 ->
  pos_le (SFadd B64.prec B64.emax x y) (k + 1).
Proof.
  intros Hx Hy Hk.
  destruct x as [[]|[]| |[] mx ex]; cbn in Hx; try contradiction;
    destruct y as [[]|[]| |[] my ey]; cbn in Hy; try contradiction.
  - exact I.
  - cbn [SFadd]. apply pos_le_weaken with (a := k); [exact Hy|lia].
  - cbn [SFadd]. apply pos_le_weaken with (a := k); [exact Hx|lia].
  - destruct (SFadd_finite_pos mx my ex ey) as [p [-> Hp]].
    set (e0 := Z.min ex ey) in *.
    assert (He0 : e0 <= ex /\ e0 <= ey) by (unfold e0; lia).
    apply binary_round_le; [lia|lia|]. rewrite Hp.
    assert (H1 : Zpos mx * 2 ^ (ex - e0) <= 2 ^ (k - ex) * 2 ^ (ex - e0))
      by (apply Z.mul_le_mono_nonneg_r; [apply pow2_nonneg|lia]).
    assert (H2 : Zpos my * 2 ^ (ey - e0) <= 2 ^ (k - ey) * 2 ^ (ey - e0))
      by (apply Z.mul_le_mono_nonneg_r; [apply pow2_nonneg|lia]).
    rewrite <- Z.pow_add_r in H1, H2 by lia.
    replace (k - ex + (ex - e0)) with (k - e0) in H1 by lia.
    replace (k - ey + (ey - e0)) with (k - e0) in H2 by lia.
    replace (k + 1 - e0) with (k - e0 + 1) by lia.
    rewrite Z.pow_add_r by lia. change (2 ^ 1) with 2. lia.
Qed.

Lemma int_to_float_le (t k : Z) (ft : spec_float) :
  0 <= t <= 2 ^ k -> 0 <= k <= 971 -> B64.int_to_float t = Ok ft -> pos_le ft k.
Proof.
  intros Ht Hk Hft. apply int_to_float_inv in Hft. subst ft.
  destruct t as [|p|p]; try lia; cbn [binary_normalize]; [exact I|].
  apply binary_round_le; [lia|lia|]. rewrite Z.sub_0_r. lia.
Qed.

(** ** The numbers of Optimal *)

Lemma SFdiv_one_valid (d : spec_float) :
  SFltb B64.zero d = true -> B64.valid (SFdiv B64.prec B64.emax B64.one d) = true.
Proof.
  destruct d as [[]|[]| |[] m e]; try discriminate; intros _; [reflexivity|].
  apply SFdiv_finite_valid.
Qed.

Lemma SFmul_pos_shape (x y : spec_float) :
  SFltb B64.zero x = true -> SFltb B64.zero y = true ->
  SFeqb (SFmul B64.prec B64.emax x y) B64.zero = false ->
  SFltb B64.zero (SFmul B64.prec B64.emax x y) = true.
Proof.
  destruct x as [[]|[]| |[] mx ex]; try discriminate;
    destruct y as [[]|[]| |[] my ey]; try discriminate; intros _ _; try reflexivity.
  cbn [SFmul xorb].
  pose proof (bra_sign (Zpos (mx * my)) (ex + ey) loc_Exact ltac:(lia)) as Hs.
  destruct (binary_round_aux _ _ _ _ _ _) as [s|s| |s p x];
    try contradiction; subst s; try reflexivity. discriminate.
Qed.

Lemma SFadd_int_ge (x ft : spec_float) (t k : Z) :
  pos_ge x k -> -1074 <= k -> 0 <= t -> B64.int_to_float t = Ok ft ->
  pos_ge (SFadd B64.prec B64.emax x ft) k.
Proof.
  intros Hx Hk Ht Hft.
  destruct (int_to_float_nonneg t ft Ht Hft) as [->|Hft'].
  - rewrite (SFadd_zero_r _ _ Hx). exact Hx.
  - apply SFadd_ge with (b := -1074); [exact Hx|exact Hft'|exact Hk].
Qed.

Section OptimalMore.
Local Existing Instance B64.arith.

Lemma B64_Optimal_t0_valid (loss : Optimal.Loss float) (alpha : float)
    (s : Optimal.t float) :
  (forall a b g, Optimal.gradient loss a b = Ok g -> B64.valid g = true) ->
  B64.valid alpha = true -> B64.is_finite alpha = true -> (alpha >? 0.0)%fl = true ->
  Optimal.init loss alpha = Ok s ->
  B64.valid (Optimal.t0 s) = true.
Proof.
  intros Hg Hv Hf Hpos Hinit.
  destruct (B64_Optimal_init_inv loss alpha s Hg Hv Hf Hpos Hinit)
    as [_ [typw [g [eta0 [_ [_ [_ [Ht0 [He0 _]]]]]]]]].
  cbn [f_truediv f_mul f_lt dec B64.arith] in *.
  rewrite literal_one in Ht0. change (B64.literal 0 0) with B64.zero in *.
  apply B64_div_Ok_inv in Ht0. destruct Ht0 as [Hnz ->].
  apply SFdiv_one_valid. apply SFmul_pos_shape; assumption.
Qed.

(** What [get] computes, once the int has been converted. *)
Lemma B64_Optimal_get_value (s : Optimal.t float) (t : Z) (ft : float) :
  float_of_int t = Ok ft ->
  (0.0 <? Optimal.alpha s * (Optimal.t0 s + ft))%fl = true ->
  Optimal.get s t
  = Ok (SFdiv B64.prec B64.emax B64.one
          (SFmul B64.prec B64.emax (Optimal.alpha s)
             (SFadd B64.prec B64.emax (Optimal.t0 s) ft))).
Proof.
  intros Hft Hden. unfold Optimal.get. rewrite Hft. cbn [bind].
  cbn [f_truediv f_mul f_add f_lt dec B64.arith] in *.
  rewrite literal_one. change (B64.literal 0 0) with B64.zero in Hden.
  apply B64_div_Ok.
  destruct (SFmul _ _ _ _) as [[]|[]| |[] m e]; try discriminate Hden; reflexivity.
Qed.
End OptimalMore.

(** ** InverseScaling with an int exponent *)

Section InverseScalingInt.
Local Existing Instance B64.arith.

(** With an int [power >= 0], [get(t)] divides by the converted int
    [(t + 1) ^ power]. *)
Lemma B64_InverseScaling_int_get
    (rest : spec_float -> spec_float -> result spec_float)
    (lr : float) (n t : Z) :
  0 <= n ->
  @InverseScaling.get B64.arith (B64.arith_pow rest)
    (InverseScaling.init lr (PyInt n)) t
  = (y <- float_of_int ((t + 1) ^ n) ;; f_truediv lr y).
Proof.
  intros Hn. unfold InverseScaling.get, InverseScaling.init, pow.
  cbn [InverseScaling.power InverseScaling.learning_rate].
  destruct (Z.leb_spec 0 n); [|lia]. reflexivity.
Qed.

Lemma int_to_float_pos (z : Z) (y : spec_float) :
  1 <= z -> B64.int_to_float z = Ok y ->
  exists m e, y = S754_finite false m e.
Proof.
  intros Hz Hy. pose proof Hy as Hy'. unfold B64.int_to_float in Hy'.
  destruct (int_to_float_nonneg z y ltac:(lia) Hy) as [->|Hge].
  - exfalso. destruct z as [|p|p]; try lia. cbn [binary_normalize] in Hy'.
    pose proof (binary_round_ge p 0 (-1074) ltac:(lia)) as H.
    change (2 ^ (-1074 - 0)) with 0 in H. specialize (H ltac:(lia)).
    destruct (binary_round B64.prec B64.emax false p 0) as [[]|[]| |[] m e];
      cbn in H, Hy'; try contradiction; discriminate Hy'.
  - destruct y as [[]|[]| |[] m e]; cbn in Hge; try contradiction.
    + destruct (B64.is_inf _) eqn:E; [discriminate Hy'|].
      injection Hy' as Hy'. rewrite Hy' in E. discriminate E.
    + eauto.
Qed.
End InverseScalingInt.

(** ** Cyclic and InverseScaling, with rounding *)

(** *** The weights of Cyclic and its two products *)







(** *** Sums of floats that are not negative *)






Section CyclicParts.
Local Existing Instance B64.arith.


End CyclicParts.

(** *** The float power on the bases of InverseScaling *)

(** [1.0 ** y] is [1.0] for every exponent, NaN and the infinities
    included. *)
Lemma float_pow_one (other libm : spec_float -> spec_float -> result spec_float)
    (y : spec_float) :
  B64.power (B64.float_pow_cases other libm) B64.one y = Ok B64.one.
Proof. destruct y as [[]|[]| |[] m e]; reflexivity. Qed.

(** A finite base above [1.0] with a finite exponent [> 0] goes to the
    C library. *)
Lemma float_pow_libm (other libm : spec_float -> spec_float -> result spec_float)
    (x y : spec_float) :
  B64.is_finite x = true -> SFltb B64.one x = true ->
  B64.is_finite y = true -> SFltb B64.zero y = true ->
  B64.power (B64.float_pow_cases other libm) x y = libm x y.
Proof.
  intros Fx Hx Fy Hy.
  destruct y as [[]|[]| |[] my ey]; try discriminate Fy; try discriminate Hy.
  destruct x as [[]|[]| |[] mx ex]; try discriminate Fx; try discriminate Hx.
  unfold B64.power, B64.float_pow_cases.
  change (SFeqb (S754_finite false my ey) B64.zero) with false.
  cbn [B64.is_nan B64.is_inf orb].
  change (SFeqb (S754_finite false mx ex) B64.zero) with false.
  change (SFltb (S754_finite false mx ex) B64.zero) with false.
  cbn [orb].
  assert (E : SFeqb (S754_finite false mx ex) B64.one = false).
  { unfold SFltb in Hx. unfold SFeqb.
    rewrite (SFcompare_antisym B64.one (S754_finite false mx ex)).
    destruct (SFcompare B64.one (S754_finite false mx ex)) as [[]|];
      try discriminate Hx. reflexivity. }
  rewrite E. reflexivity.
Qed.

(** An int from two on converts to a finite float above [1.0]. *)
Lemma int_to_float_gt_one (z : Z) (x : spec_float) :
  2 <= z -> B64.int_to_float z = Ok x ->
  B64.valid x = true /\ B64.is_finite x = true /\ SFltb B64.one x = true.
Proof.
  intros Hz Hx.
  destruct (int_to_float_mono 2 z (S754_finite false 4503599627370496 (-51)) x
              ltac:(lia) eq_refl Hx) as [Hle [V2 [Vx _]]].
  destruct (int_to_float_pos z x ltac:(lia) Hx) as [m [e ->]].
  split; [exact Vx|]. split; [reflexivity|].
  destruct (valid_finite_inv false m e Vx) as [_ [_ [[_ Hd] _]]].
  pose proof (Zdigits2_lt_pow2 (Zpos m) ltac:(lia)) as Hm.
  assert (Hm' : Zpos m < 2 ^ 53).
  { apply Z.lt_le_trans with (1 := Hm). apply pow2_le_mono. lia. }
  assert (He : -52 < e).
  { destruct (Z_lt_le_dec (-52) e) as [H|H]; [exact H|exfalso].
    pose proof (valid_leb_value 4503599627370496 m (-51) e e V2 Vx Hle ltac:(lia)
                  ltac:(lia)) as Hv.
    rewrite Z.sub_diag, Z.mul_1_r in Hv.
    assert (H2 : 2 ^ 1 <= 2 ^ (-51 - e)) by (apply pow2_le_mono; lia).
    change (2 ^ 1) with 2 in H2.
    change (Z.pos 4503599627370496) with (2 ^ 52) in Hv.
    change (2 ^ 53) with (2 ^ 52 * 2) in Hm'.
    assert (0 < 2 ^ 52) by reflexivity. nia. }
  unfold SFltb, B64.one. rewrite SFcompare_finite_pos.
  destruct (Z.compare_spec (-52) e); try lia; reflexivity.
Qed.

(** Dividing a float that is not negative is antitone in a positive
    divisor. *)
Lemma SFdiv_antitone_nonneg (x d1 d2 : spec_float) :
  SFleb B64.zero x = true ->
  B64.is_finite x = true \/ B64.is_finite d2 = true ->
  B64.valid d1 = true -> B64.valid d2 = true ->
  SFltb B64.zero d1 = true -> SFleb d1 d2 = true ->
  SFleb (SFdiv B64.prec B64.emax x d2) (SFdiv B64.prec B64.emax x d1) = true.
Proof.
  intros Nx Hf V1 V2 P1 H.
  destruct x as [s|[]| |[] mx ex]; try discriminate Nx.
  - destruct d1 as [[]|[]| |[] m1 e1]; try discriminate P1;
      destruct d2 as [[]|[]| |[] m2 e2]; try discriminate H;
      destruct s; reflexivity.
  - destruct Hf as [Hf|Hf]; [discriminate Hf|].
    destruct d1 as [[]|[]| |[] m1 e1]; try discriminate P1;
      destruct d2 as [[]|[]| |[] m2 e2]; try discriminate H; try discriminate Hf;
      reflexivity.
  - apply SFdiv_antitone; assumption.
Qed.

Lemma SFleb_one_pos (p : spec_float) : SFleb B64.one p = true -> SFltb B64.zero p = true.
Proof. destruct p as [[]|[]| |[] m e]; try discriminate; reflexivity. Qed.

(** * The properties of the specification *)

Ltac by_computation :=
  repeat match goal with |- _ /\ _ => split end; vm_compute; reflexivity.

(** ** Cyclic, in binary64 *)

Section CyclicClaims.
Local Existing Instance B64.arith.
Local Abbreviation lit := (@dec B64.arith).

(** C1.  For every validly constructed Cyclic scheduler and every integer
    [t], [get(t)] returns [(1 - ti) * lr1 + ti * lr2] where [ti] is the
    quotient [(r + 1) / c] and [r] is the remainder of [t - 1] by [c] in
    the mathematical sense: the [r] with [t - 1 = q * c + r] and
    [0 <= r < c].  The quotient never raises, whatever the size of [c]. *)
Theorem Cyclic_get_interpolates
    (lr1 lr2 : float) (c : pynum float) (s : Cyclic.t float) (t q r : Z) :
  Cyclic.init lr1 lr2 c = Ok s ->
  t - 1 = q * Cyclic.c s + r -> 0 <= r < Cyclic.c s ->
  exists ti, int_truediv (r + 1) (Cyclic.c s) = Ok ti /\
             Cyclic.get s t = Ok ((1.0 - ti) * lr1 + ti * lr2)%fl.
Proof.
  intros Hs Ht Hr.
  rewrite (Cyclic_get_unfold s t q r Ht Hr).
  destruct (Cyclic_init_inv _ _ _ _ Hs) as [_ [z [-> [Hz ->]]]].
  cbn [Cyclic.c Cyclic.lr1 Cyclic.lr2] in *.
  destruct (int_div_le_ok (r + 1) z) as [ti [Hti _]]; [lia|].
  exists ti. cbn [int_truediv B64.arith]. rewrite Hti. split; reflexivity.
Qed.

Lemma Cyclic_get_interpolates_witness :
  Cyclic.init (dec 1 0) (dec 0 0) (PyInt 4)
  = Ok {| Cyclic.lr1 := dec 1 0; Cyclic.lr2 := dec 0 0; Cyclic.c := 4 |} /\
  7 - 1 = 1 * 4 + 2 /\ 0 <= 2 < 4 /\
  exists ti, int_truediv (2 + 1) 4 = Ok ti /\
             Cyclic.get {| Cyclic.lr1 := dec 1 0; Cyclic.lr2 := dec 0 0; Cyclic.c := 4 |} 7
             = Ok ((1.0 - ti) * dec 1 0 + ti * dec 0 0)%fl.
Proof.
  split; [reflexivity|]. split; [reflexivity|]. split; [lia|].
  apply (Cyclic_get_interpolates _ _ (PyInt 4)
           {| Cyclic.lr1 := dec 1 0; Cyclic.lr2 := dec 0 0; Cyclic.c := 4 |} 7 1 2);
    [reflexivity|reflexivity|cbn; lia].
Defined.

(** C2, as stated, fails: [Cyclic(1.0, 0.0, 2).get(1)] is [0.5], not
    [lr1 = 1.0]. *)
Lemma Cyclic_get_1_is_not_lr1 :
  Cyclic.init (dec 1 0) (dec 0 0) (PyInt 2)
  = Ok {| Cyclic.lr1 := dec 1 0; Cyclic.lr2 := dec 0 0; Cyclic.c := 2 |} /\
  Cyclic.get {| Cyclic.lr1 := dec 1 0; Cyclic.lr2 := dec 0 0; Cyclic.c := 2 |} 1
  = Ok (dec 5 (-1)) /\
  (dec 5 (-1) == dec 1 0)%fl = false.
Proof. by_computation. Qed.

(** C2, amended.  For every validly constructed Cyclic scheduler,
    [get(1)] is [(1 - ti) * lr1 + ti * lr2] with [ti = 1 / c]: the rate
    one step down the ramp, not [lr1]. *)
Theorem Cyclic_get_1_first_step
    (lr1 lr2 : float) (c : pynum float) (s : Cyclic.t float) :
  Cyclic.init lr1 lr2 c = Ok s ->
  exists ti, int_truediv 1 (Cyclic.c s) = Ok ti /\
             Cyclic.get s 1 = Ok ((1.0 - ti) * lr1 + ti * lr2)%fl.
Proof.
  intros Hs.
  destruct (Cyclic_init_inv _ _ _ _ Hs) as [_ [z [-> [Hz ->]]]].
  rewrite (Cyclic_get_unfold _ 1 0 0) by (cbn; lia).
  cbn [Cyclic.c Cyclic.lr1 Cyclic.lr2 int_truediv B64.arith Z.add].
  destruct (int_div_le_ok 1 z) as [ti [Hti _]]; [lia|].
  exists ti. rewrite Hti. split; reflexivity.
Qed.

Lemma Cyclic_get_1_first_step_witness :
  Cyclic.init (dec 1 0) (dec 0 0) (PyInt 2)
  = Ok {| Cyclic.lr1 := dec 1 0; Cyclic.lr2 := dec 0 0; Cyclic.c := 2 |} /\
  exists ti, int_truediv 1 2 = Ok ti /\
             Cyclic.get {| Cyclic.lr1 := dec 1 0; Cyclic.lr2 := dec 0 0; Cyclic.c := 2 |} 1
             = Ok ((1.0 - ti) * dec 1 0 + ti * dec 0 0)%fl.
Proof.
  split; [reflexivity|].
  exact (Cyclic_get_1_first_step (lit 1 0) (lit 0 0) (PyInt 2)
           {| Cyclic.lr1 := dec 1 0; Cyclic.lr2 := dec 0 0; Cyclic.c := 2 |}
           eq_refl).
Defined.


(** The steps of that call: [ti = 1 / 5] is [0.2], [1 - ti] is [0.8],
    [0.8 * 0.1] is [0.08000000000000002], [0.2 * 0.1] is
    [0.020000000000000004], and their sum is [0.10000000000000002]. *)
Example Cyclic_interval_overshoot_steps :
  int_truediv 1 5 = Ok (lit 2 (-1)) /\
  (1.0 - lit 2 (-1))%fl = lit 8 (-1) /\
  (lit 8 (-1) * lit 1 (-1))%fl = S754_finite false 5764607523034236 (-56) /\
  (lit 2 (-1) * lit 1 (-1))%fl = S754_finite false 5764607523034236 (-58) /\
  (S754_finite false 5764607523034236 (-56)
   + S754_finite false 5764607523034236 (-58))%fl
  = S754_finite false 7205759403792795 (-56).
Proof. by_computation. Qed.

(** With an infinite [lr1] the scheduler is built, and [get(c)] is NaN:
    [0.0 * inf]. *)
Example Cyclic_infinite_lr1_gives_nan :
  Cyclic.init B64.inf (lit 0 0) (PyInt 2)
  = Ok {| Cyclic.lr1 := B64.inf; Cyclic.lr2 := lit 0 0; Cyclic.c := 2 |} /\
  Cyclic.get {| Cyclic.lr1 := B64.inf; Cyclic.lr2 := lit 0 0; Cyclic.c := 2 |} 2
  = Ok B64.nan.
Proof. by_computation. Qed.

(** C5, as stated, fails: [Cyclic(1.0, 0.0, 2)] has [get(0) = 0.0] and
    [get(1) = 0.5]. *)
Lemma Cyclic_get_0_differs_from_get_1 :
  Cyclic.init (dec 1 0) (dec 0 0) (PyInt 2)
  = Ok {| Cyclic.lr1 := dec 1 0; Cyclic.lr2 := dec 0 0; Cyclic.c := 2 |} /\
  Cyclic.get {| Cyclic.lr1 := dec 1 0; Cyclic.lr2 := dec 0 0; Cyclic.c := 2 |} 0
  = Ok (dec 0 0) /\
  Cyclic.get {| Cyclic.lr1 := dec 1 0; Cyclic.lr2 := dec 0 0; Cyclic.c := 2 |} 1
  = Ok (dec 5 (-1)) /\
  (dec 0 0 == dec 5 (-1))%fl = false.
Proof. by_computation. Qed.

(** C5, amended.  For every validly constructed Cyclic scheduler,
    [get(0)] equals [get(c)]: [t = 0] is the last point of a cycle, where
    the rate is [lr2] (for a finite [lr1]), not the point of [t = 1]. *)
Theorem Cyclic_get_0_is_cycle_end
    (lr1 lr2 : float) (c : pynum float) (s : Cyclic.t float) :
  Cyclic.init lr1 lr2 c = Ok s ->
  Cyclic.get s 0 = Cyclic.get s (Cyclic.c s) /\
  (B64.is_finite lr1 = true -> B64.valid lr2 = true ->
   exists x, Cyclic.get s 0 = Ok x /\ (x == lr2)%fl = true).
Proof.
  intros Hs. split; [apply Cyclic_get_0_c|].
  intros Hf Hv. rewrite Cyclic_get_0_c.
  exact (B64_Cyclic_get_c lr1 lr2 c s Hs Hf Hv).
Qed.

Lemma Cyclic_get_0_is_cycle_end_witness :
  Cyclic.init (dec 1 0) (dec 0 0) (PyInt 2)
  = Ok {| Cyclic.lr1 := dec 1 0; Cyclic.lr2 := dec 0 0; Cyclic.c := 2 |} /\
  Cyclic.get {| Cyclic.lr1 := dec 1 0; Cyclic.lr2 := dec 0 0; Cyclic.c := 2 |} 0
  = Cyclic.get {| Cyclic.lr1 := dec 1 0; Cyclic.lr2 := dec 0 0; Cyclic.c := 2 |} 2 /\
  (B64.is_finite (lit 1 0) = true -> B64.valid (lit 0 0) = true ->
   exists x,
     Cyclic.get {| Cyclic.lr1 := dec 1 0; Cyclic.lr2 := dec 0 0; Cyclic.c := 2 |} 0
     = Ok x /\ (x == dec 0 0)%fl = true).
Proof.
  split; [reflexivity|].
  exact (Cyclic_get_0_is_cycle_end (lit 1 0) (lit 0 0) (PyInt 2)
           {| Cyclic.lr1 := dec 1 0; Cyclic.lr2 := dec 0 0; Cyclic.c := 2 |}
           eq_refl).
Defined.

(** C6, as stated, fails: [Cyclic(nan, 0.0, 1)] is rejected although
    [nan < 0.0] is false and [1] is a positive int. *)
Lemma Cyclic_init_rejects_nan :
  Cyclic.init B64.nan (lit 0 0) (PyInt 1) = Raise AssertionError /\
  (B64.nan <? lit 0 0)%fl = false /\
  (0 <? 1) = true.
Proof. by_computation. Qed.

(** C6, amended.  Construction fails exactly when [lr1 >= lr2] is false,
    that is when [lr1 < lr2] or one of the two is NaN, or [c] is not an
    int greater than 0; it fails with the failed assertion only and
    succeeds otherwise, so that a scheduler that was built has
    [lr1 >= lr2] and [c > 0].  It rejects [lr1 = 1.0, lr2 = 2.0], [c = 0]
    and [c = 2.5]. *)
Theorem Cyclic_init_fails_iff (lr1 lr2 : float) (c : pynum float) :
  (raises (Cyclic.init lr1 lr2 c) = true <->
   (lr1 <? lr2)%fl = true \/ B64.is_nan lr1 = true \/ B64.is_nan lr2 = true \/
   ~ (exists z, c = PyInt z /\ 0 < z)) /\
  (forall e, Cyclic.init lr1 lr2 c = Raise e -> InvalidParameter e = true) /\
  (forall s, Cyclic.init lr1 lr2 c = Ok s ->
             (Cyclic.lr1 s >=? Cyclic.lr2 s)%fl = true /\ 0 < Cyclic.c s) /\
  (forall c', raises (Cyclic.init (dec 1 0) (dec 2 0) c') = true) /\
  raises (Cyclic.init lr1 lr2 (PyInt 0)) = true /\
  raises (Cyclic.init lr1 lr2 (PyFloat (dec 25 (-1)))) = true.
Proof.
  split; [|split; [|split; [|split; [|split]]]].
  - unfold Cyclic.init.
    destruct (lr1 >=? lr2)%fl eqn:Hge; cbn [f_le B64.arith] in Hge.
    + assert (Hn : ~ ((lr1 <? lr2)%fl = true \/
                      B64.is_nan lr1 = true \/ B64.is_nan lr2 = true)).
      { intros H. apply SFleb_false_iff in H. congruence. }
      destruct c as [z|x]; cbn [gt0 isinstance_int].
      * destruct (Z.gtb_spec z 0) as [Hz|Hz]; cbn [andb raises].
        -- split; [discriminate|]. intros [H|[H|[H|H]]]; try tauto.
           exfalso. apply H. exists z. split; [reflexivity|lia].
        -- split; [|reflexivity]. intros _. right; right; right.
           intros [z' [[= <-] Hz']]. lia.
      * rewrite andb_false_r. cbn [raises]. split; [|reflexivity].
        intros _. right; right; right. intros [z' [[=] _]].
    + cbn [raises]. split; [|reflexivity]. intros _.
      apply SFleb_false_iff in Hge. tauto.
  - unfold Cyclic.init. intros e.
    destruct (lr1 >=? lr2)%fl; [|intros [= <-]; reflexivity].
    destruct (gt0 c && isinstance_int c); [|intros [= <-]; reflexivity].
    destruct c; [discriminate|intros [= <-]; reflexivity].
  - intros s Hs.
    destruct (Cyclic_init_inv _ _ _ _ Hs) as [Hge [z [_ [Hz ->]]]].
    split; assumption.
  - intros c'. unfold Cyclic.init. reflexivity.
  - unfold Cyclic.init. destruct (lr1 >=? lr2)%fl; reflexivity.
  - unfold Cyclic.init. destruct (lr1 >=? lr2)%fl; reflexivity.
Qed.

Lemma Cyclic_init_fails_iff_witness :
  Cyclic.init (dec 1 0) (dec 0 0) (PyInt 3)
  = Ok {| Cyclic.lr1 := dec 1 0; Cyclic.lr2 := dec 0 0; Cyclic.c := 3 |} /\
  (lit 1 0 >=? lit 0 0)%fl = true /\ 0 < 3.
Proof.
  split; [reflexivity|].
  exact (proj1 (proj2 (proj2 (Cyclic_init_fails_iff (lit 1 0) (lit 0 0) (PyInt 3))))
           {| Cyclic.lr1 := dec 1 0; Cyclic.lr2 := dec 0 0; Cyclic.c := 3 |}
           eq_refl).
Defined.
End CyclicClaims.

(** ** The cycle of Cyclic, in binary64 *)

Section CyclicCycle.
Local Existing Instance B64.arith.
Local Abbreviation lit := (@dec B64.arith).

(** The lower bound fails too: [Cyclic(0.1, 0.1, 10).get(3)] is
    [0.09999999999999999], which is below [lr2 = 0.1]. *)
Example Cyclic_get_below_lr2 :
  Cyclic.init (lit 1 (-1)) (lit 1 (-1)) (PyInt 10)
  = Ok {| Cyclic.lr1 := lit 1 (-1); Cyclic.lr2 := lit 1 (-1); Cyclic.c := 10 |} /\
  Cyclic.get {| Cyclic.lr1 := lit 1 (-1); Cyclic.lr2 := lit 1 (-1); Cyclic.c := 10 |} 3
  = Ok (S754_finite false 7205759403792793 (-56)) /\
  lit 1 (-1) = S754_finite false 7205759403792794 (-56) /\
  (lit 1 (-1) <=? S754_finite false 7205759403792793 (-56))%fl = false.
Proof. by_computation. Qed.


End CyclicCycle.

(** ** Optimal, in binary64 *)

Section OptimalClaims.
Local Existing Instance B64.arith.
Local Abbreviation lit := (@dec B64.arith).

(** C3.  Construction computes [typw = sqrt(1 / sqrt(alpha))],
    [initial_eta0 = typw / max(1.0, loss.gradient(-typw, 1.0))] and
    [t0 = 1 / (initial_eta0 * alpha)], and [get(t)] returns
    [1 / (alpha * (t0 + t))]; with a gradient that is always [1.0] and
    [alpha = 1e-4], [typw] is [10.0], [initial_eta0] is [10.0], [t0] is
    [1000.0] and [get(0)] is [10.0]. *)
Theorem Optimal_construction :
  (forall (loss : Optimal.Loss float) (alpha s1 q typw g initial_eta0 t0 : float),
      math_sqrt alpha = Ok s1 ->
      f_truediv 1.0%fl s1 = Ok q ->
      math_sqrt q = Ok typw ->
      Optimal.gradient loss (- typw)%fl 1.0%fl = Ok g ->
      f_truediv typw (max 1.0%fl g) = Ok initial_eta0 ->
      f_truediv 1.0%fl (initial_eta0 * alpha)%fl = Ok t0 ->
      Optimal.typw alpha = Ok typw /\
      Optimal.init loss alpha
      = Ok {| Optimal.loss := loss; Optimal.alpha := alpha; Optimal.t0 := t0 |} /\
      forall t ft,
        float_of_int t = Ok ft ->
        Optimal.get {| Optimal.loss := loss; Optimal.alpha := alpha; Optimal.t0 := t0 |} t
        = f_truediv 1.0%fl (alpha * (t0 + ft))%fl) /\
  (forall loss : Optimal.Loss float,
      (forall y_pred y_true, Optimal.gradient loss y_pred y_true = Ok 1.0%fl) ->
      Optimal.typw (lit 1 (-4)) = Ok (lit 10 0) /\
      f_truediv (lit 10 0) (max 1.0%fl 1.0%fl) = Ok (lit 10 0) /\
      Optimal.init loss (lit 1 (-4))
      = Ok {| Optimal.loss := loss; Optimal.alpha := lit 1 (-4);
              Optimal.t0 := lit 1000 0 |} /\
      Optimal.get {| Optimal.loss := loss; Optimal.alpha := lit 1 (-4);
                     Optimal.t0 := lit 1000 0 |} 0
      = Ok (lit 10 0)).
Proof.
  split.
  - intros loss alpha s1 q typw g eta0 t0 H1 H2 H3 H4 H5 H6.
    assert (Ht : Optimal.typw alpha = Ok typw).
    { unfold Optimal.typw. rewrite H1. cbn [bind]. rewrite H2. cbn [bind]. exact H3. }
    split; [exact Ht|]. split.
    + unfold Optimal.init. rewrite Ht. cbn [bind]. rewrite H4. cbn [bind].
      rewrite H5. cbn [bind]. rewrite H6. reflexivity.
    + intros t ft Hft. unfold Optimal.get. rewrite Hft. reflexivity.
  - intros loss Hg.
    split; [vm_compute; reflexivity|]. split; [vm_compute; reflexivity|]. split.
    + unfold Optimal.init.
      replace (Optimal.typw (lit 1 (-4))) with (Ok (lit 10 0)) by (vm_compute; reflexivity).
      cbn [bind]. rewrite Hg. vm_compute. reflexivity.
    + vm_compute. reflexivity.
Qed.

Lemma Optimal_construction_witness :
  (math_sqrt (lit 1 (-4)) = Ok (lit 1 (-2)) /\
   f_truediv 1.0%fl (lit 1 (-2)) = Ok (lit 100 0) /\
   math_sqrt (lit 100 0) = Ok (lit 10 0) /\
   Optimal.gradient {| Optimal.gradient := fun _ _ => Ok 1.0%fl |} (- lit 10 0)%fl 1.0%fl
   = Ok 1.0%fl /\
   f_truediv (lit 10 0) (max 1.0%fl 1.0%fl) = Ok (lit 10 0) /\
   f_truediv 1.0%fl (lit 10 0 * lit 1 (-4))%fl = Ok (lit 1000 0)) /\
  Optimal.init {| Optimal.gradient := fun _ _ => Ok 1.0%fl |} (lit 1 (-4))
  = Ok {| Optimal.loss := {| Optimal.gradient := fun _ _ => Ok 1.0%fl |};
          Optimal.alpha := lit 1 (-4); Optimal.t0 := lit 1000 0 |}.
Proof.
  assert (H : math_sqrt (lit 1 (-4)) = Ok (lit 1 (-2)) /\
              f_truediv 1.0%fl (lit 1 (-2)) = Ok (lit 100 0) /\
              math_sqrt (lit 100 0) = Ok (lit 10 0) /\
              Optimal.gradient {| Optimal.gradient := fun _ _ => Ok 1.0%fl |}
                (- lit 10 0)%fl 1.0%fl = Ok 1.0%fl /\
              f_truediv (lit 10 0) (max 1.0%fl 1.0%fl) = Ok (lit 10 0) /\
              f_truediv 1.0%fl (lit 10 0 * lit 1 (-4))%fl = Ok (lit 1000 0))
    by (repeat split; vm_compute; reflexivity).
  split; [exact H|].
  destruct H as [H1 [H2 [H3 [H4 [H5 H6]]]]].
  exact (proj1 (proj2 (proj1 Optimal_construction
                         {| Optimal.gradient := fun _ _ => Ok 1.0%fl |}
                         (lit 1 (-4)) (lit 1 (-2)) (lit 100 0) (lit 10 0) 1.0%fl
                         (lit 10 0) (lit 1000 0) H1 H2 H3 H4 H5 H6))).
Defined.

(** C7.  Construction with [alpha <= 0] fails with a domain error at
    line 102, whatever the loss is, hence before the loss is consulted:
    a zero [alpha] (of either sign) divides by zero under the outer
    square root, a negative [alpha] is outside the domain of the inner
    one. *)
Theorem Optimal_init_domain_error (loss : Optimal.Loss float) (alpha : float) :
  (alpha <=? 0.0)%fl = true ->
  exists e,
    Optimal.typw alpha = Raise e /\
    Optimal.init loss alpha = Raise e /\
    DomainError e = true /\
    ((alpha == 0.0)%fl = true -> e = ZeroDivisionError) /\
    ((alpha <? 0.0)%fl = true -> e = ValueError).
Proof.
  intros Hle. unfold Optimal.init.
  destruct alpha as [s|[]| |[] m e]; try discriminate Hle.
  - exists ZeroDivisionError.
    destruct s; (split; [reflexivity|split; [reflexivity|split; [reflexivity|]]]);
      (split; [reflexivity|discriminate]).
  - exists ValueError.
    split; [reflexivity|split; [reflexivity|split; [reflexivity|]]].
    split; [discriminate|reflexivity].
  - exists ValueError.
    split; [reflexivity|split; [reflexivity|split; [reflexivity|]]].
    split; [discriminate|reflexivity].
Qed.

Lemma Optimal_init_domain_error_witness :
  (lit 0 0 <=? 0.0)%fl = true /\
  exists e,
    Optimal.typw (lit 0 0) = Raise e /\
    Optimal.init {| Optimal.gradient := fun _ _ => Ok 1.0%fl |} (lit 0 0) = Raise e /\
    DomainError e = true /\
    ((lit 0 0 == 0.0)%fl = true -> e = ZeroDivisionError) /\
    ((lit 0 0 <? 0.0)%fl = true -> e = ValueError).
Proof.
  split; [reflexivity|].
  apply (Optimal_init_domain_error {| Optimal.gradient := fun _ _ => Ok 1.0%fl |} (lit 0 0)).
  reflexivity.
Defined.

(** C10, as stated, fails in its last part: with [alpha = 1e-4] and a
    loss whose gradient is [1e308], construction succeeds with
    [t0 = inf], and [get(0)] is [0.0], which is not strictly positive. *)
Lemma Optimal_get_can_be_zero :
  B64.is_finite (lit 1 308) = true /\
  (lit 0 0 <? lit 1 (-4))%fl = true /\
  Optimal.init {| Optimal.gradient := fun _ _ => Ok (lit 1 308) |} (lit 1 (-4))
  = Ok {| Optimal.loss := {| Optimal.gradient := fun _ _ => Ok (lit 1 308) |};
          Optimal.alpha := lit 1 (-4); Optimal.t0 := B64.inf |} /\
  Optimal.get {| Optimal.loss := {| Optimal.gradient := fun _ _ => Ok (lit 1 308) |};
                 Optimal.alpha := lit 1 (-4); Optimal.t0 := B64.inf |} 0
  = Ok (lit 0 0) /\
  (lit 0 0 <? lit 0 0)%fl = false.
Proof. by_computation. Qed.

(** An infinite [alpha] is accepted too, and gives a NaN [t0] and NaN
    rates: [alpha] has to be finite below. *)
Example Optimal_infinite_alpha_gives_nan :
  Optimal.init {| Optimal.gradient := fun _ _ => Ok 1.0%fl |} B64.inf
  = Ok {| Optimal.loss := {| Optimal.gradient := fun _ _ => Ok 1.0%fl |};
          Optimal.alpha := B64.inf; Optimal.t0 := B64.nan |} /\
  Optimal.get {| Optimal.loss := {| Optimal.gradient := fun _ _ => Ok 1.0%fl |};
                 Optimal.alpha := B64.inf; Optimal.t0 := B64.nan |} 0
  = Ok B64.nan.
Proof. by_computation. Qed.

(** C10, amended.  In binary64, for a finite [alpha > 0] and a loss
    whose gradient returns floats, when construction succeeds:
    [max(1.0, g) >= 1.0] for the [g] returned by
    [loss.gradient(-typw, 1.0)], [initial_eta0] lies in [(0, typw]],
    [t0 > 0], and [get(t)] never divides by zero for [t >= 0].  For every
    [t >= 0] that converts to a float, the denominator
    [alpha * (t0 + t)] is strictly positive and [get(t)] returns a finite
    rate that is not negative; the rate is strictly positive unless the
    denominator is infinite. *)
Theorem Optimal_get_safe (loss : Optimal.Loss float) (alpha : float)
    (s : Optimal.t float) :
  (forall y_pred y_true g,
      Optimal.gradient loss y_pred y_true = Ok g -> B64.valid g = true) ->
  B64.valid alpha = true -> B64.is_finite alpha = true ->
  (alpha >? 0.0)%fl = true ->
  Optimal.init loss alpha = Ok s ->
  exists typw g initial_eta0 : float,
    Optimal.typw alpha = Ok typw /\
    Optimal.gradient loss (- typw)%fl 1.0%fl = Ok g /\
    f_truediv typw (max 1.0%fl g) = Ok initial_eta0 /\
    (max 1.0%fl g >=? 1.0)%fl = true /\
    (0.0 <? initial_eta0)%fl = true /\ (initial_eta0 <=? typw)%fl = true /\
    (0.0 <? Optimal.t0 s)%fl = true /\
    (forall t : Z, 0 <= t -> Optimal.get s t <> Raise ZeroDivisionError) /\
    forall (t : Z) (ft : float),
      0 <= t -> float_of_int t = Ok ft ->
      (0.0 <? alpha * (Optimal.t0 s + ft))%fl = true /\
      exists rate,
        Optimal.get s t = Ok rate /\
        (0.0 <=? rate)%fl = true /\ B64.is_finite rate = true /\
        (B64.is_finite (alpha * (Optimal.t0 s + ft))%fl = true ->
         (0.0 <? rate)%fl = true).
Proof.
  intros Hg Hv Hf Hpos Hinit.
  destruct (B64_Optimal_init_inv loss alpha s Hg Hv Hf Hpos Hinit)
    as [Ha [typw [g [eta0 [Htw [Hgr [Heta [Ht0 [He0 [Hele
       [j [u [Hj [Hu [Huj [Hge Hge0]]]]]]]]]]]]]]]].
  rewrite <- Ha in Hge.
  assert (Hget : forall t ft, 0 <= t -> float_of_int t = Ok ft ->
            (0.0 <? alpha * (Optimal.t0 s + ft))%fl = true /\
            exists rate,
              Optimal.get s t = Ok rate /\
              (0.0 <=? rate)%fl = true /\ B64.is_finite rate = true /\
              (B64.is_finite (alpha * (Optimal.t0 s + ft))%fl = true ->
               (0.0 <? rate)%fl = true)).
  { intros t ft Ht Hft. rewrite <- Ha.
    exact (B64_Optimal_get_bounds s t j u ft Hj Hu Huj Hge Hge0 Ht Hft). }
  exists typw, g, eta0.
  split; [exact Htw|]. split; [exact Hgr|]. split; [exact Heta|].
  split; [apply (B64_max_ge_l (lit 1 0) g); reflexivity|].
  split; [exact He0|]. split; [exact Hele|].
  split; [exact (pos_ge_gt_zero _ _ Hge0)|].
  split; [|exact Hget].
  intros t Ht.
  destruct (float_of_int t) as [ft|e] eqn:Hft.
  - destruct (Hget t ft Ht Hft) as [_ [rate [-> _]]]. discriminate.
  - unfold Optimal.get. rewrite Hft. cbn [bind].
    cbn [float_of_int B64.arith] in Hft. unfold B64.int_to_float in Hft.
    destruct (B64.is_inf _); [|discriminate Hft].
    injection Hft as <-. discriminate.
Qed.

Lemma Optimal_get_safe_witness :
  (forall y_pred y_true g,
      Optimal.gradient {| Optimal.gradient := fun _ _ => Ok 1.0%fl |} y_pred y_true = Ok g ->
      B64.valid g = true) /\
  B64.valid (lit 1 (-4)) = true /\ B64.is_finite (lit 1 (-4)) = true /\
  (lit 1 (-4) >? 0.0)%fl = true /\
  Optimal.init {| Optimal.gradient := fun _ _ => Ok 1.0%fl |} (lit 1 (-4))
  = Ok {| Optimal.loss := {| Optimal.gradient := fun _ _ => Ok 1.0%fl |};
          Optimal.alpha := lit 1 (-4); Optimal.t0 := lit 1000 0 |} /\
  exists typw g initial_eta0 : float,
    Optimal.typw (lit 1 (-4)) = Ok typw /\
    Optimal.gradient {| Optimal.gradient := fun _ _ => Ok 1.0%fl |} (- typw)%fl 1.0%fl
    = Ok g /\
    f_truediv typw (max 1.0%fl g) = Ok initial_eta0 /\
    (max 1.0%fl g >=? 1.0)%fl = true /\
    (0.0 <? initial_eta0)%fl = true /\ (initial_eta0 <=? typw)%fl = true /\
    (0.0 <? lit 1000 0)%fl = true /\
    (forall t : Z,
        0 <= t ->
        Optimal.get {| Optimal.loss := {| Optimal.gradient := fun _ _ => Ok 1.0%fl |};
                       Optimal.alpha := lit 1 (-4); Optimal.t0 := lit 1000 0 |} t
        <> Raise ZeroDivisionError) /\
    forall (t : Z) (ft : float),
      0 <= t -> float_of_int t = Ok ft ->
      (0.0 <? lit 1 (-4) * (lit 1000 0 + ft))%fl = true /\
      exists rate,
        Optimal.get {| Optimal.loss := {| Optimal.gradient := fun _ _ => Ok 1.0%fl |};
                       Optimal.alpha := lit 1 (-4); Optimal.t0 := lit 1000 0 |} t
        = Ok rate /\
        (0.0 <=? rate)%fl = true /\ B64.is_finite rate = true /\
        (B64.is_finite (lit 1 (-4) * (lit 1000 0 + ft))%fl = true ->
         (0.0 <? rate)%fl = true).
Proof.
  assert (Hg : forall y_pred y_true g,
             Optimal.gradient {| Optimal.gradient := fun _ _ => Ok 1.0%fl |} y_pred y_true
             = Ok g -> B64.valid g = true)
    by (intros y_pred y_true g H; injection H as <-; reflexivity).
  assert (Hinit : Optimal.init {| Optimal.gradient := fun _ _ => Ok 1.0%fl |} (lit 1 (-4))
                  = Ok {| Optimal.loss := {| Optimal.gradient := fun _ _ => Ok 1.0%fl |};
                          Optimal.alpha := lit 1 (-4); Optimal.t0 := lit 1000 0 |})
    by (vm_compute; reflexivity).
  split; [exact Hg|]. split; [reflexivity|]. split; [reflexivity|].
  split; [reflexivity|]. split; [exact Hinit|].
  exact (Optimal_get_safe {| Optimal.gradient := fun _ _ => Ok 1.0%fl |} (lit 1 (-4))
           {| Optimal.loss := {| Optimal.gradient := fun _ _ => Ok 1.0%fl |};
              Optimal.alpha := lit 1 (-4); Optimal.t0 := lit 1000 0 |}
           Hg eq_refl eq_refl eq_refl Hinit).
Defined.
End OptimalClaims.

(** ** InverseScaling, in binary64 *)

Section InverseScalingClaims.
Local Existing Instance B64.arith.
Local Abbreviation lit := (@dec B64.arith).
Local Abbreviation get rest := (@InverseScaling.get B64.arith (B64.arith_pow rest)).

(** With a float [power], [get(t)] converts [t + 1] and divides by its
    power. *)
Lemma B64_InverseScaling_float_get
    (rest : spec_float -> spec_float -> result spec_float)
    (lr y x : float) (t : Z) :
  float_of_int (t + 1) = Ok x ->
  get rest (InverseScaling.init lr (PyFloat y)) t
  = (p <- B64.power rest x y ;; f_truediv lr p).
Proof.
  intros Hx. unfold InverseScaling.get, InverseScaling.init, pow.
  cbn [InverseScaling.power InverseScaling.learning_rate].
  rewrite Hx. cbn [bind f_pow B64.arith_pow].
  destruct (B64.power rest x y); reflexivity.
Qed.

(** The divisor of [get(t)] for [t >= 0], a finite exponent [> 0] and a
    C library whose [pow] is at least [1.0] on bases above [1.0]. *)
Lemma B64_InverseScaling_float_divisor
    (other libm : spec_float -> spec_float -> result spec_float)
    (lr y r : float) (t : Z) :
  B64.is_finite y = true -> SFltb B64.zero y = true ->
  (forall x p, B64.valid x = true -> B64.is_finite x = true ->
               SFltb B64.one x = true -> libm x y = Ok p ->
               B64.valid p = true /\ SFleb B64.one p = true) ->
  0 <= t ->
  get (B64.float_pow_cases other libm) (InverseScaling.init lr (PyFloat y)) t = Ok r ->
  exists x p,
    float_of_int (t + 1) = Ok x /\ B64.valid x = true /\ B64.is_finite x = true /\
    B64.power (B64.float_pow_cases other libm) x y = Ok p /\
    B64.valid p = true /\ SFleb B64.one p = true /\
    r = SFdiv B64.prec B64.emax lr p /\
    (t = 0 /\ x = B64.one /\ p = B64.one \/
     1 <= t /\ SFltb B64.one x = true /\ libm x y = Ok p).
Proof.
  intros Fy Hy Hlibm Ht Hr.
  unfold InverseScaling.get, InverseScaling.init, pow in Hr.
  cbn [InverseScaling.power InverseScaling.learning_rate] in Hr.
  apply bind_Ok_inv in Hr. destruct Hr as [d [Hd Hr]].
  apply bind_Ok_inv in Hd. destruct Hd as [x [Hx Hd]].
  apply bind_Ok_inv in Hd. destruct Hd as [p [Hp Hd]].
  injection Hd as <-. cbn [truediv f_truediv f_pow B64.arith_pow B64.arith] in *.
  apply B64_div_Ok_inv in Hr. destruct Hr as [_ ->].
  destruct (Z.eq_dec t 0) as [->|Hne].
  - change (B64.int_to_float (0 + 1)) with (Ok B64.one) in Hx. injection Hx as <-.
    rewrite float_pow_one in Hp. injection Hp as <-.
    exists B64.one, B64.one.
    split; [reflexivity|]. split; [reflexivity|]. split; [reflexivity|].
    split; [apply float_pow_one|]. split; [reflexivity|]. split; [reflexivity|].
    split; [reflexivity|]. left. repeat split.
  - destruct (int_to_float_gt_one (t + 1) x ltac:(lia) Hx) as [Vx [Fx Gx]].
    pose proof Hp as Hp'. rewrite (float_pow_libm other libm x y Fx Gx Fy Hy) in Hp'.
    destruct (Hlibm x p Vx Fx Gx Hp') as [Vp H1].
    exists x, p.
    split; [exact Hx|]. split; [exact Vx|]. split; [exact Fx|]. split; [exact Hp|].
    split; [exact Vp|]. split; [exact H1|]. split; [reflexivity|].
    right. split; [lia|]. split; assumption.
Qed.

(** C8, as stated, fails in its second part: with [learning_rate = 0.0]
    and [power = 1.0 > 0], [get(0)] is [0.0], and whatever the C library
    answers for [2.0 ** 1.0], [get(1)], when it returns, is not below
    it. *)
Lemma InverseScaling_zero_rate_not_decreasing :
  (0.0 <? 1.0)%fl = true /\
  (forall other libm,
      get (B64.float_pow_cases other libm)
        (InverseScaling.init 0.0%fl (PyFloat 1.0%fl)) 0 = Ok 0.0%fl) /\
  (forall other libm r1,
      get (B64.float_pow_cases other libm)
        (InverseScaling.init 0.0%fl (PyFloat 1.0%fl)) 1 = Ok r1 ->
      (r1 <? 0.0)%fl = false).
Proof.
  split; [reflexivity|]. split.
  - intros other libm. reflexivity.
  - intros other libm r1.
    rewrite (B64_InverseScaling_float_get _ _ _ (lit 2 0) 1 eq_refl).
    change (B64.power (B64.float_pow_cases other libm) (lit 2 0) (lit 1 0))
      with (libm (S754_finite false 4503599627370496 (-51)) B64.one).
    destruct (libm (S754_finite false 4503599627370496 (-51)) B64.one) as [p|e];
      [|discriminate]. cbn [bind].
    cbn [f_truediv f_lt B64.arith]. unfold B64.div.
    destruct p as [[]|[]| |[] m e]; cbn; intros [= <-]; reflexivity.
Qed.

(** In binary64 the sequence also stops decreasing where consecutive
    ints convert to the same float: with [learning_rate = 1.0] and the
    int [power = 1], [get(2^53 - 1)] and [get(2^53)] are both [2^-53],
    whatever the float power is. *)
Example InverseScaling_binary64_plateau
    (rest : spec_float -> spec_float -> result spec_float) :
  get rest (InverseScaling.init (lit 1 0) (PyInt 1)) (2 ^ 53 - 1)
  = Ok (S754_finite false 4503599627370496 (-105)) /\
  get rest (InverseScaling.init (lit 1 0) (PyInt 1)) (2 ^ 53)
  = Ok (S754_finite false 4503599627370496 (-105)).
Proof. by_computation. Qed.

(** C8, amended.  In binary64, for every InverseScaling scheduler and
    every [t >= 0]: [get(t)] is [learning_rate / pow(t + 1, power)], with
    [t + 1] converted to a float for a float [power] (an OverflowError
    from [t + 1 = 2^1024 - 2^970] on) and the int [(t + 1) ^ power]
    converted for an int [power >= 0]; [get(0)] is [learning_rate] for
    every float [power]; the rates never increase with [t] when
    [learning_rate >= 0], for every int [power >= 0], and for every
    finite float [power > 0] provided the C library's [pow] is monotone
    in its base and at least [1.0] on bases above [1.0]; and with
    [learning_rate = 1.0] and [power = 0.5], [get(0)] is [1.0], and
    [get(3)] is [0.5] when the C library answers [2.0] for
    [4.0 ** 0.5].  The rates are not strictly decreasing. *)
Theorem InverseScaling_schedule :
  (forall rest (learning_rate power : float) (t : Z),
      0 <= t ->
      (t + 1 < 2 ^ 1024 - 2 ^ 970 ->
       exists x,
         float_of_int (t + 1) = Ok x /\
         get rest (InverseScaling.init learning_rate (PyFloat power)) t
         = (p <- B64.power rest x power ;; f_truediv learning_rate p)) /\
      (2 ^ 1024 - 2 ^ 970 <= t + 1 ->
       get rest (InverseScaling.init learning_rate (PyFloat power)) t
       = Raise OverflowError)) /\
  (forall rest (learning_rate : float) (power t : Z),
      0 <= power ->
      get rest (InverseScaling.init learning_rate (PyInt power)) t
      = (d <- float_of_int ((t + 1) ^ power) ;; f_truediv learning_rate d)) /\
  (forall other libm (learning_rate power : float),
      B64.valid learning_rate = true ->
      get (B64.float_pow_cases other libm)
        (InverseScaling.init learning_rate (PyFloat power)) 0
      = Ok learning_rate) /\
  (forall rest (learning_rate : float) (power t1 t2 : Z) (rate1 rate2 : float),
      (0.0 <=? learning_rate)%fl = true ->
      0 <= power -> 0 <= t1 <= t2 ->
      get rest (InverseScaling.init learning_rate (PyInt power)) t1 = Ok rate1 ->
      get rest (InverseScaling.init learning_rate (PyInt power)) t2 = Ok rate2 ->
      (rate2 <=? rate1)%fl = true) /\
  (forall other libm (learning_rate power : float) (t1 t2 : Z) (rate1 rate2 : float),
      B64.is_finite learning_rate = true -> (0.0 <=? learning_rate)%fl = true ->
      B64.is_finite power = true -> (0.0 <? power)%fl = true ->
      (forall x p, B64.valid x = true -> B64.is_finite x = true ->
                   (1.0 <? x)%fl = true -> libm x power = Ok p ->
                   B64.valid p = true /\ (1.0 <=? p)%fl = true) ->
      (forall x1 x2 p1 p2,
          B64.valid x1 = true -> B64.valid x2 = true -> B64.is_finite x2 = true ->
          (1.0 <? x1)%fl = true -> (x1 <=? x2)%fl = true ->
          libm x1 power = Ok p1 -> libm x2 power = Ok p2 ->
          (p1 <=? p2)%fl = true) ->
      0 <= t1 <= t2 ->
      get (B64.float_pow_cases other libm)
        (InverseScaling.init learning_rate (PyFloat power)) t1 = Ok rate1 ->
      get (B64.float_pow_cases other libm)
        (InverseScaling.init learning_rate (PyFloat power)) t2 = Ok rate2 ->
      (rate2 <=? rate1)%fl = true) /\
  (forall other libm,
      libm (lit 4 0) (lit 5 (-1)) = Ok (lit 2 0) ->
      get (B64.float_pow_cases other libm)
        (InverseScaling.init 1.0%fl (PyFloat (lit 5 (-1)))) 0 = Ok 1.0%fl /\
      get (B64.float_pow_cases other libm)
        (InverseScaling.init 1.0%fl (PyFloat (lit 5 (-1)))) 3 = Ok (lit 5 (-1))).
Proof.
  split; [|split; [|split; [|split; [|split]]]].
  - intros rest lr y t Ht.
    destruct (int_to_float_overflow (t + 1) ltac:(lia)) as [Hok Hov]. split.
    + intros Hlt. destruct (Hok Hlt) as [x Hx]. exists x.
      split; [exact Hx|]. apply B64_InverseScaling_float_get. exact Hx.
    + intros Hge. unfold InverseScaling.get, InverseScaling.init, pow.
      cbn [InverseScaling.power InverseScaling.learning_rate float_of_int B64.arith].
      rewrite (Hov Hge). reflexivity.
  - intros rest lr n t Hn. apply B64_InverseScaling_int_get. exact Hn.
  - intros other libm lr y Hv.
    rewrite (B64_InverseScaling_float_get _ lr y B64.one 0 eq_refl).
    rewrite float_pow_one. cbn [bind]. apply B64_truediv_one. exact Hv.
  - intros rest lr n t1 t2 r1 r2 Nlr Hn Ht G1 G2.
    rewrite B64_InverseScaling_int_get in G1, G2 by assumption.
    apply bind_Ok_inv in G1. destruct G1 as [y1 [Y1 D1]].
    apply bind_Ok_inv in G2. destruct G2 as [y2 [Y2 D2]].
    cbn [f_truediv f_le float_of_int dec B64.arith] in *.
    change (B64.literal 0 0) with B64.zero in Nlr.
    apply B64_div_Ok_inv in D1, D2. destruct D1 as [_ ->]. destruct D2 as [_ ->].
    assert (Hz1 : 1 <= (t1 + 1) ^ n).
    { assert (0 < (t1 + 1) ^ n) by (apply Z.pow_pos_nonneg; lia). lia. }
    assert (Hz : (t1 + 1) ^ n <= (t2 + 1) ^ n) by (apply Z.pow_le_mono_l; lia).
    destruct (int_to_float_mono ((t1 + 1) ^ n) ((t2 + 1) ^ n) y1 y2
                ltac:(lia) Y1 Y2) as [Hle [V1 [V2 _]]].
    destruct (int_to_float_pos ((t1 + 1) ^ n) y1 Hz1 Y1) as [m1 [e1 E1]].
    destruct (int_to_float_pos ((t2 + 1) ^ n) y2 ltac:(lia) Y2) as [m2 [e2 E2]].
    apply SFdiv_antitone_nonneg; try assumption.
    + right. rewrite E2. reflexivity.
    + rewrite E1. reflexivity.
  - intros other libm lr y t1 t2 r1 r2 Flr Nlr Fy Hy Hone Hmono Ht G1 G2.
    cbn [f_lt f_le dec B64.arith] in *. rewrite literal_one in *.
    change (B64.literal 0 0) with B64.zero in *.
    destruct (B64_InverseScaling_float_divisor other libm lr y r1 t1 Fy Hy Hone
                ltac:(lia) G1)
      as [x1 [p1 [X1 [Vx1 [Fx1 [_ [Vp1 [H1 [-> C1]]]]]]]]].
    destruct (B64_InverseScaling_float_divisor other libm lr y r2 t2 Fy Hy Hone
                ltac:(lia) G2)
      as [x2 [p2 [X2 [Vx2 [Fx2 [_ [Vp2 [H2 [-> C2]]]]]]]]].
    apply SFdiv_antitone_nonneg; try assumption.
    + left. exact Flr.
    + apply SFleb_one_pos. exact H1.
    + destruct C1 as [[-> [-> ->]]|[Ht1 [G1x L1]]].
      * exact H2.
      * destruct C2 as [[-> _]|[Ht2 [G2x L2]]]; [lia|].
        apply (Hmono x1 x2 p1 p2); try assumption.
        cbn [float_of_int B64.arith] in X1, X2.
        apply (int_to_float_mono (t1 + 1) (t2 + 1) x1 x2); [lia|exact X1|exact X2].
  - intros other libm H4.
    apply (B64_InverseScaling_example (B64.float_pow_cases other libm)).
    + reflexivity.
    + rewrite <- H4. reflexivity.
Qed.

Lemma InverseScaling_schedule_witness :
  B64.is_finite (lit 1 0) = true /\ (0.0 <=? lit 1 0)%fl = true /\
  B64.is_finite (lit 1 0) = true /\ (0.0 <? lit 1 0)%fl = true /\
  0 <= 1 <= 3 /\
  get (B64.float_pow_cases (fun _ _ => Raise ValueError) (fun x _ => Ok x))
    (InverseScaling.init (lit 1 0) (PyFloat (lit 1 0))) 1 = Ok (lit 5 (-1)) /\
  get (B64.float_pow_cases (fun _ _ => Raise ValueError) (fun x _ => Ok x))
    (InverseScaling.init (lit 1 0) (PyFloat (lit 1 0))) 3 = Ok (lit 25 (-2)) /\
  (lit 25 (-2) <=? lit 5 (-1))%fl = true.
Proof.
  assert (Ht : 0 <= 1 <= 3) by lia.
  assert (G1 : get (B64.float_pow_cases (fun _ _ => Raise ValueError) (fun x _ => Ok x))
                 (InverseScaling.init (lit 1 0) (PyFloat (lit 1 0))) 1 = Ok (lit 5 (-1)))
    by (vm_compute; reflexivity).
  assert (G2 : get (B64.float_pow_cases (fun _ _ => Raise ValueError) (fun x _ => Ok x))
                 (InverseScaling.init (lit 1 0) (PyFloat (lit 1 0))) 3 = Ok (lit 25 (-2)))
    by (vm_compute; reflexivity).
  split; [reflexivity|]. split; [reflexivity|]. split; [reflexivity|].
  split; [reflexivity|]. split; [exact Ht|]. split; [exact G1|]. split; [exact G2|].
  refine (proj1 (proj2 (proj2 (proj2 (proj2 InverseScaling_schedule))))
            (fun _ _ => Raise ValueError) (fun x _ => Ok x)
            (lit 1 0) (lit 1 0) 1 3 (lit 5 (-1)) (lit 25 (-2))
            eq_refl eq_refl eq_refl eq_refl _ _ Ht G1 G2).
  - intros x p Vx _ Gx [= <-]. split; [exact Vx|].
    unfold f_le, f_lt in *. cbn [B64.arith] in *. unfold SFltb in Gx. unfold SFleb.
    destruct (SFcompare (lit 1 0) x) as [[]|]; try discriminate Gx. reflexivity.
  - intros x1 x2 p1 p2 _ _ _ _ Hle [= <-] [= <-]. exact Hle.
Defined.

(** C9, as stated, fails for the float [power = 0.0]: at [t = 2^1024]
    the conversion of [t + 1] raises OverflowError, where Constant
    returns [0.1]. *)
Lemma InverseScaling_float_0_overflows :
  0 <= 2 ^ 1024 /\
  (forall rest,
      get rest (InverseScaling.init (lit 1 (-1)) (PyFloat 0.0%fl)) (2 ^ 1024)
      = Raise OverflowError) /\
  Constant.get (Constant.init (lit 1 (-1))) (2 ^ 1024) = lit 1 (-1).
Proof.
  split; [vm_compute; discriminate|]. split; [|reflexivity].
  intros rest. unfold InverseScaling.get, InverseScaling.init, pow.
  cbn [InverseScaling.power InverseScaling.learning_rate float_of_int B64.arith].
  replace (B64.int_to_float (2 ^ 1024 + 1)) with (@Raise spec_float OverflowError)
    by (vm_compute; reflexivity).
  reflexivity.
Qed.

(** C9, amended.  In binary64, for every [learning_rate]: with the int
    [power = 0], [get(t)] returns exactly what a Constant scheduler with
    the same [learning_rate] returns, for every [t], whatever the float
    power does; with the float [power = 0.0] it does so for every
    [t >= 0] with [t + 1 < 2^1024 - 2^970], and raises OverflowError for
    every larger [t], where [t + 1] does not convert to a float. *)
Theorem InverseScaling_power_0_is_Constant
    (rest : spec_float -> spec_float -> result spec_float)
    (learning_rate : float) (t : Z) :
  B64.valid learning_rate = true ->
  get rest (InverseScaling.init learning_rate (PyInt 0)) t
  = Ok (Constant.get (Constant.init learning_rate) t) /\
  (0 <= t -> t + 1 < 2 ^ 1024 - 2 ^ 970 ->
   get rest (InverseScaling.init learning_rate (PyFloat 0.0%fl)) t
   = Ok (Constant.get (Constant.init learning_rate) t)) /\
  (0 <= t -> 2 ^ 1024 - 2 ^ 970 <= t + 1 ->
   get rest (InverseScaling.init learning_rate (PyFloat 0.0%fl)) t
   = Raise OverflowError).
Proof.
  intros Hv. split; [exact (B64_InverseScaling_int_0 rest learning_rate t Hv)|].
  split.
  - intros Ht Hlt.
    destruct (int_to_float_overflow (t + 1) ltac:(lia)) as [Hok _].
    destruct (Hok Hlt) as [x Hx].
    apply (B64_InverseScaling_float_0 rest learning_rate t Hv).
    cbn [float_of_int B64.arith]. rewrite Hx. reflexivity.
  - intros Ht Hge.
    destruct (int_to_float_overflow (t + 1) ltac:(lia)) as [_ Hov].
    unfold InverseScaling.get, InverseScaling.init, pow.
    cbn [InverseScaling.power InverseScaling.learning_rate float_of_int B64.arith].
    rewrite (Hov Hge). reflexivity.
Qed.

Lemma InverseScaling_power_0_is_Constant_witness :
  B64.valid (lit 1 (-1)) = true /\
  get (fun _ _ => Raise ValueError) (InverseScaling.init (lit 1 (-1)) (PyInt 0)) 7
  = Ok (lit 1 (-1)) /\
  get (fun _ _ => Raise ValueError) (InverseScaling.init (lit 1 (-1)) (PyFloat 0.0%fl)) 7
  = Ok (lit 1 (-1)).
Proof.
  split; [reflexivity|]. split.
  - exact (proj1 (InverseScaling_power_0_is_Constant
                    (fun _ _ => Raise ValueError) (lit 1 (-1)) 7 eq_refl)).
  - apply (proj1 (proj2 (InverseScaling_power_0_is_Constant
                           (fun _ _ => Raise ValueError) (lit 1 (-1)) 7 eq_refl)));
      [lia|vm_compute; reflexivity].
Defined.
End InverseScalingClaims.

(** * Further properties of the schedulers *)

(** ** Cyclic, in binary64 *)

Section CyclicMore.
Local Existing Instance B64.arith.
Local Abbreviation lit := (@dec B64.arith).

(** X1.  At the end of every cycle, that is at every multiple of [c]
    (zero and the negative ones included), the rate is [lr2]; with
    [c = 1] every [t] is such an end. *)
Theorem Cyclic_get_cycle_end (lr1 lr2 : float) (c : pynum float) (s : Cyclic.t float)
    (k : Z) :
  Cyclic.init lr1 lr2 c = Ok s ->
  B64.is_finite lr1 = true -> B64.valid lr2 = true ->
  (exists x, Cyclic.get s (k * Cyclic.c s) = Ok x /\ (x == lr2)%fl = true) /\
  (Cyclic.c s = 1 -> exists x, Cyclic.get s k = Ok x /\ (x == lr2)%fl = true).
Proof.
  intros Hs Hf Hv.
  destruct (Cyclic_init_inv _ _ _ _ Hs) as [Hge [z [-> [Hz ->]]]].
  cbn [Cyclic.c].
  assert (H : exists x, Cyclic.get {| Cyclic.lr1 := lr1; Cyclic.lr2 := lr2; Cyclic.c := z |}
                          (k * z) = Ok x /\ (x == lr2)%fl = true).
  { rewrite (Cyclic_get_unfold _ (k * z) (k - 1) (z - 1)) by (cbn; lia).
    cbn [Cyclic.c Cyclic.lr1 Cyclic.lr2 int_truediv B64.arith].
    replace (z - 1 + 1) with z by lia.
    rewrite int_div_same by assumption. cbn [bind].
    eexists. split; [reflexivity|].
    cbn [f_eq f_add f_mul f_sub dec B64.arith].
    rewrite literal_one.
    change (SFsub B64.prec B64.emax B64.one B64.one) with (S754_zero false).
    rewrite SFmul_1_l by assumption.
    destruct (SFmul_zero_finite false lr1 Hf) as [s' ->].
    apply SFadd_zero_l_eq.
    cbn [f_le B64.arith] in Hge.
    destruct lr2; try reflexivity. destruct lr1; discriminate. }
  split; [exact H|]. intros ->. rewrite Z.mul_1_r in H. exact H.
Qed.

Lemma Cyclic_get_cycle_end_witness :
  Cyclic.init (lit 1 (-1)) (lit 1 (-3)) (PyInt 5)
  = Ok {| Cyclic.lr1 := lit 1 (-1); Cyclic.lr2 := lit 1 (-3); Cyclic.c := 5 |} /\
  B64.is_finite (lit 1 (-1)) = true /\ B64.valid (lit 1 (-3)) = true /\
  exists x,
    Cyclic.get {| Cyclic.lr1 := lit 1 (-1); Cyclic.lr2 := lit 1 (-3); Cyclic.c := 5 |}
      (-3 * 5) = Ok x /\ (x == lit 1 (-3))%fl = true.
Proof.
  split; [reflexivity|]. split; [reflexivity|]. split; [reflexivity|].
  exact (proj1 (Cyclic_get_cycle_end (lit 1 (-1)) (lit 1 (-3)) (PyInt 5)
                  {| Cyclic.lr1 := lit 1 (-1); Cyclic.lr2 := lit 1 (-3); Cyclic.c := 5 |}
                  (-3) eq_refl eq_refl eq_refl)).
Defined.

(** X2.  For every int the attribute [c] may hold (after an assignment,
    or where the assertions of the constructor were not executed) and
    every int [t], however large: [get] raises exactly when [c] is zero,
    a ZeroDivisionError from the modulo; for every other [c], negative
    ones included, the quotient of the two ints is computed without an
    OverflowError and the interpolation is returned. *)
Theorem Cyclic_get_raises_iff_c_zero (s : Cyclic.t float) (t : Z) :
  (Cyclic.c s = 0 -> Cyclic.get s t = Raise ZeroDivisionError) /\
  (Cyclic.c s <> 0 ->
   exists ti,
     int_truediv ((t - 1) mod Cyclic.c s + 1) (Cyclic.c s) = Ok ti /\
     Cyclic.get s t = Ok ((1.0 - ti) * Cyclic.lr1 s + ti * Cyclic.lr2 s)%fl).
Proof.
  unfold Cyclic.get, int_mod. split.
  - intros ->. reflexivity.
  - intros Hc. destruct (Z.eqb_spec (Cyclic.c s) 0); [contradiction|].
    cbn [bind int_truediv B64.arith].
    destruct (int_div_abs_le_ok ((t - 1) mod Cyclic.c s + 1) (Cyclic.c s) Hc) as [ti Hti].
    + destruct (Z_lt_le_dec 0 (Cyclic.c s)).
      * pose proof (Z.mod_pos_bound (t - 1) (Cyclic.c s) ltac:(lia)). lia.
      * pose proof (Z.mod_neg_bound (t - 1) (Cyclic.c s) ltac:(lia)). lia.
    + exists ti. rewrite Hti. split; reflexivity.
Qed.

(** X3.  With finite rates, [get] returns a number for every [t] and
    every cycle length: the result is never NaN, and it is not negative
    when [lr2] is not. *)
Theorem Cyclic_get_not_nan (lr1 lr2 : float) (c : pynum float) (s : Cyclic.t float)
    (t : Z) :
  Cyclic.init lr1 lr2 c = Ok s ->
  B64.valid lr1 = true -> B64.is_finite lr1 = true ->
  B64.valid lr2 = true -> B64.is_finite lr2 = true ->
  exists x, Cyclic.get s t = Ok x /\ B64.is_nan x = false /\
            ((0.0 <=? lr2)%fl = true -> (0.0 <=? x)%fl = true).
Proof.
  intros Hs V1 F1 V2 F2.
  destruct (Cyclic_init_inv _ _ _ _ Hs) as [Hge [z [-> [Hz ->]]]].
  pose proof (Z.div_mod (t - 1) z ltac:(lia)) as Hdm.
  pose proof (Z.mod_pos_bound (t - 1) z Hz) as Hb.
  rewrite (Cyclic_get_unfold _ t ((t - 1) / z) ((t - 1) mod z));
    [|cbn [Cyclic.c]; lia|cbn [Cyclic.c]; lia].
  cbn [Cyclic.c Cyclic.lr1 Cyclic.lr2 int_truediv B64.arith].
  destruct (int_div_le_ok ((t - 1) mod z + 1) z ltac:(lia)) as [ti [Hti _]].
  rewrite Hti. cbn [bind]. eexists. split; [reflexivity|].
  pose proof (int_div_le_one ((t - 1) mod z + 1) z ti ltac:(lia) Hti) as Hle.
  cbn [f_add f_mul f_sub f_le dec B64.arith] in *. rewrite literal_one.
  change (B64.literal 0 0) with B64.zero.
  pose proof (SFsub_one_le ti Hle) as Hle'.
  split.
  - apply SFadd_finite_not_nan.
    + apply SFmul_le_one_finite; [exact Hle'|exact V1|exact F1].
    + apply SFmul_le_one_finite; [exact Hle|exact V2|exact F2].
  - intros N2.
    assert (N1 : SFleb B64.zero lr1 = true)
      by (apply (SFleb_nonneg_trans lr2 lr1); assumption).
    apply SFadd_nonneg.
    + apply SFmul_le_one_finite; [exact Hle'|exact V1|exact F1].
    + apply SFmul_le_one_finite; [exact Hle|exact V2|exact F2].
    + apply SFmul_le_one_nonneg; assumption.
    + apply SFmul_le_one_nonneg; assumption.
Qed.

Lemma Cyclic_get_not_nan_witness :
  Cyclic.init (lit 1 (-1)) (lit 1 (-3)) (PyInt 5)
  = Ok {| Cyclic.lr1 := lit 1 (-1); Cyclic.lr2 := lit 1 (-3); Cyclic.c := 5 |} /\
  B64.valid (lit 1 (-1)) = true /\ B64.is_finite (lit 1 (-1)) = true /\
  B64.valid (lit 1 (-3)) = true /\ B64.is_finite (lit 1 (-3)) = true /\
  exists x,
    Cyclic.get {| Cyclic.lr1 := lit 1 (-1); Cyclic.lr2 := lit 1 (-3); Cyclic.c := 5 |} 7
    = Ok x /\ B64.is_nan x = false /\
    ((0.0 <=? lit 1 (-3))%fl = true -> (0.0 <=? x)%fl = true).
Proof.
  split; [reflexivity|]. split; [reflexivity|]. split; [reflexivity|].
  split; [reflexivity|]. split; [reflexivity|].
  exact (Cyclic_get_not_nan (lit 1 (-1)) (lit 1 (-3)) (PyInt 5)
           {| Cyclic.lr1 := lit 1 (-1); Cyclic.lr2 := lit 1 (-3); Cyclic.c := 5 |}
           7 eq_refl eq_refl eq_refl eq_refl eq_refl).
Defined.
End CyclicMore.

(** ** InverseScaling with an int exponent, in binary64 *)

Section InverseScalingMore.
Local Existing Instance B64.arith.
Local Abbreviation lit := (@dec B64.arith).

(** X5.  With an int [power >= 0] and a [learning_rate] that is not
    negative, the rate never increases with the iteration counter: for
    [0 <= t1 <= t2], [get(t2) <= get(t1)], rounding included. *)
Theorem InverseScaling_int_power_nonincreasing
    (rest : spec_float -> spec_float -> result spec_float)
    (learning_rate : float) (power t1 t2 : Z) (rate1 rate2 : float) :
  B64.valid learning_rate = true -> (0.0 <=? learning_rate)%fl = true ->
  0 <= power -> 0 <= t1 <= t2 ->
  @InverseScaling.get B64.arith (B64.arith_pow rest)
    (InverseScaling.init learning_rate (PyInt power)) t1 = Ok rate1 ->
  @InverseScaling.get B64.arith (B64.arith_pow rest)
    (InverseScaling.init learning_rate (PyInt power)) t2 = Ok rate2 ->
  (rate2 <=? rate1)%fl = true.
Proof.
  intros Vlr Nlr Hn Ht G1 G2.
  rewrite B64_InverseScaling_int_get in G1, G2 by assumption.
  apply bind_Ok_inv in G1. destruct G1 as [y1 [Y1 D1]].
  apply bind_Ok_inv in G2. destruct G2 as [y2 [Y2 D2]].
  assert (Nlr' : SFleb B64.zero learning_rate = true) by exact Nlr. clear Nlr.
  cbn [f_truediv f_le float_of_int B64.arith] in *.
  apply B64_div_Ok_inv in D1, D2. destruct D1 as [_ ->]. destruct D2 as [_ ->].
  assert (Hz1 : 1 <= (t1 + 1) ^ power).
  { assert (0 < (t1 + 1) ^ power) by (apply Z.pow_pos_nonneg; lia). lia. }
  assert (Hz : (t1 + 1) ^ power <= (t2 + 1) ^ power) by (apply Z.pow_le_mono_l; lia).
  destruct (int_to_float_mono ((t1 + 1) ^ power) ((t2 + 1) ^ power) y1 y2
              ltac:(lia) Y1 Y2) as [Hle [V1 [V2 _]]].
  destruct (int_to_float_pos _ y1 Hz1 Y1) as [m1 [e1 ->]].
  destruct (int_to_float_pos ((t2 + 1) ^ power) y2 ltac:(lia) Y2) as [m2 [e2 ->]].
  destruct learning_rate as [s|[]| |[] m e]; try discriminate Nlr'.
  - cbn [SFdiv xorb]. destruct s; reflexivity.
  - reflexivity.
  - apply SFdiv_antitone; solve [assumption | reflexivity].
Qed.

Lemma InverseScaling_int_power_nonincreasing_witness :
  B64.valid (lit 1 0) = true /\ (0.0 <=? lit 1 0)%fl = true /\
  0 <= 2 /\ 0 <= 1 <= 3 /\
  @InverseScaling.get B64.arith (B64.arith_pow (fun _ _ => Raise ValueError))
    (InverseScaling.init (lit 1 0) (PyInt 2)) 1 = Ok (lit 25 (-2)) /\
  @InverseScaling.get B64.arith (B64.arith_pow (fun _ _ => Raise ValueError))
    (InverseScaling.init (lit 1 0) (PyInt 2)) 3 = Ok (lit 625 (-4)) /\
  (lit 625 (-4) <=? lit 25 (-2))%fl = true.
Proof.
  assert (H0 : 0 <= 2) by lia. assert (Ht : 0 <= 1 <= 3) by lia.
  assert (G1 : @InverseScaling.get B64.arith (B64.arith_pow (fun _ _ => Raise ValueError))
                 (InverseScaling.init (lit 1 0) (PyInt 2)) 1 = Ok (lit 25 (-2)))
    by (vm_compute; reflexivity).
  assert (G2 : @InverseScaling.get B64.arith (B64.arith_pow (fun _ _ => Raise ValueError))
                 (InverseScaling.init (lit 1 0) (PyInt 2)) 3 = Ok (lit 625 (-4)))
    by (vm_compute; reflexivity).
  split; [reflexivity|]. split; [reflexivity|]. split; [exact H0|]. split; [exact Ht|].
  split; [exact G1|]. split; [exact G2|].
  exact (InverseScaling_int_power_nonincreasing (fun _ _ => Raise ValueError)
           (lit 1 0) 2 1 3 (lit 25 (-2)) (lit 625 (-4)) eq_refl eq_refl H0 Ht G1 G2).
Defined.

(** X6.  With an int [power >= 0] and [t >= 0], [get(t)] never divides
    by zero: it returns [learning_rate / float((t + 1) ^ power)] as long
    as [(t + 1) ^ power] is below [2^1024 - 2^970], and raises
    OverflowError from there on, the int being too large for a float.
    At [t = -1] and with [power >= 1] it raises ZeroDivisionError. *)
Theorem InverseScaling_int_power_errors
    (rest : spec_float -> spec_float -> result spec_float)
    (learning_rate : float) (power t : Z) :
  0 <= power ->
  (0 <= t -> (t + 1) ^ power < 2 ^ 1024 - 2 ^ 970 ->
   exists y, float_of_int ((t + 1) ^ power) = Ok y /\
             @InverseScaling.get B64.arith (B64.arith_pow rest)
               (InverseScaling.init learning_rate (PyInt power)) t
             = Ok (SFdiv B64.prec B64.emax learning_rate y)) /\
  (0 <= t -> 2 ^ 1024 - 2 ^ 970 <= (t + 1) ^ power ->
   @InverseScaling.get B64.arith (B64.arith_pow rest)
     (InverseScaling.init learning_rate (PyInt power)) t
   = Raise OverflowError) /\
  (1 <= power ->
   @InverseScaling.get B64.arith (B64.arith_pow rest)
     (InverseScaling.init learning_rate (PyInt power)) (-1)
   = Raise ZeroDivisionError).
Proof.
  intros Hn.
  assert (Hz : 0 <= t -> 1 <= (t + 1) ^ power).
  { intros Ht. assert (0 < (t + 1) ^ power) by (apply Z.pow_pos_nonneg; lia). lia. }
  split; [|split].
  - intros Ht Hlt. rewrite B64_InverseScaling_int_get by assumption.
    destruct (int_to_float_overflow ((t + 1) ^ power) ltac:(specialize (Hz Ht); lia))
      as [Hok _].
    destruct (Hok Hlt) as [y Hy]. exists y.
    cbn [float_of_int B64.arith]. rewrite Hy. split; [reflexivity|]. cbn [bind].
    destruct (int_to_float_pos _ y (Hz Ht) Hy) as [m [e ->]].
    apply B64_div_Ok. reflexivity.
  - intros Ht Hge. rewrite B64_InverseScaling_int_get by assumption.
    destruct (int_to_float_overflow ((t + 1) ^ power) ltac:(specialize (Hz Ht); lia))
      as [_ Hov].
    cbn [float_of_int B64.arith]. rewrite (Hov Hge). reflexivity.
  - intros Hp. rewrite B64_InverseScaling_int_get by assumption.
    change (-1 + 1) with 0. rewrite Z.pow_0_l by lia. reflexivity.
Qed.

Lemma InverseScaling_int_power_errors_witness :
  0 <= 2 /\ 0 <= 10 ^ 200 /\ 2 ^ 1024 - 2 ^ 970 <= (10 ^ 200 + 1) ^ 2 /\
  @InverseScaling.get B64.arith (B64.arith_pow (fun _ _ => Raise ValueError))
    (InverseScaling.init (lit 1 0) (PyInt 2)) (10 ^ 200)
  = Raise OverflowError.
Proof.
  assert (H0 : 0 <= 2) by lia.
  assert (Ht : 0 <= 10 ^ 200) by (vm_compute; discriminate).
  assert (Hge : 2 ^ 1024 - 2 ^ 970 <= (10 ^ 200 + 1) ^ 2) by (vm_compute; discriminate).
  split; [exact H0|]. split; [exact Ht|]. split; [exact Hge|].
  exact (proj1 (proj2 (InverseScaling_int_power_errors (fun _ _ => Raise ValueError)
                         (lit 1 0) 2 (10 ^ 200) H0)) Ht Hge).
Defined.
End InverseScalingMore.


(** ** Optimal, in binary64 *)

Section OptimalRange.
Local Existing Instance B64.arith.
Local Abbreviation lit := (@dec B64.arith).

Lemma B64_typw_valid (alpha typw : float) :
  Optimal.typw alpha = Ok typw -> B64.valid typw = true.
Proof.
  unfold Optimal.typw. intros H.
  apply bind_Ok_inv in H. destruct H as [s1 [_ H]].
  apply bind_Ok_inv in H. destruct H as [q [_ H]].
  exact (B64_sqrt_valid q typw H).
Qed.

(** X7.  The clamp makes every gradient that is not above [1.0]
    irrelevant, negative ones, zero and NaN included: [initial_eta0] is
    then [typw] itself, and construction goes on to
    [t0 = 1 / (typw * alpha)]. *)
Theorem Optimal_clamp_small_gradient (loss : Optimal.Loss float)
    (alpha typw g : float) :
  Optimal.typw alpha = Ok typw ->
  Optimal.gradient loss (- typw)%fl 1.0%fl = Ok g ->
  (g >? 1.0)%fl = false ->
  f_truediv typw (max 1.0%fl g) = Ok typw /\
  Optimal.init loss alpha
  = (t0 <- f_truediv 1.0%fl (typw * alpha)%fl ;;
     Ok {| Optimal.loss := loss; Optimal.alpha := alpha; Optimal.t0 := t0 |}).
Proof.
  intros Ht Hg Hle.
  assert (He : f_truediv typw (max 1.0%fl g) = Ok typw).
  { unfold max. rewrite Hle. cbn [dec B64.arith]. rewrite literal_one.
    apply B64_truediv_one. exact (B64_typw_valid alpha typw Ht). }
  split; [exact He|].
  unfold Optimal.init. rewrite Ht. cbn [bind]. rewrite Hg. cbn [bind].
  rewrite He. reflexivity.
Qed.

Lemma Optimal_clamp_small_gradient_witness :
  Optimal.typw (lit 1 (-4)) = Ok (lit 10 0) /\
  Optimal.gradient {| Optimal.gradient := fun _ _ => Ok (lit (-3) 0) |}
    (- lit 10 0)%fl 1.0%fl = Ok (lit (-3) 0) /\
  (lit (-3) 0 >? 1.0)%fl = false /\
  Optimal.init {| Optimal.gradient := fun _ _ => Ok (lit (-3) 0) |} (lit 1 (-4))
  = (t0 <- f_truediv 1.0%fl (lit 10 0 * lit 1 (-4))%fl ;;
     Ok {| Optimal.loss := {| Optimal.gradient := fun _ _ => Ok (lit (-3) 0) |};
           Optimal.alpha := lit 1 (-4); Optimal.t0 := t0 |}).
Proof.
  assert (Ht : Optimal.typw (lit 1 (-4)) = Ok (lit 10 0)) by (vm_compute; reflexivity).
  split; [exact Ht|]. split; [reflexivity|]. split; [reflexivity|].
  exact (proj2 (Optimal_clamp_small_gradient
                  {| Optimal.gradient := fun _ _ => Ok (lit (-3) 0) |}
                  (lit 1 (-4)) (lit 10 0) (lit (-3) 0) Ht eq_refl eq_refl)).
Defined.

(** X8.  A NaN or [+inf] [alpha] is not rejected: with a loss that
    returns, construction succeeds, [t0] is NaN, and every later
    [get(t)] returns NaN. *)
Theorem Optimal_nan_or_infinite_alpha (loss : Optimal.Loss float) (alpha : float) :
  B64.is_nan alpha = true \/ alpha = B64.inf ->
  (forall y_pred y_true, exists g, Optimal.gradient loss y_pred y_true = Ok g) ->
  exists s,
    Optimal.init loss alpha = Ok s /\
    Optimal.alpha s = alpha /\ B64.is_nan (Optimal.t0 s) = true /\
    forall t ft, float_of_int t = Ok ft ->
      exists rate, Optimal.get s t = Ok rate /\ B64.is_nan rate = true.
Proof.
  intros Ha Hloss.
  assert (Hmax : forall g, SFltb B64.one g = true ->
            g = S754_infinity false \/ exists m e, g = S754_finite false m e).
  { intros g Hg.
    destruct g as [[]|[]| |[] m e]; try discriminate Hg; [left|right]; eauto. }
  assert (Hinit : Optimal.init loss alpha
            = Ok {| Optimal.loss := loss; Optimal.alpha := alpha;
                    Optimal.t0 := B64.nan |}).
  { unfold Optimal.init, Optimal.typw, max.
    cbn [math_sqrt f_truediv f_mul f_lt f_neg dec B64.arith] in *.
    rewrite literal_one in *.
    destruct Ha as [Ha| ->].
    - destruct alpha; try discriminate Ha.
      change (B64.sqrt S754_nan) with (Ok S754_nan). cbn [bind].
      change (B64.div B64.one S754_nan) with (Ok S754_nan). cbn [bind].
      change (B64.sqrt S754_nan) with (Ok S754_nan). cbn [bind].
      destruct (Hloss (SFopp S754_nan) B64.one) as [g ->]. cbn [bind].
      destruct (SFltb B64.one g) eqn:Hg.
      + destruct (Hmax g Hg) as [-> | [m [e ->]]]; reflexivity.
      + reflexivity.
    - change (B64.sqrt B64.inf) with (Ok B64.inf). cbn [bind].
      change (B64.div B64.one B64.inf) with (Ok B64.zero). cbn [bind].
      change (B64.sqrt B64.zero) with (Ok B64.zero). cbn [bind].
      destruct (Hloss (SFopp B64.zero) B64.one) as [g ->]. cbn [bind].
      destruct (SFltb B64.one g) eqn:Hg.
      + destruct (Hmax g Hg) as [-> | [m [e ->]]]; reflexivity.
      + reflexivity. }
  eexists. split; [exact Hinit|]. cbn [Optimal.alpha Optimal.t0].
  split; [reflexivity|]. split; [reflexivity|].
  intros t ft Hft. exists B64.nan. split; [|reflexivity].
  unfold Optimal.get. rewrite Hft. cbn [bind Optimal.alpha Optimal.t0].
  cbn [f_truediv f_mul f_add B64.arith].
  change (SFadd B64.prec B64.emax B64.nan ft) with S754_nan.
  replace (SFmul B64.prec B64.emax alpha S754_nan) with S754_nan
    by (destruct alpha; reflexivity).
  reflexivity.
Qed.

Lemma Optimal_nan_or_infinite_alpha_witness :
  (B64.is_nan B64.nan = true \/ B64.nan = B64.inf) /\
  exists s,
    Optimal.init {| Optimal.gradient := fun _ _ => Ok 1.0%fl |} B64.nan = Ok s /\
    Optimal.alpha s = B64.nan /\ B64.is_nan (Optimal.t0 s) = true /\
    forall t ft, float_of_int t = Ok ft ->
      exists rate, Optimal.get s t = Ok rate /\ B64.is_nan rate = true.
Proof.
  split; [left; reflexivity|].
  exact (Optimal_nan_or_infinite_alpha
           {| Optimal.gradient := fun _ _ => Ok 1.0%fl |} B64.nan
           (or_introl eq_refl) (fun _ _ => ex_intro _ 1.0%fl eq_refl)).
Defined.

(** X9.  In an ordinary range nothing fails and the rate is strictly
    positive: with [2^-100 <= alpha <= 1], a loss that returns floats
    which, when above [1.0], are at most [2^100], and
    [0 <= t <= 2^64], construction succeeds and [get(t)] returns a
    finite rate [> 0], between [2^-201] and [2^125]. *)
Theorem Optimal_ordinary_range (loss : Optimal.Loss float) (alpha : float) (t : Z) :
  pos_ge alpha (-100) -> pos_le alpha 0 ->
  (forall y_pred y_true, exists g,
      Optimal.gradient loss y_pred y_true = Ok g /\ B64.valid g = true /\
      ((g >? 1.0)%fl = true -> pos_le g 100)) ->
  0 <= t <= 2 ^ 64 ->
  exists s rate,
    Optimal.init loss alpha = Ok s /\ Optimal.get s t = Ok rate /\
    B64.is_finite rate = true /\ (0.0 <? rate)%fl = true /\
    pos_ge rate (-201) /\ pos_le rate 125.
Proof.
  intros Hge Hle Hloss Ht.
  unfold Optimal.init, Optimal.typw, Optimal.get.
  cbn [math_sqrt f_truediv f_mul f_add f_lt f_neg dec float_of_int B64.arith].
  rewrite literal_one. change (B64.literal 0 0) with B64.zero.
  (* sqrt(alpha) *)
  rewrite (B64_sqrt_Ok alpha (-50)) by (try exact Hge; lia). cbn [bind].
  set (s1 := SFsqrt B64.prec B64.emax alpha).
  assert (Hs1ge : pos_ge s1 (-50)) by (apply SFsqrt_ge; [exact Hge|lia]).
  assert (Hs1le : pos_le s1 0) by (apply (SFsqrt_le alpha 0); [exact Hle|lia]).
  (* 1 / sqrt(alpha) *)
  rewrite (B64_div_Ok B64.one s1) by (apply pos_ge_nonzero with (1 := Hs1ge)). cbn [bind].
  set (q := SFdiv B64.prec B64.emax B64.one s1).
  assert (Hqge : pos_ge q (0 - 0)) by (apply SFdiv_ge; [apply pos_ge_one|exact Hs1le|lia]).
  assert (Hqle : pos_le q (0 - -50)) by (apply SFdiv_le; [apply pos_le_one|exact Hs1ge|lia]).
  (* typw *)
  rewrite (B64_sqrt_Ok q 0) by (try exact Hqge; lia). cbn [bind].
  set (typw := SFsqrt B64.prec B64.emax q).
  assert (Htge : pos_ge typw 0) by (apply SFsqrt_ge; [exact Hqge|lia]).
  assert (Htle : pos_le typw 25) by (apply SFsqrt_le; [exact Hqle|lia]).
  (* the gradient and the clamp *)
  destruct (Hloss (SFopp typw) B64.one) as [g [-> [Hgv Hgle]]]. cbn [bind].
  pose proof (max_one_ge g Hgv) as Hmge.
  assert (Hmle : pos_le (@max B64.arith B64.one g) 100).
  { unfold max. cbn [f_lt dec B64.arith] in *. rewrite literal_one in Hgle.
    destruct (SFltb B64.one g); [apply Hgle; reflexivity|].
    apply pos_le_weaken with (1 := pos_le_one). lia. }
  set (mx := @max B64.arith B64.one g) in *.
  rewrite (B64_div_Ok typw mx) by (apply pos_ge_nonzero with (1 := Hmge)). cbn [bind].
  set (eta0 := SFdiv B64.prec B64.emax typw mx).
  assert (Hege : pos_ge eta0 (0 - 100)) by (apply SFdiv_ge; [exact Htge|exact Hmle|lia]).
  assert (Hele : pos_le eta0 (25 - 0)) by (apply SFdiv_le; [exact Htle|exact Hmge|lia]).
  (* t0 *)
  set (d := SFmul B64.prec B64.emax eta0 alpha).
  assert (Hdge : pos_ge d (0 - 100 + -100)) by (apply SFmul_ge; [exact Hege|exact Hge|lia]).
  assert (Hdle : pos_le d (25 - 0 + 0)) by (apply SFmul_le; [exact Hele|exact Hle|lia]).
  rewrite (B64_div_Ok B64.one d) by (apply pos_ge_nonzero with (1 := Hdge)). cbn [bind].
  set (t0 := SFdiv B64.prec B64.emax B64.one d).
  assert (H0ge : pos_ge t0 (0 - (25 - 0 + 0)))
    by (apply SFdiv_ge; [apply pos_ge_one|exact Hdle|lia]).
  assert (H0le : pos_le t0 (0 - (0 - 100 + -100)))
    by (apply SFdiv_le; [apply pos_le_one|exact Hdge|lia]).
  (* get *)
  destruct (int_to_float_overflow t ltac:(lia)) as [Hconv _].
  destruct Hconv as [ft Hft].
  { apply Z.le_lt_trans with (m := 2 ^ 64); [lia|]. vm_compute. reflexivity. }
  assert (Hfle : pos_le ft 64) by (apply (int_to_float_le t 64 ft); [lia|lia|exact Hft]).
  eexists. eexists. split; [reflexivity|].
  cbn [Optimal.alpha Optimal.t0]. rewrite Hft. cbn [bind].
  set (sum := SFadd B64.prec B64.emax t0 ft).
  assert (Hsge : pos_ge sum (0 - (25 - 0 + 0)))
    by (apply (SFadd_int_ge t0 ft t); [exact H0ge|lia|lia|exact Hft]).
  assert (Hsle : pos_le sum (200 + 1)).
  { apply SFadd_le; [apply pos_le_weaken with (1 := H0le); lia
                    |apply pos_le_weaken with (1 := Hfle); lia|lia]. }
  set (den := SFmul B64.prec B64.emax alpha sum).
  assert (Hnge : pos_ge den (-100 + (0 - (25 - 0 + 0))))
    by (apply SFmul_ge; [exact Hge|exact Hsge|lia]).
  assert (Hnle : pos_le den (0 + (200 + 1)))
    by (apply SFmul_le; [exact Hle|exact Hsle|lia]).
  rewrite (B64_div_Ok B64.one den) by (apply pos_ge_nonzero with (1 := Hnge)).
  split; [reflexivity|].
  assert (Hrge : pos_ge (SFdiv B64.prec B64.emax B64.one den) (0 - (0 + (200 + 1))))
    by (apply SFdiv_ge; [apply pos_ge_one|exact Hnle|lia]).
  assert (Hrle : pos_le (SFdiv B64.prec B64.emax B64.one den)
                   (0 - (-100 + (0 - (25 - 0 + 0)))))
    by (apply SFdiv_le; [apply pos_le_one|exact Hnge|lia]).
  split; [apply (pos_le_ge_zero _ _ Hrle)|].
  split; [apply pos_ge_gt_zero with (1 := Hrge)|].
  split; [exact Hrge|exact Hrle].
Qed.

Lemma Optimal_ordinary_range_witness :
  pos_ge (lit 1 (-4)) (-100) /\ pos_le (lit 1 (-4)) 0 /\ 0 <= 1000 <= 2 ^ 64 /\
  exists s rate,
    Optimal.init {| Optimal.gradient := fun _ _ => Ok (lit 25 (-1)) |} (lit 1 (-4)) = Ok s /\
    Optimal.get s 1000 = Ok rate /\
    B64.is_finite rate = true /\ (0.0 <? rate)%fl = true /\
    pos_ge rate (-201) /\ pos_le rate 125.
Proof.
  assert (Hge : pos_ge (lit 1 (-4)) (-100)) by (vm_compute; discriminate).
  assert (Hle : pos_le (lit 1 (-4)) 0) by (vm_compute; split; discriminate).
  assert (Ht : 0 <= 1000 <= 2 ^ 64) by (vm_compute; split; discriminate).
  assert (Hg : pos_le (lit 25 (-1)) 100) by (vm_compute; split; discriminate).
  split; [exact Hge|]. split; [exact Hle|]. split; [exact Ht|].
  exact (Optimal_ordinary_range
           {| Optimal.gradient := fun _ _ => Ok (lit 25 (-1)) |} (lit 1 (-4)) 1000
           Hge Hle
           (fun _ _ => ex_intro _ (lit 25 (-1)) (conj eq_refl (conj eq_refl (fun _ => Hg))))
           Ht).
Defined.
End OptimalRange.

Section OptimalMoreClaims.
Local Existing Instance B64.arith.
Local Abbreviation lit := (@dec B64.arith).

(** X10.  After a successful construction with a finite [alpha > 0], the
    only exception [get(t)] raises for [t >= 0] is the OverflowError of
    the conversion of [t] to a float, and it raises it exactly from
    [t = 2^1024 - 2^970] on, the least int that rounds to [2^1024]. *)
Theorem Optimal_get_overflow (loss : Optimal.Loss float) (alpha : float)
    (s : Optimal.t float) (t : Z) :
  (forall y_pred y_true g,
      Optimal.gradient loss y_pred y_true = Ok g -> B64.valid g = true) ->
  B64.valid alpha = true -> B64.is_finite alpha = true ->
  (alpha >? 0.0)%fl = true ->
  Optimal.init loss alpha = Ok s ->
  0 <= t ->
  (t < 2 ^ 1024 - 2 ^ 970 -> exists rate, Optimal.get s t = Ok rate) /\
  (2 ^ 1024 - 2 ^ 970 <= t -> Optimal.get s t = Raise OverflowError).
Proof.
  intros Hg Hv Hf Hpos Hinit Ht.
  destruct (int_to_float_overflow t Ht) as [Hok Hov]. split.
  - intros Hlt. destruct (Hok Hlt) as [ft Hft].
    destruct (B64_Optimal_init_inv loss alpha s Hg Hv Hf Hpos Hinit)
      as [Ha [typw [g [eta0 [_ [_ [_ [_ [_ [_ [j [u [Hj [Hu [Huj [Hge Hge0]]]]]]]]]]]]]]]].
    rewrite <- Ha in Hge.
    destruct (B64_Optimal_get_bounds s t j u ft Hj Hu Huj Hge Hge0 Ht Hft)
      as [_ [rate [Hrate _]]].
    exists rate. exact Hrate.
  - intros Hge. unfold Optimal.get. cbn [float_of_int B64.arith].
    rewrite (Hov Hge). reflexivity.
Qed.

Lemma Optimal_get_overflow_witness :
  (forall y_pred y_true g,
      Optimal.gradient {| Optimal.gradient := fun _ _ => Ok 1.0%fl |} y_pred y_true = Ok g ->
      B64.valid g = true) /\
  B64.valid (lit 1 (-4)) = true /\ B64.is_finite (lit 1 (-4)) = true /\
  (lit 1 (-4) >? 0.0)%fl = true /\
  Optimal.init {| Optimal.gradient := fun _ _ => Ok 1.0%fl |} (lit 1 (-4))
  = Ok {| Optimal.loss := {| Optimal.gradient := fun _ _ => Ok 1.0%fl |};
          Optimal.alpha := lit 1 (-4); Optimal.t0 := lit 1000 0 |} /\
  0 <= 10 ^ 400 /\ 2 ^ 1024 - 2 ^ 970 <= 10 ^ 400 /\
  Optimal.get {| Optimal.loss := {| Optimal.gradient := fun _ _ => Ok 1.0%fl |};
                 Optimal.alpha := lit 1 (-4); Optimal.t0 := lit 1000 0 |} (10 ^ 400)
  = Raise OverflowError.
Proof.
  assert (Hg : forall y_pred y_true g,
             Optimal.gradient {| Optimal.gradient := fun _ _ => Ok 1.0%fl |} y_pred y_true
             = Ok g -> B64.valid g = true)
    by (intros y_pred y_true g H; injection H as <-; reflexivity).
  assert (Hinit : Optimal.init {| Optimal.gradient := fun _ _ => Ok 1.0%fl |} (lit 1 (-4))
                  = Ok {| Optimal.loss := {| Optimal.gradient := fun _ _ => Ok 1.0%fl |};
                          Optimal.alpha := lit 1 (-4); Optimal.t0 := lit 1000 0 |})
    by (vm_compute; reflexivity).
  assert (H0 : 0 <= 10 ^ 400) by (vm_compute; discriminate).
  assert (H1 : 2 ^ 1024 - 2 ^ 970 <= 10 ^ 400) by (vm_compute; discriminate).
  split; [exact Hg|]. split; [reflexivity|]. split; [reflexivity|].
  split; [reflexivity|]. split; [exact Hinit|]. split; [exact H0|]. split; [exact H1|].
  exact (proj2 (Optimal_get_overflow {| Optimal.gradient := fun _ _ => Ok 1.0%fl |}
                  (lit 1 (-4))
                  {| Optimal.loss := {| Optimal.gradient := fun _ _ => Ok 1.0%fl |};
                     Optimal.alpha := lit 1 (-4); Optimal.t0 := lit 1000 0 |}
                  (10 ^ 400) Hg eq_refl eq_refl eq_refl Hinit H0) H1).
Defined.

(** X11.  After a successful construction with a finite [alpha > 0], the
    rate never increases with the iteration counter: for
    [0 <= t1 <= t2], [get(t2) <= get(t1)], rounding included. *)
Theorem Optimal_get_nonincreasing (loss : Optimal.Loss float) (alpha : float)
    (s : Optimal.t float) (t1 t2 : Z) (ft1 ft2 : float) :
  (forall y_pred y_true g,
      Optimal.gradient loss y_pred y_true = Ok g -> B64.valid g = true) ->
  B64.valid alpha = true -> B64.is_finite alpha = true ->
  (alpha >? 0.0)%fl = true ->
  Optimal.init loss alpha = Ok s ->
  0 <= t1 <= t2 -> float_of_int t1 = Ok ft1 -> float_of_int t2 = Ok ft2 ->
  exists rate1 rate2,
    Optimal.get s t1 = Ok rate1 /\ Optimal.get s t2 = Ok rate2 /\
    (rate2 <=? rate1)%fl = true.
Proof.
  intros Hg Hv Hf Hpos Hinit Ht H1 H2.
  pose proof (B64_Optimal_t0_valid loss alpha s Hg Hv Hf Hpos Hinit) as Vt0.
  destruct (B64_Optimal_init_inv loss alpha s Hg Hv Hf Hpos Hinit)
    as [Ha [typw [g [eta0 [_ [_ [_ [_ [_ [_ [j [u [Hj [Hu [Huj [Hge Hge0]]]]]]]]]]]]]]]].
  rewrite <- Ha in Hge, Hv.
  destruct (B64_Optimal_get_bounds s t1 j u ft1 Hj Hu Huj Hge Hge0 ltac:(lia) H1)
    as [D1 _].
  destruct (B64_Optimal_get_bounds s t2 j u ft2 Hj Hu Huj Hge Hge0 ltac:(lia) H2)
    as [D2 _].
  rewrite (B64_Optimal_get_value s t1 ft1 H1 D1), (B64_Optimal_get_value s t2 ft2 H2 D2).
  do 2 eexists. split; [reflexivity|]. split; [reflexivity|].
  cbn [f_le f_lt f_mul f_add dec float_of_int B64.arith] in *.
  change (B64.literal 0 0) with B64.zero in *.
  destruct (int_to_float_mono t1 t2 ft1 ft2 Ht H1 H2) as [Hle [V1 [V2 N1]]].
  assert (N2 : SFleb B64.zero ft2 = true).
  { apply (int_to_float_mono 0 t2 B64.zero ft2); [lia|reflexivity|exact H2]. }
  assert (P0 : SFltb B64.zero (Optimal.t0 s) = true) by exact (pos_ge_gt_zero _ _ Hge0).
  pose proof (SFadd_mono (Optimal.t0 s) ft1 ft2 Vt0 P0 V1 V2 N1 Hle) as Hsum.
  pose proof (SFadd_pos_valid (Optimal.t0 s) ft1 Vt0 P0 V1 N1) as Vs1.
  pose proof (SFadd_pos_valid (Optimal.t0 s) ft2 Vt0 P0 V2 N2) as Vs2.
  set (sum1 := SFadd B64.prec B64.emax (Optimal.t0 s) ft1) in *.
  set (sum2 := SFadd B64.prec B64.emax (Optimal.t0 s) ft2) in *.
  assert (Ps1 : SFltb B64.zero sum1 = true).
  { apply pos_ge_gt_zero with (k := - (u + j + 1)).
    apply (SFadd_int_ge _ ft1 t1); [exact Hge0|lia|lia|exact H1]. }
  assert (Ps2 : SFltb B64.zero sum2 = true).
  { apply pos_ge_gt_zero with (k := - (u + j + 1)).
    apply (SFadd_int_ge _ ft2 t2); [exact Hge0|lia|lia|exact H2]. }
  destruct (Optimal.alpha s) as [[]|[]| |[] ma ea] eqn:Ea; try contradiction;
    try (rewrite <- Ha in Hf; discriminate Hf).
  pose proof (SFmul_mono ma ea sum1 sum2 Hv Vs1 Vs2 Ps1 Hsum) as Hden.
  pose proof (SFmul_pos_valid ma ea sum1 Hv Vs1 Ps1) as Vd1.
  pose proof (SFmul_pos_valid ma ea sum2 Hv Vs2 Ps2) as Vd2.
  exact (SFdiv_antitone 4503599627370496 (-52) _ _ Vd1 Vd2 D1 Hden).
Qed.

Lemma Optimal_get_nonincreasing_witness :
  (forall y_pred y_true g,
      Optimal.gradient {| Optimal.gradient := fun _ _ => Ok 1.0%fl |} y_pred y_true = Ok g ->
      B64.valid g = true) /\
  B64.valid (lit 1 (-4)) = true /\ B64.is_finite (lit 1 (-4)) = true /\
  (lit 1 (-4) >? 0.0)%fl = true /\
  Optimal.init {| Optimal.gradient := fun _ _ => Ok 1.0%fl |} (lit 1 (-4))
  = Ok {| Optimal.loss := {| Optimal.gradient := fun _ _ => Ok 1.0%fl |};
          Optimal.alpha := lit 1 (-4); Optimal.t0 := lit 1000 0 |} /\
  0 <= 3 <= 8 /\ float_of_int 3 = Ok (lit 3 0) /\ float_of_int 8 = Ok (lit 8 0) /\
  exists rate1 rate2,
    Optimal.get {| Optimal.loss := {| Optimal.gradient := fun _ _ => Ok 1.0%fl |};
                   Optimal.alpha := lit 1 (-4); Optimal.t0 := lit 1000 0 |} 3 = Ok rate1 /\
    Optimal.get {| Optimal.loss := {| Optimal.gradient := fun _ _ => Ok 1.0%fl |};
                   Optimal.alpha := lit 1 (-4); Optimal.t0 := lit 1000 0 |} 8 = Ok rate2 /\
    (rate2 <=? rate1)%fl = true.
Proof.
  assert (Hg : forall y_pred y_true g,
             Optimal.gradient {| Optimal.gradient := fun _ _ => Ok 1.0%fl |} y_pred y_true
             = Ok g -> B64.valid g = true)
    by (intros y_pred y_true g H; injection H as <-; reflexivity).
  assert (Hinit : Optimal.init {| Optimal.gradient := fun _ _ => Ok 1.0%fl |} (lit 1 (-4))
                  = Ok {| Optimal.loss := {| Optimal.gradient := fun _ _ => Ok 1.0%fl |};
                          Optimal.alpha := lit 1 (-4); Optimal.t0 := lit 1000 0 |})
    by (vm_compute; reflexivity).
  assert (Ht : 0 <= 3 <= 8) by lia.
  split; [exact Hg|]. split; [reflexivity|]. split; [reflexivity|].
  split; [reflexivity|]. split; [exact Hinit|]. split; [exact Ht|].
  split; [reflexivity|]. split; [reflexivity|].
  exact (Optimal_get_nonincreasing {| Optimal.gradient := fun _ _ => Ok 1.0%fl |}
           (lit 1 (-4))
           {| Optimal.loss := {| Optimal.gradient := fun _ _ => Ok 1.0%fl |};
              Optimal.alpha := lit 1 (-4); Optimal.t0 := lit 1000 0 |}
           3 8 (lit 3 0) (lit 8 0) Hg eq_refl eq_refl eq_refl Hinit Ht eq_refl eq_refl).
Defined.
End OptimalMoreClaims.
